(** * kro: resource-graph compiler and instance runtime

    A shallow embedding of the parts of the repository that its specification
    makes checkable statements about:

    - [Delta]: [pkg/controller/instance/delta/delta.go], the structural
      comparison of a desired and an observed unstructured object, first as
      pure functions over JSON trees, then over an explicit store of maps and
      slices, where [cleanMetadata] deletes in place;
    - [SimpleSchema]: [pkg/simpleschema], marker application, the schema
      builder and the loading of custom types;
    - [CRD]: the OpenAPI schema of a resource declaration in
      [config/crd/bases/kro.run_resourcegraphdefinitions.yaml];
    - [Collection] and [ForEach]: the runtime expansion of a collection
      resource and the compilation of its [forEach] dimensions;
    - [MarkerParser]: the parser of marker strings of [pkg/simpleschema],
      with the functions of Go's library for strings it goes through;
    - [Rbac]: the policy rules of [cmd/kubectl-kro/generate/rbac]. *)

From Stdlib Require Import ZArith String Ascii List Lia Bool.
From Stdlib Require Import Floats.PrimFloat.
From Stdlib Require Classical_Prop.
From stdpp Require Import base option list relations gmap strings pretty
  sorting.

Set Warnings "-register-all".
Set Default Proof Using "Type".

(** ** Unstructured JSON values

    [unstructured.Unstructured] carries a [map[string]interface{}] whose
    values are exactly the dynamic types its deep copy accepts: [nil], [bool],
    [int64], [float64], [string], [json.Number], [map[string]interface{}]
    and [[]interface{}]. *)

Inductive value : Type :=
  | VNil
  | VBool (b : bool)
  | VInt64 (z : Z)
  | VFloat64 (f : float)
  | VString (s : string)
  | VNumber (s : string)
  | VMap (m : gmap string value)
  | VSlice (l : list value).

Fixpoint vsize (v : value) : nat :=
  match v with
  | VMap m => S (map_fold (fun _ x acc => vsize x + acc) 0 m)
  | VSlice l => S (foldr (fun x acc => vsize x + acc) 0 l)
  | _ => 1
  end.

Module Delta.

(** [Difference] represents a single difference between two objects. *)
Record Difference : Type := mkDifference {
  Path : string;
  Desired : value;
  Observed : value;
}.

(** Go's [desired != observed] on two [interface{}] values, as it is used in
    the default branch of [walkCompare]: equal dynamic types and equal values.
    [float64] follows IEEE 754 ([NaN] differs from itself, signed zeros are
    equal); a map or a slice on the left never reaches this comparison. *)
Definition iface_eqb (a b : value) : bool :=
  match a, b with
  | VNil, VNil => true
  | VBool x, VBool y => Bool.eqb x y
  | VInt64 x, VInt64 y => Z.eqb x y
  | VFloat64 x, VFloat64 y => PrimFloat.eqb x y
  | VString x, VString y => String.eqb x y
  | VNumber x, VNumber y => String.eqb x y
  | _, _ => false
  end.

Definition is_nil (v : value) : bool :=
  match v with VNil => true | _ => false end.

(** [fmt.Sprintf("%s.%s", path, k)], or [k] at the root. *)
Definition mapPath (path k : string) : string :=
  if String.eqb path "" then k else path +:+ "." +:+ k.

(** [fmt.Sprintf("%s[%d]", path, i)]. *)
Definition slicePath (path : string) (i : nat) : string :=
  path +:+ "[" +:+ pretty i +:+ "]".

(** [walkCompare], with the loops of [walkMap] and [walkSlice] nested so that
    the recursion is structural. The result is the list of differences the Go
    code appends to [*differences], in the order it appends them; the map loop
    visits the keys of [desired] in the order of [map_fold] (Go leaves the
    order of [range] over a map unspecified). *)
Fixpoint walkCompare (desired observed : value) (path : string)
  : list Difference :=
  match desired with
  | VMap d =>
      match observed with
      | VMap e =>
          map_fold (fun k desiredVal rest =>
            (let newPath := mapPath path k in
             match e !! k with
             | None =>
                 if is_nil desiredVal
                 then walkCompare desiredVal VNil newPath
                 else [mkDifference newPath desiredVal VNil]
             | Some observedVal => walkCompare desiredVal observedVal newPath
             end) ++ rest) [] d
      | _ => [mkDifference path desired observed]
      end
  | VSlice d =>
      match observed with
      | VSlice e =>
          if negb (length d =? length e)
          then [mkDifference path desired observed]
          else
            (fix loop (ds es : list value) (i : nat) : list Difference :=
               match ds, es with
               | x :: ds', y :: es' =>
                   walkCompare x y (slicePath path i) ++ loop ds' es' (S i)
               | _, _ => []
               end) d e 0
      | _ => [mkDifference path desired observed]
      end
  | _ =>
      if negb (iface_eqb desired observed)
      then [mkDifference path desired observed]
      else []
  end.

(** The body of the loop of [walkMap] for one entry of [desired]. *)
Definition walkEntry (observed : gmap string value) (path : string)
    (k : string) (desiredVal : value) : list Difference :=
  let newPath := mapPath path k in
  match observed !! k with
  | None =>
      if is_nil desiredVal
      then walkCompare desiredVal VNil newPath
      else [mkDifference newPath desiredVal VNil]
  | Some observedVal => walkCompare desiredVal observedVal newPath
  end.

Definition walkMap (desired observed : gmap string value) (path : string)
  : list Difference :=
  map_fold (fun k desiredVal rest => walkEntry observed path k desiredVal ++ rest)
           [] desired.

Fixpoint walkSliceFrom (desired observed : list value) (path : string)
    (i : nat) : list Difference :=
  match desired, observed with
  | x :: ds', y :: es' =>
      walkCompare x y (slicePath path i) ++ walkSliceFrom ds' es' path (S i)
  | _, _ => []
  end.

Definition walkSlice (desired observed : list value) (path : string)
  : list Difference :=
  if negb (length desired =? length observed)
  then [mkDifference path (VSlice desired) (VSlice observed)]
  else walkSliceFrom desired observed path 0.

(** The fields [cleanMetadata] always removes. *)
Definition fieldsToRemove : list string :=
  [ "creationTimestamp"; "deletionTimestamp"; "generation";
    "resourceVersion"; "selfLink"; "uid"; "managedFields";
    "ownerReferences"; "finalizers" ].

(** [if m, ok := metadata[field].(map[string]interface{}); ok && len(m) == 0
    { delete(metadata, field) }]. *)
Definition dropIfEmptyMap (field : string) (metadata : gmap string value)
  : gmap string value :=
  match metadata !! field with
  | Some (VMap a) => if decide (size a = 0) then delete field metadata else metadata
  | _ => metadata
  end.

Definition cleanMetadataMap (metadata : gmap string value) : gmap string value :=
  let metadata := dropIfEmptyMap "annotations" metadata in
  let metadata := dropIfEmptyMap "labels" metadata in
  foldl (fun m field => delete field m) metadata fieldsToRemove.

(** [cleanMetadata] on the tree of an object: the Go function deletes from
    the map that [obj.Object["metadata"]] refers to, so the object sees the
    cleaned map under the same key. *)
Definition cleanMetadata (obj : gmap string value) : gmap string value :=
  match obj !! "metadata" with
  | Some (VMap metadata) => <["metadata" := VMap (cleanMetadataMap metadata)]> obj
  | _ => obj
  end.

(** [Compare] on trees: deep copies of trees are the trees themselves. The
    error result is always [nil]. *)
Definition Compare (desired observed : gmap string value)
  : list Difference * option string :=
  let desiredCopy := cleanMetadata desired in
  let observedCopy := cleanMetadata observed in
  (walkCompare (VMap desiredCopy) (VMap observedCopy) "", None).

(** A tree holds a [float64] NaN somewhere. *)
Fixpoint has_nan (v : value) : bool :=
  match v with
  | VFloat64 f => negb (PrimFloat.eqb f f)
  | VMap m => map_fold (fun _ x acc => has_nan x || acc) false m
  | VSlice l => existsb has_nan l
  | _ => false
  end.

(** *** The same code over a store

    Go maps and slices are references. The store holds one cell per allocated
    map or slice; an [interface{}] value is a scalar or the location of a cell.
    Allocation appends a cell, so the locations of a store are
    [0 .. length σ - 1]. *)

Abbreviation loc := nat (only parsing).

Inductive ival : Type :=
  | INil
  | IBool (b : bool)
  | IInt64 (z : Z)
  | IFloat64 (f : float)
  | IString (s : string)
  | INumber (s : string)
  | IMap (l : loc)
  | ISlice (l : loc).

Inductive cell : Type :=
  | CMap (m : gmap string ival)
  | CSlice (l : list ival).

Abbreviation store := (list cell) (only parsing).

(** All entries of a map of optional results, when every one is present. *)
Definition map_sequence {A} (m : gmap string (option A)) : option (gmap string A) :=
  if decide (map_Forall (fun _ o => is_Some o) m) then Some (omap id m) else None.

(** The tree an interface value denotes in a store. The fuel bounds the
    nesting depth; a cyclic or dangling value denotes no tree. *)
Fixpoint reify (fuel : nat) (σ : store) (x : ival) : option value :=
  match x with
  | INil => Some VNil
  | IBool b => Some (VBool b)
  | IInt64 z => Some (VInt64 z)
  | IFloat64 f => Some (VFloat64 f)
  | IString s => Some (VString s)
  | INumber s => Some (VNumber s)
  | IMap l =>
      match fuel with
      | O => None
      | S n =>
          match σ !! l with
          | Some (CMap m) => VMap <$> map_sequence (reify n σ <$> m)
          | _ => None
          end
      end
  | ISlice l =>
      match fuel with
      | O => None
      | S n =>
          match σ !! l with
          | Some (CSlice xs) => VSlice <$> mapM (reify n σ) xs
          | _ => None
          end
      end
  end.

(** The loop [for k, v := range x { clone[k] = DeepCopyJSONValue(v) }]. *)
Definition copyEntries (copy : ival -> store -> option (ival * store))
    (m : gmap string ival) (σ : store) : option (gmap string ival * store) :=
  map_fold (fun k v acc =>
              '(clone, σ1) ← acc;
              '(v', σ2) ← copy v σ1;
              Some (<[k := v']> clone, σ2))
           (Some (∅, σ)) m.

(** The loop [for i, v := range x { clone[i] = DeepCopyJSONValue(v) }]. *)
Fixpoint copyElems (copy : ival -> store -> option (ival * store))
    (xs : list ival) (σ : store) : option (list ival * store) :=
  match xs with
  | [] => Some ([], σ)
  | v :: xs' =>
      '(v', σ1) ← copy v σ;
      '(clone, σ2) ← copyElems copy xs' σ1;
      Some (v' :: clone, σ2)
  end.

(** [runtime.DeepCopyJSONValue] of apimachinery, which [Unstructured.DeepCopy]
    applies to [Object]: scalars are returned as they are, a map or a slice is
    rebuilt in a new cell from the copies of its members. The new cell is
    entered into the store once it is filled. *)
Fixpoint DeepCopyJSONValue (fuel : nat) (x : ival) (σ : store)
  : option (ival * store) :=
  match x with
  | IMap l =>
      match fuel with
      | O => None
      | S n =>
          match σ !! l with
          | Some (CMap m) =>
              '(clone, σ1) ← copyEntries (DeepCopyJSONValue n) m σ;
              Some (IMap (length σ1), σ1 ++ [CMap clone])
          | _ => None
          end
      end
  | ISlice l =>
      match fuel with
      | O => None
      | S n =>
          match σ !! l with
          | Some (CSlice xs) =>
              '(clone, σ1) ← copyElems (DeepCopyJSONValue n) xs σ;
              Some (ISlice (length σ1), σ1 ++ [CSlice clone])
          | _ => None
          end
      end
  | _ => Some (x, σ)
  end.

Definition dropIfEmptyMapS (σ : store) (field : string)
    (metadata : gmap string ival) : gmap string ival :=
  match metadata !! field with
  | Some (IMap a) =>
      match σ !! a with
      | Some (CMap am) =>
          if decide (size am = 0) then delete field metadata else metadata
      | _ => metadata
      end
  | _ => metadata
  end.

Definition cleanMetadataMapS (σ : store) (metadata : gmap string ival)
  : gmap string ival :=
  let metadata := dropIfEmptyMapS σ "annotations" metadata in
  let metadata := dropIfEmptyMapS σ "labels" metadata in
  foldl (fun m field => delete field m) metadata fieldsToRemove.

(** [cleanMetadata] as the Go code runs it: [obj] is the location of
    [obj.Object]; the deletions happen in the cell of the [metadata] map. *)
Definition cleanMetadataS (obj : loc) (σ : store) : store :=
  match σ !! obj with
  | Some (CMap o) =>
      match o !! "metadata" with
      | Some (IMap ml) =>
          match σ !! ml with
          | Some (CMap metadata) =>
              <[ml := CMap (cleanMetadataMapS σ metadata)]> σ
          | _ => σ
          end
      | _ => σ
      end
  | _ => σ
  end.

(** [Compare] over the store. [desired] and [observed] are the locations of
    the two [Object] maps. The walk only reads, so it runs on the trees the
    two copies denote once their metadata is cleaned. [None] stands for a
    call that does not return (a cyclic object). *)
Definition CompareS (fuel : nat) (desired observed : loc) (σ : store)
  : option (list Difference * store) :=
  '(desiredCopy, σ1) ← DeepCopyJSONValue fuel (IMap desired) σ;
  '(observedCopy, σ2) ← DeepCopyJSONValue fuel (IMap observed) σ1;
  match desiredCopy, observedCopy with
  | IMap dl, IMap ol =>
      let σ3 := cleanMetadataS dl σ2 in
      let σ4 := cleanMetadataS ol σ3 in
      d ← reify fuel σ4 desiredCopy;
      o ← reify fuel σ4 observedCopy;
      Some (walkCompare d o "", σ4)
  | _, _ => None
  end.

(** *** Notions for the statements about [Compare] *)

(** The metadata fields that the API server manages. *)
Definition serverManagedFields : list string :=
  [ "creationTimestamp"; "uid"; "resourceVersion"; "managedFields";
    "selfLink"; "generation"; "ownerReferences"; "finalizers" ].

Definition configMapObject : gmap string value :=
  list_to_map
    [("apiVersion", VString "v1"); ("kind", VString "ConfigMap");
     ("metadata", VMap (list_to_map [("name", VString "m-a");
                                     ("uid", VString "7f1c");
                                     ("labels", VMap ∅)]));
     ("data", VMap (list_to_map [("key", VString "a")]))].

Definition nanObject : gmap string value :=
  {[ "x" := VFloat64 PrimFloat.nan ]}.

(** Every cell of [σ] is a cell of [σ'], at the same location. *)
Definition preserved (σ σ' : store) : Prop :=
  forall l c, σ !! l = Some c -> σ' !! l = Some c.

(** A value that does not refer below [base]. *)
Definition val_above (base : nat) (x : ival) : Prop :=
  match x with
  | IMap l | ISlice l => base <= l
  | _ => True
  end.

Definition cell_above (base : nat) (c : cell) : Prop :=
  match c with
  | CMap m => map_Forall (fun _ x => val_above base x) m
  | CSlice xs => Forall (val_above base) xs
  end.

(** The cells from [base] on refer to cells from [base] on only. *)
Definition closed_above (base : nat) (σ : store) : Prop :=
  forall l c, base <= l -> σ !! l = Some c -> cell_above base c.

(** What a copying step guarantees: the store grows at its end, the copy does
    not refer to the cells that were there, and the new cells refer to one
    another only. *)
Definition copies {R} (above : nat -> R -> Prop) (σ : store)
    (r : option (R * store)) : Prop :=
  forall x' σ', r = Some (x', σ') ->
    preserved σ σ'
    /\ forall base, base <= length σ ->
         above base x' /\ (closed_above base σ -> closed_above base σ').

(** Two stores hold the same cells between two locations. *)
Definition agree (lo hi : nat) (σ σ' : store) : Prop :=
  forall l, lo <= l < hi -> σ' !! l = σ !! l.

(** The tree of a value is decided by the cells between two locations. *)
Definition confined (lo hi : nat) (σ : store) (x : ival) : Prop :=
  forall n σ', agree lo hi σ σ' -> reify n σ' x = reify n σ x.

(** The members of a copied map lie apart: each is confined to a range of
    its own below the map, in which no other member that is a map is rooted;
    and a member that is a map is rooted in its range, above its own
    members. *)
Definition separated (lo hi : nat) (σ : store) (clone : gmap string ival)
  : Prop :=
  forall k v, clone !! k = Some v ->
    exists s e,
      lo <= s /\ e <= hi /\ confined s e σ v
      /\ (forall k' l', k' ≠ k -> clone !! k' = Some (IMap l') ->
            ~ (s <= l' < e))
      /\ (forall l, v = IMap l ->
            s <= l < e
            /\ exists m, σ !! l = Some (CMap m)
                         /\ forall k2 v2, m !! k2 = Some v2 -> confined s l σ v2).

(** What a deep copy returns. *)
Definition copied (lo : nat) (σ : store) (x : ival) : Prop :=
  confined lo (length σ) σ x
  /\ forall l, x = IMap l ->
       lo <= l /\ S l = length σ
       /\ exists clone, σ !! l = Some (CMap clone) /\ separated lo l σ clone.

(** A store with one object at location 1, whose metadata map is the cell at
    location 0. *)
Definition sampleStore : store :=
  [ CMap (list_to_map [("name", IString "m-a"); ("uid", IString "7f1c")]);
    CMap (list_to_map [("kind", IString "ConfigMap"); ("metadata", IMap 0)]) ].

(** *** Notions for the further statements about [Compare] *)

(** A value that is neither a map nor a slice. *)
Definition scalar (v : value) : Prop :=
  match v with
  | VMap _ | VSlice _ => False
  | _ => True
  end.

(** The metadata field that [cleanMetadataMap] leaves under a name. *)
Definition keptField (metadata : gmap string value) (f : string)
  : option value :=
  if decide (f ∈ fieldsToRemove) then None
  else
    match metadata !! f with
    | Some (VMap a) =>
        if decide ((f = "annotations" \/ f = "labels") /\ a = ∅) then None
        else Some (VMap a)
    | o => o
    end.

(** [observed] holds everything [desired] asks for: equal scalars, maps
    that hold the fields of the desired map (a desired [nil] may be absent),
    slices of the same length that hold the desired elements in order. *)
Inductive covers : value -> value -> Prop :=
  | covers_scalar v w : scalar v -> iface_eqb v w = true -> covers v w
  | covers_map (d e : gmap string value) :
      (forall k v w, d !! k = Some v -> e !! k = Some w -> covers v w) ->
      (forall k v, d !! k = Some v -> e !! k = None -> v = VNil) ->
      covers (VMap d) (VMap e)
  | covers_slice ds es : Forall2 covers ds es -> covers (VSlice ds) (VSlice es).

End Delta.

(** ** Results of fallible functions

    A Go function returning [(T, error)] returns [Ok t] or [Err e]. *)

Inductive result (E A : Type) : Type :=
  | Ok (a : A)
  | Err (e : E).
Arguments Ok {E A} a.
Arguments Err {E A} e.

#[global] Instance result_ret {E} : MRet (result E) := fun A a => Ok a.
#[global] Instance result_bind {E} : MBind (result E) :=
  fun A B f m => match m with Ok a => f a | Err e => Err e end.

Definition is_ok {E A} (r : result E A) : bool :=
  match r with Ok _ => true | Err _ => false end.

Definition okValue {E A} (r : result E A) : option A :=
  match r with Ok a => Some a | Err _ => None end.

(** Replace the error of a failed call, as [fmt.Errorf("...: %w", err)]. *)
Definition wrapErr {E E' A} (f : E -> E') (r : result E A) : result E' A :=
  match r with Ok a => Ok a | Err e => Err (f e) end.

Fixpoint mapResult {E A B} (f : A -> result E B) (l : list A)
  : result E (list B) :=
  match l with
  | [] => Ok []
  | x :: l' => y ← f x; ys ← mapResult f l'; Ok (y :: ys)
  end.

Module Dag.

(** Modelled from the spec: the DAG library ([pkg/graph/dag]), used by
    [loadCustomTypes] and absent from the sources at hand. The spec gives it a
    comparable vertex type and the operations add-vertex(v, priority),
    add-edge(from -> to), cycle detection and a topological sort with the
    priority as secondary ordering key, ties broken by id. The vertex list a
    cycle error carries is not modelled. [loadCustomTypes] passes on errors of
    [AddVertex] and errors of [AddDependencies] that are no cycle errors; the
    model raises them for a vertex added twice and for an edge with an
    endpoint that is no vertex. *)

Record Vertex : Type := mkVertex {
  ID : string;
  Order : Z;
  DependsOn : list string;
}.

Abbreviation DirectedAcyclicGraph := (gmap string Vertex).

Inductive DagError : Type :=
  | CycleError
  | ErrVertexExists (id : string)
  | ErrVertexNotFound (id : string).

Definition NewDirectedAcyclicGraph : DirectedAcyclicGraph := ∅.

Definition AddVertex (g : DirectedAcyclicGraph) (id : string) (order : Z)
  : result DagError DirectedAcyclicGraph :=
  match g !! id with
  | Some _ => Err (ErrVertexExists id)
  | None => Ok (<[id := mkVertex id order []]> g)
  end.

Definition vertices (g : DirectedAcyclicGraph) : list Vertex :=
  (map_to_list g).*2.

Definition isRemaining (remaining : list Vertex) (id : string) : bool :=
  existsb (fun w => String.eqb (ID w) id) remaining.

(** A vertex can be emitted once none of its dependencies is still waiting. *)
Definition ready (remaining : list Vertex) (v : Vertex) : bool :=
  forallb (fun d => negb (isRemaining remaining d)) (DependsOn v).

(** Priority first, id second. *)
Definition precedes (v w : Vertex) : bool :=
  (Order v <? Order w)%Z || ((Order v =? Order w)%Z && String.ltb (ID v) (ID w)).

(** The ready vertex that precedes every other ready vertex. *)
Definition pick (remaining : list Vertex) : option Vertex :=
  foldr (fun v best =>
           if ready remaining v then
             match best with
             | Some w => if precedes w v then Some w else Some v
             | None => Some v
             end
           else best)
        None remaining.

Definition dropVertex (id : string) (remaining : list Vertex) : list Vertex :=
  filter (fun w => ID w ≠ id) remaining.

Fixpoint sortLoop (fuel : nat) (remaining : list Vertex) (sorted : list string)
  : result DagError (list string) :=
  match remaining with
  | [] => Ok sorted
  | _ :: _ =>
      match fuel with
      | O => Err CycleError
      | S n =>
          match pick remaining with
          | None => Err CycleError
          | Some v => sortLoop n (dropVertex (ID v) remaining) (sorted ++ [ID v])
          end
      end
  end.

Definition TopologicalSort (g : DirectedAcyclicGraph)
  : result DagError (list string) :=
  sortLoop (length (vertices g)) (vertices g) [].

Definition hasCycle (g : DirectedAcyclicGraph) : bool :=
  negb (is_ok (TopologicalSort g)).

Definition AddDependencies (g : DirectedAcyclicGraph) (from : string)
    (dependencies : list string) : result DagError DirectedAcyclicGraph :=
  match g !! from with
  | None => Err (ErrVertexNotFound from)
  | Some v =>
      match find (fun d => bool_decide (g !! d = None)) dependencies with
      | Some d => Err (ErrVertexNotFound d)
      | None =>
          let g' := <[from := mkVertex (ID v) (Order v)
                                (DependsOn v ++ dependencies)]> g in
          if hasCycle g' then Err CycleError else Ok g'
      end
  end.

(** *** Notions for the statements about the sort *)

Definition ids (vs : list Vertex) : list string := ID <$> vs.

(** The choice among the ready vertices of a list, as [pick] computes it. *)
Definition pickAmong (all rem : list Vertex) : option Vertex :=
  foldr (fun v best =>
           if ready all v then
             match best with
             | Some w => if precedes w v then Some w else Some v
             | None => Some v
             end
           else best)
        None rem.

(** The edges among the vertices that are still waiting. *)
Definition waitsFor (rem : list Vertex) (a b : string) : Prop :=
  exists v, v ∈ rem /\ ID v = a /\ b ∈ DependsOn v /\ b ∈ ids rem.

(** Every vertex is stored under its own id. *)
Definition wellKeyed (g : DirectedAcyclicGraph) : Prop :=
  forall k v, g !! k = Some v -> ID v = k.

Definition dependenciesOf (g : DirectedAcyclicGraph) (a : string)
  : list string :=
  match g !! a with
  | Some v => DependsOn v
  | None => []
  end.

(** An edge of the graph: from a vertex to a vertex it depends on. *)
Definition edge (g : DirectedAcyclicGraph) (a b : string) : Prop :=
  is_Some (g !! a) /\ is_Some (g !! b) /\ b ∈ dependenciesOf g a.

Section Orders.

(** The dependencies of every vertex and the ids of all vertices. *)
Variable D : string -> list string.
Variable V : list string.

(** Every id emitted so far comes after the vertices it depends on. *)
Definition dependenciesFirst (sorted : list string) : Prop :=
  forall i a d, sorted !! i = Some a -> d ∈ D a -> d ∈ V ->
                exists j, j < i /\ sorted !! j = Some d.

(** An edge: a vertex and one of its dependencies, both in the graph. *)
Definition dependsOn (a b : string) : Prop := a ∈ V /\ b ∈ V /\ b ∈ D a.

End Orders.

End Dag.

Module SimpleSchema.

(** [MarkerType] and its fourteen constants. *)
Inductive MarkerType : Type :=
  | MarkerTypeRequired
  | MarkerTypeDefault
  | MarkerTypeDescription
  | MarkerTypeMinimum
  | MarkerTypeMaximum
  | MarkerTypeValidation
  | MarkerTypeEnum
  | MarkerTypeImmutable
  | MarkerTypePattern
  | MarkerTypeUniqueItems
  | MarkerTypeMinLength
  | MarkerTypeMaxLength
  | MarkerTypeMinItems
  | MarkerTypeMaxItems.

Definition markerTypeName (m : MarkerType) : string :=
  match m with
  | MarkerTypeRequired => "required"
  | MarkerTypeDefault => "default"
  | MarkerTypeDescription => "description"
  | MarkerTypeMinimum => "minimum"
  | MarkerTypeMaximum => "maximum"
  | MarkerTypeValidation => "validation"
  | MarkerTypeEnum => "enum"
  | MarkerTypeImmutable => "immutable"
  | MarkerTypePattern => "pattern"
  | MarkerTypeUniqueItems => "uniqueItems"
  | MarkerTypeMinLength => "minLength"
  | MarkerTypeMaxLength => "maxLength"
  | MarkerTypeMinItems => "minItems"
  | MarkerTypeMaxItems => "maxItems"
  end.

Definition allMarkerTypes : list MarkerType :=
  [ MarkerTypeRequired; MarkerTypeDefault; MarkerTypeDescription;
    MarkerTypeMinimum; MarkerTypeMaximum; MarkerTypeValidation;
    MarkerTypeEnum; MarkerTypeImmutable; MarkerTypePattern;
    MarkerTypeUniqueItems; MarkerTypeMinLength; MarkerTypeMaxLength;
    MarkerTypeMinItems; MarkerTypeMaxItems ].

Definition markerTypeFromString (s : string) : option MarkerType :=
  find (fun m => String.eqb (markerTypeName m) s) allMarkerTypes.

Record Marker : Type := mkMarker {
  MarkerType_ : MarkerType;
  Key : string;
  Value : string;
}.

Record ValidationRule : Type := mkRule {
  Rule : string;
  Message : string;
}.

(** The fields of [extv1.JSONSchemaProps] that the package reads or writes.
    [Default] and [Enum] hold raw JSON text. *)
Inductive JSONSchemaProps : Type := mkSchema {
  Type_ : string;
  Description : string;
  Properties : gmap string JSONSchemaProps;
  Items : option JSONSchemaProps;
  AdditionalProperties : option JSONSchemaProps;
  Required : list string;
  Default : option string;
  Minimum : option float;
  Maximum : option float;
  MinLength : option Z;
  MaxLength : option Z;
  MinItems : option Z;
  MaxItems : option Z;
  Pattern : string;
  Enum : list string;
  XValidations : list ValidationRule;
  XListType : option string;
}.

Definition setProperties (x : gmap string JSONSchemaProps) (s : JSONSchemaProps) : JSONSchemaProps :=
  mkSchema (s.(Type_)) (s.(Description)) x (s.(Items))
    (s.(AdditionalProperties)) (s.(Required)) (s.(Default)) (s.(Minimum))
    (s.(Maximum)) (s.(MinLength)) (s.(MaxLength)) (s.(MinItems))
    (s.(MaxItems)) (s.(Pattern)) (s.(Enum)) (s.(XValidations))
    (s.(XListType)).

Definition setRequired (x : list string) (s : JSONSchemaProps) : JSONSchemaProps :=
  mkSchema (s.(Type_)) (s.(Description)) (s.(Properties)) (s.(Items))
    (s.(AdditionalProperties)) x (s.(Default)) (s.(Minimum)) (s.(Maximum))
    (s.(MinLength)) (s.(MaxLength)) (s.(MinItems)) (s.(MaxItems))
    (s.(Pattern)) (s.(Enum)) (s.(XValidations)) (s.(XListType)).

Definition setDefault (x : option string) (s : JSONSchemaProps) : JSONSchemaProps :=
  mkSchema (s.(Type_)) (s.(Description)) (s.(Properties)) (s.(Items))
    (s.(AdditionalProperties)) (s.(Required)) x (s.(Minimum)) (s.(Maximum))
    (s.(MinLength)) (s.(MaxLength)) (s.(MinItems)) (s.(MaxItems))
    (s.(Pattern)) (s.(Enum)) (s.(XValidations)) (s.(XListType)).

Definition setDescription (x : string) (s : JSONSchemaProps) : JSONSchemaProps :=
  mkSchema (s.(Type_)) x (s.(Properties)) (s.(Items))
    (s.(AdditionalProperties)) (s.(Required)) (s.(Default)) (s.(Minimum))
    (s.(Maximum)) (s.(MinLength)) (s.(MaxLength)) (s.(MinItems))
    (s.(MaxItems)) (s.(Pattern)) (s.(Enum)) (s.(XValidations))
    (s.(XListType)).

Definition setMinimum (x : option float) (s : JSONSchemaProps) : JSONSchemaProps :=
  mkSchema (s.(Type_)) (s.(Description)) (s.(Properties)) (s.(Items))
    (s.(AdditionalProperties)) (s.(Required)) (s.(Default)) x (s.(Maximum))
    (s.(MinLength)) (s.(MaxLength)) (s.(MinItems)) (s.(MaxItems))
    (s.(Pattern)) (s.(Enum)) (s.(XValidations)) (s.(XListType)).

Definition setMaximum (x : option float) (s : JSONSchemaProps) : JSONSchemaProps :=
  mkSchema (s.(Type_)) (s.(Description)) (s.(Properties)) (s.(Items))
    (s.(AdditionalProperties)) (s.(Required)) (s.(Default)) (s.(Minimum)) x
    (s.(MinLength)) (s.(MaxLength)) (s.(MinItems)) (s.(MaxItems))
    (s.(Pattern)) (s.(Enum)) (s.(XValidations)) (s.(XListType)).

Definition setMinLength (x : option Z) (s : JSONSchemaProps) : JSONSchemaProps :=
  mkSchema (s.(Type_)) (s.(Description)) (s.(Properties)) (s.(Items))
    (s.(AdditionalProperties)) (s.(Required)) (s.(Default)) (s.(Minimum))
    (s.(Maximum)) x (s.(MaxLength)) (s.(MinItems)) (s.(MaxItems))
    (s.(Pattern)) (s.(Enum)) (s.(XValidations)) (s.(XListType)).

Definition setMaxLength (x : option Z) (s : JSONSchemaProps) : JSONSchemaProps :=
  mkSchema (s.(Type_)) (s.(Description)) (s.(Properties)) (s.(Items))
    (s.(AdditionalProperties)) (s.(Required)) (s.(Default)) (s.(Minimum))
    (s.(Maximum)) (s.(MinLength)) x (s.(MinItems)) (s.(MaxItems))
    (s.(Pattern)) (s.(Enum)) (s.(XValidations)) (s.(XListType)).

Definition setMinItems (x : option Z) (s : JSONSchemaProps) : JSONSchemaProps :=
  mkSchema (s.(Type_)) (s.(Description)) (s.(Properties)) (s.(Items))
    (s.(AdditionalProperties)) (s.(Required)) (s.(Default)) (s.(Minimum))
    (s.(Maximum)) (s.(MinLength)) (s.(MaxLength)) x (s.(MaxItems))
    (s.(Pattern)) (s.(Enum)) (s.(XValidations)) (s.(XListType)).

Definition setMaxItems (x : option Z) (s : JSONSchemaProps) : JSONSchemaProps :=
  mkSchema (s.(Type_)) (s.(Description)) (s.(Properties)) (s.(Items))
    (s.(AdditionalProperties)) (s.(Required)) (s.(Default)) (s.(Minimum))
    (s.(Maximum)) (s.(MinLength)) (s.(MaxLength)) (s.(MinItems)) x
    (s.(Pattern)) (s.(Enum)) (s.(XValidations)) (s.(XListType)).

Definition setPattern (x : string) (s : JSONSchemaProps) : JSONSchemaProps :=
  mkSchema (s.(Type_)) (s.(Description)) (s.(Properties)) (s.(Items))
    (s.(AdditionalProperties)) (s.(Required)) (s.(Default)) (s.(Minimum))
    (s.(Maximum)) (s.(MinLength)) (s.(MaxLength)) (s.(MinItems))
    (s.(MaxItems)) x (s.(Enum)) (s.(XValidations)) (s.(XListType)).

Definition setEnum (x : list string) (s : JSONSchemaProps) : JSONSchemaProps :=
  mkSchema (s.(Type_)) (s.(Description)) (s.(Properties)) (s.(Items))
    (s.(AdditionalProperties)) (s.(Required)) (s.(Default)) (s.(Minimum))
    (s.(Maximum)) (s.(MinLength)) (s.(MaxLength)) (s.(MinItems))
    (s.(MaxItems)) (s.(Pattern)) x (s.(XValidations)) (s.(XListType)).

Definition setXValidations (x : list ValidationRule) (s : JSONSchemaProps) : JSONSchemaProps :=
  mkSchema (s.(Type_)) (s.(Description)) (s.(Properties)) (s.(Items))
    (s.(AdditionalProperties)) (s.(Required)) (s.(Default)) (s.(Minimum))
    (s.(Maximum)) (s.(MinLength)) (s.(MaxLength)) (s.(MinItems))
    (s.(MaxItems)) (s.(Pattern)) (s.(Enum)) x (s.(XListType)).

Definition setXListType (x : option string) (s : JSONSchemaProps) : JSONSchemaProps :=
  mkSchema (s.(Type_)) (s.(Description)) (s.(Properties)) (s.(Items))
    (s.(AdditionalProperties)) (s.(Required)) (s.(Default)) (s.(Minimum))
    (s.(Maximum)) (s.(MinLength)) (s.(MaxLength)) (s.(MinItems))
    (s.(MaxItems)) (s.(Pattern)) (s.(Enum)) (s.(XValidations)) x.

Definition emptySchema : JSONSchemaProps :=
  mkSchema "" "" ∅ None None [] None None None None None None None "" [] []
           None.

Inductive error : Type :=
  | ErrParseRequired
  | ErrParseMinimum
  | ErrParseMaximum
  | ErrValidationEmpty
  | ErrParseImmutable
  | ErrEnumEmptyValue
  | ErrEnumParseInt
  | ErrEnumType (type : string)
  | ErrMinLengthType (type : string)
  | ErrParseMinLength
  | ErrMaxLengthType (type : string)
  | ErrParseMaxLength
  | ErrPatternEmpty
  | ErrPatternType (type : string)
  | ErrPatternRegex
  | ErrParseUniqueItems
  | ErrUniqueItemsType (type : string)
  | ErrMinItemsType (type : string)
  | ErrParseMinItems
  | ErrMaxItemsType (type : string)
  | ErrParseMaxItems
  | ErrUnknownType (name : string)
  | ErrUnexpectedType
  | ErrField (name : string) (e : error)
  | ErrParsingType (name : string) (e : error)
  | ErrDag (e : Dag.DagError)
  | ErrCyclicDependency (name : string) (e : Dag.DagError)
  | ErrResolvingTypeOrder (e : Dag.DagError)
  | ErrBuildingSchema (name : string) (e : error)
  | ErrApplyingMarkers (name : string) (e : error)
  | ErrTypes (msg : string).

(** The compact schema as it is decoded: a string, a nested map, or a value
    of another dynamic type. *)
Inductive fieldSpec : Type :=
  | FString (s : string)
  | FMap (m : gmap string fieldSpec)
  | FOther.

(** *** Go's standard library *)

Definition dquote : string := String (ascii_of_nat 34) EmptyString.

(** [strconv.ParseBool]. *)
Definition ParseBool (s : string) : option bool :=
  if bool_decide (s ∈ ["1"; "t"; "T"; "TRUE"; "true"; "True"]) then Some true
  else if bool_decide (s ∈ ["0"; "f"; "F"; "FALSE"; "false"; "False"])
  then Some false
  else None.

Definition digitOf (c : ascii) : option Z :=
  let n := Z.of_nat (nat_of_ascii c) in
  if ((48 <=? n) && (n <=? 57))%Z then Some (n - 48)%Z else None.

Fixpoint parseDigits (s : string) (acc : Z) : option Z :=
  match s with
  | EmptyString => Some acc
  | String c s' =>
      match digitOf c with
      | Some d => parseDigits s' (10 * acc + d)%Z
      | None => None
      end
  end.

(** [strconv.ParseInt(s, 10, 64)]: an optional sign, at least one decimal
    digit, and a value that fits 64 bits. *)
Definition ParseInt (s : string) : option Z :=
  match s with
  | EmptyString => None
  | String c rest =>
      let '(neg, digits) :=
        if Ascii.eqb c "+" then (false, rest)
        else if Ascii.eqb c "-" then (true, rest)
        else (false, s) in
      match digits with
      | EmptyString => None
      | _ =>
          match parseDigits digits 0 with
          | Some n =>
              let v := (if neg then - n else n)%Z in
              if ((- 2 ^ 63 <=? v) && (v <? 2 ^ 63))%Z then Some v else None
          | None => None
          end
      end
  end.

(** [strings.Split(s, ",")]. *)
Fixpoint splitComma (s : string) : list string :=
  match s with
  | EmptyString => [EmptyString]
  | String c s' =>
      if Ascii.eqb c "," then EmptyString :: splitComma s'
      else
        match splitComma s' with
        | h :: t => String c h :: t
        | [] => [String c EmptyString]
        end
  end.

(** What the package takes from Go's library and is not spelled out here:
    [strconv.ParseFloat(s, 64)], whether [regexp.Compile] accepts a pattern,
    [strings.TrimSpace], and the quoting of [fmt.Sprintf("%q", s)]. *)
Class GoStd : Type := {
  ParseFloat : string -> option float;
  regexpCompiles : string -> bool;
  TrimSpace : string -> string;
  Quote : string -> string;
}.

(** What the package takes from [pkg/simpleschema/types] and from the parser
    of field strings, both absent from the sources at hand: the parsed type
    of a field, its dependencies on custom types, its schema under a resolver
    of custom type names, and whether it is a [types.Custom]. *)
Class TypesPkg : Type := {
  Ty : Type;
  ParseField : string -> result error (Ty * list Marker);
  parseSpec : fieldSpec -> result error (Ty * list Marker);
  Deps : Ty -> list string;
  Schema : Ty -> (string -> result error JSONSchemaProps)
           -> result error JSONSchemaProps;
  asCustom : Ty -> option string;
}.

Section WithLibraries.
Context `{GoStd} `{TypesPkg}.

(** One value of an [enum] marker. *)
Definition enumValue (type : string) (val : string) : result error string :=
  let val := TrimSpace val in
  if String.eqb val "" then Err ErrEnumEmptyValue
  else if String.eqb type "string" then Ok (Quote val)
  else if String.eqb type "integer" then
    match ParseInt val with
    | None => Err ErrEnumParseInt
    | Some _ => Ok val
    end
  else Err (ErrEnumType type).

(** The body of the loop of [applyMarkers]: the effect of one marker on the
    schema and on the parent schema. *)
Definition applyMarker (schema : JSONSchemaProps) (marker : Marker)
    (key : string) (parentSchema : JSONSchemaProps)
  : result error (JSONSchemaProps * JSONSchemaProps) :=
  match marker.(MarkerType_) with
  | MarkerTypeRequired =>
      match ParseBool marker.(Value) with
      | None => Err ErrParseRequired
      | Some isRequired =>
          if isRequired
          then Ok (schema,
                   setRequired (parentSchema.(Required) ++ [key]) parentSchema)
          else Ok (schema, parentSchema)
      end
  | MarkerTypeDefault =>
      let defaultValue :=
        if String.eqb schema.(Type_) "string"
        then dquote +:+ marker.(Value) +:+ dquote
        else marker.(Value) in
      Ok (setDefault (Some defaultValue) schema, parentSchema)
  | MarkerTypeDescription =>
      Ok (setDescription marker.(Value) schema, parentSchema)
  | MarkerTypeMinimum =>
      match ParseFloat marker.(Value) with
      | None => Err ErrParseMinimum
      | Some val => Ok (setMinimum (Some val) schema, parentSchema)
      end
  | MarkerTypeMaximum =>
      match ParseFloat marker.(Value) with
      | None => Err ErrParseMaximum
      | Some val => Ok (setMaximum (Some val) schema, parentSchema)
      end
  | MarkerTypeValidation =>
      if String.eqb (TrimSpace marker.(Value)) "" then Err ErrValidationEmpty
      else Ok (setXValidations [mkRule marker.(Value) "validation failed"]
                               schema, parentSchema)
  | MarkerTypeImmutable =>
      match ParseBool marker.(Value) with
      | None => Err ErrParseImmutable
      | Some isImmutable =>
          if isImmutable
          then Ok (setXValidations
                     (schema.(XValidations)
                      ++ [mkRule "self == oldSelf" "field is immutable"])
                     schema, parentSchema)
          else Ok (schema, parentSchema)
      end
  | MarkerTypeEnum =>
      enumJSONValues ← mapResult (enumValue schema.(Type_))
                                 (splitComma marker.(Value));
      if (0 <? length enumJSONValues)%nat
      then Ok (setEnum enumJSONValues schema, parentSchema)
      else Ok (schema, parentSchema)
  | MarkerTypeMinLength =>
      if negb (String.eqb schema.(Type_) "string")
      then Err (ErrMinLengthType schema.(Type_))
      else
        match ParseInt marker.(Value) with
        | None => Err ErrParseMinLength
        | Some val => Ok (setMinLength (Some val) schema, parentSchema)
        end
  | MarkerTypeMaxLength =>
      if negb (String.eqb schema.(Type_) "string")
      then Err (ErrMaxLengthType schema.(Type_))
      else
        match ParseInt marker.(Value) with
        | None => Err ErrParseMaxLength
        | Some val => Ok (setMaxLength (Some val) schema, parentSchema)
        end
  | MarkerTypePattern =>
      if String.eqb marker.(Value) "" then Err ErrPatternEmpty
      else if negb (String.eqb schema.(Type_) "string")
      then Err (ErrPatternType schema.(Type_))
      else if negb (regexpCompiles marker.(Value)) then Err ErrPatternRegex
      else Ok (setPattern marker.(Value) schema, parentSchema)
  | MarkerTypeUniqueItems =>
      match ParseBool marker.(Value) with
      | None => Err ErrParseUniqueItems
      | Some isUnique =>
          if negb (String.eqb schema.(Type_) "array")
          then Err (ErrUniqueItemsType schema.(Type_))
          else if isUnique
          then Ok (setXListType (Some "set") schema, parentSchema)
          else Ok (schema, parentSchema)
      end
  | MarkerTypeMinItems =>
      if negb (String.eqb schema.(Type_) "array")
      then Err (ErrMinItemsType schema.(Type_))
      else
        match ParseInt marker.(Value) with
        | None => Err ErrParseMinItems
        | Some val => Ok (setMinItems (Some val) schema, parentSchema)
        end
  | MarkerTypeMaxItems =>
      if negb (String.eqb schema.(Type_) "array")
      then Err (ErrMaxItemsType schema.(Type_))
      else
        match ParseInt marker.(Value) with
        | None => Err ErrParseMaxItems
        | Some val => Ok (setMaxItems (Some val) schema, parentSchema)
        end
  end.

(** [applyMarkers] applies markers to a schema. The Go function writes
    through the two pointers; here the two schemas are passed along and
    returned. *)
Fixpoint applyMarkers (schema : JSONSchemaProps) (markers : list Marker)
    (key : string) (parentSchema : JSONSchemaProps)
  : result error (JSONSchemaProps * JSONSchemaProps) :=
  match markers with
  | [] => Ok (schema, parentSchema)
  | marker :: rest =>
      '(schema', parentSchema') ← applyMarker schema marker key parentSchema;
      applyMarkers schema' rest key parentSchema'
  end.

(** [customType] stores the schema and required state for a custom type. *)
Record customType : Type := mkCustomType {
  ctSchema : JSONSchemaProps;
  ctRequired : bool;
}.

Record transformer : Type := mkTransformer {
  customTypes : gmap string customType;
}.

(** [Resolve] implements [types.Resolver]. *)
Definition Resolve (t : transformer) (name : string)
  : result error JSONSchemaProps :=
  match t.(customTypes) !! name with
  | None => Err (ErrUnknownType name)
  | Some ct => Ok ct.(ctSchema)
  end.

(** [IsRequired] returns whether a custom type has the marker
    [required=true]. *)
Definition IsRequired (t : transformer) (name : string) : bool :=
  match t.(customTypes) !! name with
  | None => false
  | Some ct => ct.(ctRequired)
  end.

(** [loadCustomTypes], first loop: parse all types with their markers. *)
Definition parseCustomTypes (specs : gmap string fieldSpec)
  : result error (gmap string Ty * gmap string (list Marker)) :=
  map_fold (fun name spec acc =>
              '(parsed, markers) ← acc;
              '(typ, m) ← wrapErr (ErrParsingType name) (parseSpec spec);
              Ok (<[name := typ]> parsed, <[name := m]> markers))
           (Ok (∅, ∅)) specs.

(** Second and third loop: one vertex per type name, then the dependencies
    of each. A cycle error is wrapped, any other error is passed on. *)
Definition addTypeVertices (parsed : gmap string Ty)
  : result error Dag.DirectedAcyclicGraph :=
  map_fold (fun name _ acc =>
              graph ← acc;
              wrapErr ErrDag (Dag.AddVertex graph name 0))
           (Ok Dag.NewDirectedAcyclicGraph) parsed.

Definition wrapDependencyError (name : string) (e : Dag.DagError) : error :=
  match e with
  | Dag.CycleError => ErrCyclicDependency name e
  | _ => ErrDag e
  end.

Definition addTypeDependencies (parsed : gmap string Ty)
    (graph : Dag.DirectedAcyclicGraph) : result error Dag.DirectedAcyclicGraph :=
  map_fold (fun name typ acc =>
              graph ← acc;
              wrapErr (wrapDependencyError name)
                      (Dag.AddDependencies graph name (Deps typ)))
           (Ok graph) parsed.

(** The order in which [loadCustomTypes] builds the schemas. *)
Definition typeOrder (parsed : gmap string Ty) : result error (list string) :=
  graph ← addTypeVertices parsed;
  graph ← addTypeDependencies parsed graph;
  wrapErr ErrResolvingTypeOrder (Dag.TopologicalSort graph).

(** [m.Key == "required" && m.Value == "true"] for some marker. *)
Definition markedRequired (markers : list Marker) : bool :=
  existsb (fun m => String.eqb m.(Key) "required" && String.eqb m.(Value) "true")
          markers.

(** The body of the last loop: build the schema of one type against the
    types resolved so far, apply its markers, and record it. *)
Definition resolveType (parsed : gmap string Ty)
    (markers : gmap string (list Marker)) (t : transformer) (name : string)
  : result error transformer :=
  match parsed !! name with
  | None => Err (ErrUnknownType name)
  | Some typ =>
      schema ← wrapErr (ErrBuildingSchema name) (Schema typ (Resolve t));
      let ms := default [] (markers !! name) in
      let required := markedRequired ms in
      let dummyParent := emptySchema in
      '(schema', _) ← wrapErr (ErrApplyingMarkers name)
                              (applyMarkers schema ms name dummyParent);
      Ok (mkTransformer (<[name := mkCustomType schema' required]>
                           t.(customTypes)))
  end.

Fixpoint resolveTypes (parsed : gmap string Ty)
    (markers : gmap string (list Marker)) (t : transformer)
    (order : list string) : result error transformer :=
  match order with
  | [] => Ok t
  | name :: rest =>
      t' ← resolveType parsed markers t name;
      resolveTypes parsed markers t' rest
  end.

Definition loadCustomTypes (t : transformer) (specs : gmap string fieldSpec)
  : result error transformer :=
  if decide (size specs = 0) then Ok t
  else
    '(parsed, markers) ← parseCustomTypes specs;
    order ← typeOrder parsed;
    resolveTypes parsed markers t order.

Definition appendRequiredIfCustom (t : transformer) (typ : Ty) (name : string)
    (parent : JSONSchemaProps) : JSONSchemaProps :=
  match asCustom typ with
  | Some custom =>
      if IsRequired t custom
      then setRequired (parent.(Required) ++ [name]) parent
      else parent
  | None => parent
  end.

Definition buildFieldFromString (t : transformer) (name fieldValue : string)
    (parent : JSONSchemaProps)
  : result error (JSONSchemaProps * JSONSchemaProps) :=
  '(typ, markers) ← ParseField fieldValue;
  schema ← Schema typ (Resolve t);
  let parent := appendRequiredIfCustom t typ name parent in
  applyMarkers schema markers name parent.

Definition objectSchema : JSONSchemaProps :=
  mkSchema "object" "" ∅ None None [] None None None None None None None ""
           [] [] None.

(** The end of [buildSchema]: if any child has a default, set the parent
    default to the empty object. *)
Definition finishSchema (st : JSONSchemaProps * bool) : JSONSchemaProps :=
  let '(schema, childHasDefault) := st in
  if childHasDefault then setDefault (Some "{}") schema else schema.

(** The body of the loop of [buildSchema], given the schema of the field and
    the parent schema as the field left it. *)
Definition recordField (fieldName : string)
    (built : JSONSchemaProps * JSONSchemaProps) (childHasDefault : bool)
  : JSONSchemaProps * bool :=
  let '(fieldSchema, schema) := built in
  (setProperties (<[fieldName := fieldSchema]> schema.(Properties)) schema,
   childHasDefault || bool_decide (is_Some fieldSchema.(Default))).

(** [buildFieldSchema], with the loop of [buildSchema] nested for the case of
    a nested map. Beside the field's schema it returns the parent schema,
    whose [Required] list the field may have extended. *)
Fixpoint buildFieldSchema (t : transformer) (name : string) (spec : fieldSpec)
    (parent : JSONSchemaProps)
  : result error (JSONSchemaProps * JSONSchemaProps) :=
  match spec with
  | FString val => buildFieldFromString t name val parent
  | FMap val =>
      st ← map_fold (fun fieldName fieldSpec acc =>
                       '(schema, childHasDefault) ← acc;
                       built ← wrapErr (ErrField fieldName)
                                 (buildFieldSchema t fieldName fieldSpec schema);
                       Ok (recordField fieldName built childHasDefault))
                    (Ok (objectSchema, false)) val;
      Ok (finishSchema st, parent)
  | FOther => Err ErrUnexpectedType
  end.

Definition buildFields (t : transformer) (spec : gmap string fieldSpec)
  : result error (JSONSchemaProps * bool) :=
  map_fold (fun fieldName fieldSpec acc =>
              '(schema, childHasDefault) ← acc;
              built ← wrapErr (ErrField fieldName)
                        (buildFieldSchema t fieldName fieldSpec schema);
              Ok (recordField fieldName built childHasDefault))
           (Ok (objectSchema, false)) spec.

Definition buildSchema (t : transformer) (spec : gmap string fieldSpec)
  : result error JSONSchemaProps :=
  st ← buildFields t spec;
  Ok (finishSchema st).

(** *** Notions for the statements about the builder and the loader *)

(** What the loop of [buildSchema] has established when it ends. *)
Definition fieldsBuilt (spec : gmap string fieldSpec)
    (st : JSONSchemaProps * bool) : Prop :=
  st.1.(Default) = None
  /\ (forall name, is_Some (st.1.(Properties) !! name) -> is_Some (spec !! name))
  /\ (st.2 = true <->
      exists name child, st.1.(Properties) !! name = Some child
                         /\ is_Some child.(Default))
  /\ (forall name val typ markers,
        spec !! name = Some (FString val) ->
        ParseField val = Ok (typ, markers) ->
        (exists m, m ∈ markers /\ m.(MarkerType_) = MarkerTypeDefault) ->
        exists child, st.1.(Properties) !! name = Some child
                      /\ is_Some child.(Default)).

(** The graph that [loadCustomTypes] has built once the vertices of [parsed]
    are added and the dependencies of the types in [deps] are entered. *)
Definition depGraph (parsed deps : gmap string Ty) : Dag.DirectedAcyclicGraph :=
  map_imap (fun name _ =>
              Some (Dag.mkVertex name 0
                      (match deps !! name with
                       | Some typ => Deps typ
                       | None => []
                       end)))
           parsed.

(** One type refers to another. *)
Definition typeEdge (deps : gmap string Ty) (a b : string) : Prop :=
  exists typ, deps !! a = Some typ /\ b ∈ Deps typ.

(** Every type that is referred to is defined. *)
Definition closedIn (parsed deps : gmap string Ty) : Prop :=
  forall a typ d, deps !! a = Some typ -> d ∈ Deps typ -> is_Some (parsed !! d).

(** One custom type of the [types:] map refers to another: its spec parses
    to a type that depends on the other name. *)
Definition refersTo (specs : gmap string fieldSpec) (a b : string) : Prop :=
  exists spec typ m,
    specs !! a = Some spec /\ parseSpec spec = Ok (typ, m) /\ b ∈ Deps typ.

(** What the first loop of [loadCustomTypes] returns. *)
Definition parsedFrom (specs : gmap string fieldSpec)
    (parsed : gmap string Ty) (markers : gmap string (list Marker)) : Prop :=
  forall name,
    match specs !! name with
    | None => parsed !! name = None /\ markers !! name = None
    | Some spec =>
        exists typ m, parseSpec spec = Ok (typ, m)
                      /\ parsed !! name = Some typ /\ markers !! name = Some m
    end.

(** *** Notions for the further statements about markers and the builder *)

(** A [required] marker whose value [strconv.ParseBool] reads as true. *)
Definition saysRequired (m : Marker) : bool :=
  match m.(MarkerType_), ParseBool m.(Value) with
  | MarkerTypeRequired, Some true => true
  | _, _ => false
  end.

(** A field that enters its name into the [Required] list of its parent: a
    field string of a custom type that is required, or with a [required]
    marker that says true. *)
Definition asksRequired (t : transformer) (spec : fieldSpec) : Prop :=
  exists val typ markers,
    spec = FString val /\ ParseField val = Ok (typ, markers)
    /\ ((exists custom, asCustom typ = Some custom
                        /\ IsRequired t custom = true)
        \/ exists m, m ∈ markers /\ saysRequired m = true).

(** What the loop of [buildSchema] keeps: the type, one property per field
    read so far, built from the field, and the names of the fields that ask
    to be required. *)
Definition fieldsRecorded (t : transformer) (spec : gmap string fieldSpec)
    (schema : JSONSchemaProps) : Prop :=
  schema.(Type_) = "object"
  /\ (forall name,
        match spec !! name with
        | Some field =>
            exists child parent parent',
              schema.(Properties) !! name = Some child
              /\ buildFieldSchema t name field parent = Ok (child, parent')
        | None => schema.(Properties) !! name = None
        end)
  /\ (forall name,
        name ∈ schema.(Required) <->
        exists field, spec !! name = Some field /\ asksRequired t field).

End WithLibraries.

(** *** Sample libraries and inputs *)

(** A library in which the float ["1"] parses. *)
Definition sampleGoStd : GoStd := {|
  ParseFloat s := if String.eqb s "1" then Some 1%float else None;
  regexpCompiles _ := true;
  TrimSpace s := s;
  Quote s := dquote +:+ s +:+ dquote;
|}.

Definition stringSchema : JSONSchemaProps :=
  mkSchema "string" "" ∅ None None [] None None None None None None None ""
           [] [] None.

(** A types package for three field strings of primitive type. *)
Definition sampleParseField (s : string)
  : result error (string * list Marker) :=
  if String.eqb s "string" then Ok ("string", [])
  else if String.eqb s "integer | default=3"
  then Ok ("integer", [mkMarker MarkerTypeDefault "default" "3"])
  else if String.eqb s "string | minimum=1"
  then Ok ("string", [mkMarker MarkerTypeMinimum "minimum" "1"])
  else Err (ErrTypes "unknown field").

Definition sampleTypes : TypesPkg := {|
  Ty := string;
  ParseField := sampleParseField;
  parseSpec spec :=
    match spec with
    | FString s => sampleParseField s
    | _ => Err (ErrTypes "unknown spec")
    end;
  Deps _ := [];
  Schema typ _ :=
    Ok (mkSchema typ "" ∅ None None [] None None None None None None None ""
                 [] [] None);
  asCustom _ := None;
|}.

Definition sampleBuild (spec : gmap string fieldSpec)
  : result error JSONSchemaProps :=
  @buildSchema sampleGoStd sampleTypes (mkTransformer ∅) spec.

(** [{name: string, replicas: integer | default=3}]. *)
Definition sampleSpec : gmap string fieldSpec :=
  list_to_map [("name", FString "string");
               ("replicas", FString "integer | default=3")].

Definition sampleSpecSchema : JSONSchemaProps :=
  Eval vm_compute in
    match sampleBuild sampleSpec with
    | Ok schema => schema
    | Err _ => emptySchema
    end.

(** A types package in which a field string is the name of a primitive type
    or else of a custom type. *)
Definition namedParse (s : string) : result error (string * list Marker) :=
  Ok (s, []).

Definition isPrimitive (s : string) : bool :=
  bool_decide (s ∈ ["string"; "integer"; "boolean"; "number"; "float"]).

Definition namedTypes : TypesPkg := {|
  Ty := string;
  ParseField := namedParse;
  parseSpec spec :=
    match spec with
    | FString s => namedParse s
    | _ => Err (ErrTypes "unknown spec")
    end;
  Deps typ := if isPrimitive typ then [] else [typ];
  Schema typ resolve :=
    if isPrimitive typ
    then Ok (mkSchema typ "" ∅ None None [] None None None None None None
                      None "" [] [] None)
    else resolve typ;
  asCustom typ := if isPrimitive typ then None else Some typ;
|}.

Definition namedLoad (specs : gmap string fieldSpec)
  : result error transformer :=
  @loadCustomTypes sampleGoStd namedTypes (mkTransformer ∅) specs.

(** *** Further samples *)

(** A field string with a [required] marker, for the sample types. *)
Definition requiredParse (s : string) : result error (string * list Marker) :=
  if String.eqb s "string | required=true"
  then Ok ("string", [mkMarker MarkerTypeRequired "required" "true"])
  else sampleParseField s.

Definition requiredTypes : TypesPkg := {|
  Ty := string;
  ParseField := requiredParse;
  parseSpec spec :=
    match spec with
    | FString s => requiredParse s
    | _ => Err (ErrTypes "unknown spec")
    end;
  Deps _ := [];
  Schema typ _ :=
    Ok (mkSchema typ "" ∅ None None [] None None None None None None None ""
                 [] [] None);
  asCustom _ := None;
|}.

(** [{name: string | required=true, note: string}]. *)
Definition requiredSpec : gmap string fieldSpec :=
  list_to_map [("name", FString "string | required=true");
               ("note", FString "string")].

Definition requiredBuild (spec : gmap string fieldSpec)
  : result error JSONSchemaProps :=
  @buildSchema sampleGoStd requiredTypes (mkTransformer ∅) spec.

(** [{Port: integer}], loaded into an empty transformer. *)
Definition portSpecs : gmap string fieldSpec :=
  {[ "Port" := FString "integer" ]}.

Definition portTransformer : transformer :=
  Eval vm_compute in
    match namedLoad portSpecs with
    | Ok t => t
    | Err _ => mkTransformer ∅
    end.

Definition requiredSpecSchema : JSONSchemaProps :=
  Eval vm_compute in
    match requiredBuild requiredSpec with
    | Ok schema => schema
    | Err _ => emptySchema
    end.

(** Two custom types that refer to each other, and the same map with a third
    type whose specification is no string. *)
Definition cyclicSpecs : gmap string fieldSpec :=
  list_to_map [("A", FString "B"); ("B", FString "A")].

Definition cyclicUnparsedSpecs : gmap string fieldSpec :=
  list_to_map [("A", FString "B"); ("B", FString "A"); ("C", FOther)].

End SimpleSchema.

Module MarkerParser.

Import SimpleSchema.

(** The parser of marker strings of [pkg/simpleschema/markers.go]:
    [parseMarkers], [processValue] and [unescapeString]. A Go string is a
    sequence of bytes; [range] decodes it rune by rune and
    [strings.Builder.WriteRune] encodes a rune back, so the functions of
    [unicode/utf8], [unicode] and [strings] that the parser goes through are
    spelled out here, on bytes and on runes. *)

(** *** Bytes and runes *)

Definition byteOf (c : ascii) : Z := Z.of_N (N_of_ascii c).

Definition byte (b : Z) : ascii := ascii_of_N (Z.to_N b).

(** [utf8.RuneError], the replacement character U+FFFD. *)
Definition RuneError : Z := 65533.

Definition between (lo b hi : Z) : bool := (lo <=? b)%Z && (b <=? hi)%Z.

(** [s[i:]] and [s[:i]]. *)
Fixpoint from (i : nat) (s : string) : string :=
  match i, s with
  | S i', String _ s' => from i' s'
  | _, _ => s
  end.

Definition upto (i : nat) (s : string) : string := substring 0 i s.

(** [s[i]], for an index in range. *)
Definition byteAt (s : string) (i : nat) : Z :=
  match String.get i s with
  | Some c => byteOf c
  | None => 0
  end.

(** [utf8.DecodeRuneInString]: the first rune of [s] and its width in bytes.
    A byte that starts no well-formed encoding is decoded as [RuneError] of
    width 1. *)
Definition DecodeRuneInString (s : string) : Z * nat :=
  match s with
  | EmptyString => (RuneError, 0)
  | String c0 s1 =>
      let s0 := byteOf c0 in
      if (s0 <? 128)%Z then (s0, 1)
      else if between 194 s0 223 then
        match s1 with
        | String c1 _ =>
            if between 128 (byteOf c1) 191
            then (Z.lor (Z.shiftl (Z.land s0 31) 6) (Z.land (byteOf c1) 63), 2)
            else (RuneError, 1)
        | _ => (RuneError, 1)
        end
      else if between 224 s0 239 then
        let lo := if (s0 =? 224)%Z then 160%Z else 128%Z in
        let hi := if (s0 =? 237)%Z then 159%Z else 191%Z in
        match s1 with
        | String c1 (String c2 _) =>
            if between lo (byteOf c1) hi && between 128 (byteOf c2) 191
            then (Z.lor (Z.shiftl (Z.land s0 15) 12)
                    (Z.lor (Z.shiftl (Z.land (byteOf c1) 63) 6)
                           (Z.land (byteOf c2) 63)), 3)
            else (RuneError, 1)
        | _ => (RuneError, 1)
        end
      else if between 240 s0 244 then
        let lo := if (s0 =? 240)%Z then 144%Z else 128%Z in
        let hi := if (s0 =? 244)%Z then 143%Z else 191%Z in
        match s1 with
        | String c1 (String c2 (String c3 _)) =>
            if between lo (byteOf c1) hi && between 128 (byteOf c2) 191
               && between 128 (byteOf c3) 191
            then (Z.lor (Z.shiftl (Z.land s0 7) 18)
                    (Z.lor (Z.shiftl (Z.land (byteOf c1) 63) 12)
                       (Z.lor (Z.shiftl (Z.land (byteOf c2) 63) 6)
                              (Z.land (byteOf c3) 63))), 4)
            else (RuneError, 1)
        | _ => (RuneError, 1)
        end
      else (RuneError, 1)
  end.

(** The runes that [for _, char := range s] goes through. The fuel is the
    number of bytes left. *)
Fixpoint runesFrom (fuel : nat) (s : string) : list Z :=
  match fuel, s with
  | S n, String _ _ =>
      let '(r, size) := DecodeRuneInString s in r :: runesFrom n (from size s)
  | _, _ => []
  end.

Definition runes (s : string) : list Z := runesFrom (String.length s) s.

(** The bytes [utf8.AppendRune] writes for a rune: a surrogate half or a
    value out of range is written as [RuneError]. *)
Definition encodeRune (r : Z) : string :=
  if between 0 r 127 then String (byte r) EmptyString
  else if between 0 r 2047 then
    String (byte (Z.lor 192 (Z.shiftr r 6)))
      (String (byte (Z.lor 128 (Z.land r 63))) EmptyString)
  else if (r <? 0)%Z || (1114111 <? r)%Z || between 55296 r 57343 then
    String (byte 239) (String (byte 191) (String (byte 189) EmptyString))
  else if (r <=? 65535)%Z then
    String (byte (Z.lor 224 (Z.shiftr r 12)))
      (String (byte (Z.lor 128 (Z.land (Z.shiftr r 6) 63)))
         (String (byte (Z.lor 128 (Z.land r 63))) EmptyString))
  else
    String (byte (Z.lor 240 (Z.shiftr r 18)))
      (String (byte (Z.lor 128 (Z.land (Z.shiftr r 12) 63)))
         (String (byte (Z.lor 128 (Z.land (Z.shiftr r 6) 63)))
            (String (byte (Z.lor 128 (Z.land r 63))) EmptyString))).

(** [buffer.WriteRune(char)]. *)
Definition WriteRune (buffer : string) (char : Z) : string :=
  buffer +:+ encodeRune char.

(** [unicode.IsSpace]: the Latin-1 spaces, then the remaining code points of
    the Unicode property White_Space. *)
Definition IsSpace (r : Z) : bool :=
  if between 0 r 255
  then between 9 r 13 || (r =? 32)%Z || (r =? 133)%Z || (r =? 160)%Z
  else (r =? 5760)%Z || between 8192 r 8202 || between 8232 r 8233
       || (r =? 8239)%Z || (r =? 8287)%Z || (r =? 12288)%Z.

(** The table [asciiSpace] of package [strings]. *)
Definition asciiSpace (b : Z) : bool := between 9 b 13 || (b =? 32)%Z.

(** [strings.TrimLeftFunc(s, f)]: [s] from its first rune that [f] rejects,
    the empty string when there is none. *)
Fixpoint trimLeftFrom (fuel : nat) (f : Z -> bool) (s : string) : string :=
  match fuel, s with
  | S n, String _ _ =>
      let '(r, size) := DecodeRuneInString s in
      if f r then trimLeftFrom n f (from size s) else s
  | _, _ => EmptyString
  end.

Definition TrimLeftFunc (s : string) (f : Z -> bool) : string :=
  trimLeftFrom (String.length s) f s.

(** [utf8.RuneStart]: the byte is no continuation byte. *)
Definition RuneStart (b : Z) : bool := negb (Z.land b 192 =? 128)%Z.

(** [utf8.DecodeLastRuneInString]: the last rune of [s] and its width. It
    walks back over at most three continuation bytes and decodes forward
    from there. *)
Definition DecodeLastRuneInString (s : string) : Z * nat :=
  let end_ := String.length s in
  if (end_ =? 0)%nat then (RuneError, 0)
  else
    let r := byteAt s (end_ - 1) in
    if (r <? 128)%Z then (r, 1)
    else
      let lim := Z.of_nat (end_ - 4) in
      let start :=
        (fix back (n : nat) (start : Z) : Z :=
           match n with
           | O => start
           | S n' =>
               if (start <? lim)%Z then start
               else if RuneStart (byteAt s (Z.to_nat start)) then start
               else back n' (start - 1)%Z
           end) 3 (Z.of_nat end_ - 2)%Z in
      let start := if (start <? 0)%Z then 0 else Z.to_nat start in
      let '(r, size) := DecodeRuneInString (from start s) in
      if (start + size =? end_)%nat then (r, size) else (RuneError, 1).

(** [lastIndexFunc(s, f, false)]: the index of the last rune that [f]
    rejects, [-1] when there is none. *)
Fixpoint lastIndexFrom (fuel : nat) (f : Z -> bool) (s : string) (i : nat)
  : Z :=
  match fuel with
  | O => (-1)%Z
  | S n =>
      if (i =? 0)%nat then (-1)%Z
      else
        let '(r, size) := DecodeLastRuneInString (upto i s) in
        let i := i - size in
        if f r then lastIndexFrom n f s i else Z.of_nat i
  end.

(** [strings.TrimRightFunc(s, f)]. *)
Definition TrimRightFunc (s : string) (f : Z -> bool) : string :=
  let i := lastIndexFrom (String.length s) f s (String.length s) in
  if (0 <=? i)%Z && (128 <=? byteAt s (Z.to_nat i))%Z
  then let '(_, wid) := DecodeRuneInString (from (Z.to_nat i) s) in
       upto (Z.to_nat i + wid) s
  else upto (Z.to_nat (i + 1)) s.

Definition TrimFunc (s : string) (f : Z -> bool) : string :=
  TrimRightFunc (TrimLeftFunc s f) f.

(** The second loop of [strings.TrimSpace], on [s[start:]]: [stop] runs down
    from the end over ASCII spaces. *)
Fixpoint trimTrailingFrom (stop : nat) (s : string) : string :=
  match stop with
  | O => EmptyString
  | S n =>
      let c := byteAt s n in
      if (128 <=? c)%Z then TrimRightFunc (upto stop s) IsSpace
      else if asciiSpace c then trimTrailingFrom n s
      else upto stop s
  end.

(** [strings.TrimSpace]: the fast path over ASCII spaces at both ends, and
    the rune-wise functions from the first byte that is not ASCII. *)
Fixpoint TrimSpace (s : string) : string :=
  match s with
  | EmptyString => EmptyString
  | String c s' =>
      if (128 <=? byteOf c)%Z then TrimFunc s IsSpace
      else if asciiSpace (byteOf c) then TrimSpace s'
      else trimTrailingFrom (String.length s) s
  end.

(** [strings.HasPrefix] and [strings.HasSuffix]. *)
Definition HasPrefix (s p : string) : bool := String.prefix p s.

Definition HasSuffix (s p : string) : bool :=
  (String.length p <=? String.length s)%nat
  && String.eqb (from (String.length s - String.length p) s) p.

(** *** The parser *)

(** What a call can end in beside its result: an error that it returns, or
    the run-time panic of a slice expression whose bounds are out of range. *)
Inductive markerError : Type :=
  | ErrEmptyMarkerKey
  | ErrInvalidMarkerKey (key : string)
  | ErrUnmatchedClosing
  | ErrUnclosedQuote
  | ErrUnclosedBracket.

Inductive failure : Type :=
  | Returned (e : markerError)
  | SliceBoundsPanic.

(** The state of the loop of [unescapeString]. *)
Definition unescapeRune (st : string * bool) (char : Z) : string * bool :=
  let '(result, escaped) := st in
  if escaped then
    let result :=
      if negb (char =? 34)%Z && negb (char =? 92)%Z
      then WriteRune result 92 else result in
    (WriteRune result char, false)
  else if (char =? 92)%Z then (result, true)
  else (WriteRune result char, false).

(** [unescapeString] unescapes a string that is surrounded by quotes. *)
Definition unescapeString (s : string) : string :=
  (foldl unescapeRune (EmptyString, false) (runes s)).1.

(** [processValue]. The slice [value[1 : len(value)-1]] is out of range when
    [value] is a single double quote. *)
Definition processValue (value : string) : result failure string :=
  if HasPrefix value dquote && HasSuffix value dquote then
    if (String.length value - 1 <? 1)%nat then Err SliceBoundsPanic
    else
      let unquoted := from 1 (upto (String.length value - 1) value) in
      Ok (unescapeString unquoted)
  else Ok (TrimSpace value).

(** The variables of [parseMarkers]. [bracketCount] is an [int]; it moves by
    one per rune and cannot leave the range of [int]. *)
Record parserState : Type := mkParserState {
  result_ : list Marker;
  currentMarker : option Marker;
  inQuotes : bool;
  bracketCount : Z;
  buffer : string;
  escaped : bool;
}.

Definition initialState : parserState :=
  mkParserState [] None false 0 EmptyString false.

Definition setValue (m : Marker) (value : string) : Marker :=
  mkMarker m.(MarkerType_) m.(Key) value.

(** [currentMarker.Value = processValue(buffer.String());
    result = append(result, currentMarker)]. *)
Definition closeMarker (st : parserState) (m : Marker)
  : result failure (list Marker) :=
  value ← processValue st.(buffer);
  Ok (st.(result_) ++ [setValue m value]).

(** The body of the loop of [parseMarkers], for one rune. *)
Definition parseRune (st : parserState) (char : Z)
  : result failure parserState :=
  if (char =? 61)%Z && bool_decide (st.(currentMarker) = None)
     && negb st.(inQuotes) && (st.(bracketCount) =? 0)%Z then
    let key := TrimSpace st.(buffer) in
    if String.eqb key "" then Err (Returned ErrEmptyMarkerKey)
    else
      match markerTypeFromString key with
      | None => Err (Returned (ErrInvalidMarkerKey key))
      | Some markerType =>
          Ok (mkParserState st.(result_) (Some (mkMarker markerType key ""))
                st.(inQuotes) st.(bracketCount) EmptyString st.(escaped))
      end
  else if (char =? 34)%Z && negb st.(escaped) then
    Ok (mkParserState st.(result_) st.(currentMarker) (negb st.(inQuotes))
          st.(bracketCount) (WriteRune st.(buffer) char) st.(escaped))
  else if (char =? 92)%Z && st.(inQuotes) && negb st.(escaped) then
    Ok (mkParserState st.(result_) st.(currentMarker) st.(inQuotes)
          st.(bracketCount) (WriteRune st.(buffer) char) true)
  else if ((char =? 123)%Z || (char =? 91)%Z) && negb st.(inQuotes) then
    Ok (mkParserState st.(result_) st.(currentMarker) st.(inQuotes)
          (st.(bracketCount) + 1) (WriteRune st.(buffer) char) st.(escaped))
  else if ((char =? 125)%Z || (char =? 93)%Z) && negb st.(inQuotes) then
    if (st.(bracketCount) - 1 <? 0)%Z then Err (Returned ErrUnmatchedClosing)
    else
      Ok (mkParserState st.(result_) st.(currentMarker) st.(inQuotes)
            (st.(bracketCount) - 1) (WriteRune st.(buffer) char) st.(escaped))
  else if IsSpace char && negb st.(inQuotes) && (st.(bracketCount) =? 0)%Z then
    match st.(currentMarker) with
    | Some m =>
        markers ← closeMarker st m;
        Ok (mkParserState markers None st.(inQuotes) st.(bracketCount)
              EmptyString st.(escaped))
    | None => Ok st
    end
  else
    Ok (mkParserState st.(result_) st.(currentMarker) st.(inQuotes)
          st.(bracketCount) (WriteRune st.(buffer) char)
          (if st.(escaped) && st.(inQuotes) then false else st.(escaped))).

Fixpoint parseRunes (st : parserState) (chars : list Z)
  : result failure parserState :=
  match chars with
  | [] => Ok st
  | char :: rest => st' ← parseRune st char; parseRunes st' rest
  end.

(** What [parseMarkers] does after its loop. *)
Definition finishMarkers (st : parserState) : result failure (list Marker) :=
  markers ← match st.(currentMarker) with
            | Some m => closeMarker st m
            | None => Ok st.(result_)
            end;
  if st.(inQuotes) then Err (Returned ErrUnclosedQuote)
  else if (0 <? st.(bracketCount))%Z then Err (Returned ErrUnclosedBracket)
  else Ok markers.

(** [parseMarkers] parses a string of markers and returns the markers. *)
Definition parseMarkers (markers : string) : result failure (list Marker) :=
  st ← parseRunes initialState (runes markers);
  finishMarkers st.

(** *** Notions for the statements about the parser *)

(** The bytes of a string. *)
Definition bytes (s : string) : list Z := byteOf <$> list_ascii_of_string s.

(** Every byte of the string is an ASCII character. *)
Definition isASCII (s : string) : Prop :=
  Forall (fun c => (byteOf c < 128)%Z) (list_ascii_of_string s).

(** A string with a backslash put before each double quote and each
    backslash. *)
Fixpoint escape (s : string) : string :=
  match s with
  | EmptyString => EmptyString
  | String c s' =>
      if (byteOf c =? 34)%Z || (byteOf c =? 92)%Z
      then String (byte 92) (String c (escape s'))
      else String c (escape s')
  end.

Definition backslash : string := String (byte 92) EmptyString.

(** A value in double quotes. *)
Definition quoted (value : string) : string :=
  dquote +:+ escape value +:+ dquote.

(** A byte that can stand in a value that is written without quotes: an
    ASCII character that is no white space, no double quote and no bracket
    or brace. *)
Definition plainByte (c : ascii) : bool :=
  let b := byteOf c in
  (b <? 128)%Z && negb (IsSpace b) && negb (b =? 34)%Z
  && negb (b =? 123)%Z && negb (b =? 91)%Z
  && negb (b =? 125)%Z && negb (b =? 93)%Z.

Definition plain (s : string) : bool :=
  forallb plainByte (list_ascii_of_string s).

(** A value as it is written: bare when it is plain, else quoted. *)
Definition renderValue (value : string) : string :=
  if plain value then value else quoted value.

Definition renderMarker (m : Marker) : string :=
  m.(Key) +:+ "=" +:+ renderValue m.(Value).

(** A list of markers, separated by single spaces. *)
Definition renderMarkers (ms : list Marker) : string :=
  String.concat " " (renderMarker <$> ms).

(** The key of the marker is the name of its type. *)
Definition keyed (m : Marker) : Prop :=
  m.(Key) = markerTypeName m.(MarkerType_).

(** What a rune adds to and takes from the count of open brackets and
    braces. *)
Definition opens (c : Z) : Z := if (c =? 123)%Z || (c =? 91)%Z then 1 else 0.

Definition closes (c : Z) : Z := if (c =? 125)%Z || (c =? 93)%Z then 1 else 0.

(** A marker as it comes out of the printer. *)
Definition printable (m : Marker) : Prop := keyed m /\ isASCII m.(Value).

End MarkerParser.

Module CRD.

(** The part of OpenAPI v3 structural schemas that the schema of a resource
    declaration uses. *)
Inductive schema : Type :=
  | SString
  | SArray (items : schema)
  | SObject (properties : list (string * schema)) (required : list string)
  | SPreserveUnknownFields.

(** Validation of a value by the API server: the type matches, the required
    properties are present, and every declared property that is present is
    valid. Properties that are not declared are pruned, not rejected. *)
Fixpoint validate (s : schema) (v : value) : bool :=
  match s, v with
  | SString, VString _ => true
  | SArray items, VSlice l => forallb (validate items) l
  | SObject properties required, VMap m =>
      forallb (fun r => bool_decide (is_Some (m !! r))) required
      && (fix props (ps : list (string * schema)) : bool :=
            match ps with
            | [] => true
            | (k, sk) :: ps' =>
                match m !! k with
                | Some x => validate sk x
                | None => true
                end && props ps'
            end) properties
  | SPreserveUnknownFields, VMap _ => true
  | _, _ => false
  end.

(** [spec.resources.items.properties.externalRef] of
    [kro.run_resourcegraphdefinitions.yaml]. *)
Definition externalRefMetadataSchema : schema :=
  SObject [("name", SString); ("namespace", SString)] ["name"; "namespace"].

Definition externalRefSchema : schema :=
  SObject [("apiVersion", SString); ("kind", SString);
           ("metadata", externalRefMetadataSchema)]
          ["apiVersion"; "kind"; "metadata"].

(** [spec.resources.items]. *)
Definition resourceSchema : schema :=
  SObject [("externalRef", externalRefSchema); ("id", SString);
           ("includeWhen", SArray SString); ("readyWhen", SArray SString);
           ("template", SPreserveUnknownFields)]
          ["id"].

(** The [x-kubernetes-validations] rule of a resource: exactly one of
    template or externalRef must be provided. *)
Definition exactlyOneOrigin (v : value) : bool :=
  match v with
  | VMap m =>
      xorb (bool_decide (is_Some (m !! "template")))
           (bool_decide (is_Some (m !! "externalRef")))
  | _ => false
  end.

Definition validResource (v : value) : bool :=
  validate resourceSchema v && exactlyOneOrigin v.

(** The external reference of the documentation, with and without its
    namespace. *)
Definition externalRefOf (metadata : gmap string value) : value :=
  VMap (list_to_map
          [("id", VString "myExternal");
           ("externalRef",
            VMap (list_to_map [("apiVersion", VString "v1");
                               ("kind", VString "ConfigMap");
                               ("metadata", VMap metadata)]))]).

Definition externalRefWithNamespace : value :=
  externalRefOf (list_to_map [("name", VString "my-config");
                              ("namespace", VString "default")]).

Definition externalRefWithoutNamespace : value :=
  externalRefOf (list_to_map [("name", VString "my-config")]).

End CRD.

Module Collection.

(** Modelled from the spec: the expansion of a collection resource by the
    instance runtime, whose source is absent from the sources at hand. Each
    [forEach] dimension is evaluated to a list; the cartesian product of the
    dimension lists yields the items; an iterator tuple binds one variable per
    dimension; the order is lexicographic by dimension position and keeps the
    order of each list. *)

(** An evaluated dimension: the iterator name and its list. *)
Abbreviation dimension A := (string * list A)%type.

(** An iterator tuple: one binding per dimension, in declaration order. *)
Abbreviation iteratorTuple A := (list (string * A)).

Fixpoint expand {A} (dims : list (dimension A)) : list (iteratorTuple A) :=
  match dims with
  | [] => [[]]
  | (name, values) :: rest =>
      flat_map (fun v => map (cons (name, v)) (expand rest)) values
  end.

(** The positions of a dimension list, as a dimension of its own. *)
Definition positions {A} (d : dimension A) : dimension nat :=
  (d.1, seq 0 (length d.2)).

(** The tuple of values that a tuple of positions selects. *)
Fixpoint select {A} (dims : list (dimension A)) (idx : iteratorTuple nat)
  : option (iteratorTuple A) :=
  match dims, idx with
  | [], [] => Some []
  | (name, values) :: dims', (_, i) :: idx' =>
      v ← values !! i;
      rest ← select dims' idx';
      Some ((name, v) :: rest)
  | _, _ => None
  end.

(** Lexicographic order on tuples of positions, first dimension first. *)
Fixpoint lexLt (a b : iteratorTuple nat) : Prop :=
  match a, b with
  | (_, i) :: a', (_, j) :: b' => i < j \/ (i = j /\ lexLt a' b')
  | _, _ => False
  end.

Definition sizes {A} (dims : list (dimension A)) : list nat :=
  map (fun d => length d.2) dims.

Definition product (ns : list nat) : nat := foldr Nat.mul 1 ns.

(** One block of the expansion per value of the first dimension. *)
Definition blocks {B} (name : string) (E : list (iteratorTuple B))
    (values : list B) : list (iteratorTuple B) :=
  flat_map (fun v => map (cons (name, v)) E) values.

End Collection.

Module ForEach.

(** Modelled from the spec: the compilation of the [forEach] dimensions of a
    resource by the graph builder, whose source is absent from the sources at
    hand (its test [TestGraphBuilder_CollectionValidation] is present). Each
    dimension is compiled against the current environment, not yet extended
    by sibling dimensions; the result must be list-typed; iterator bindings
    are collected in declaration order; a dimension that mentions another
    iterator is rejected. *)

Inductive celType : Type :=
  | TBool
  | TInt
  | TDouble
  | TString
  | TDyn
  | TList (elem : celType)
  | TMap (key elem : celType)
  | TObject (name : string).

(** The expression language, used through its embedding interface: the
    variables an expression refers to, and its type when it compiles in an
    environment ([None] when it does not parse or type-check). *)
Class ExprLang : Type := {
  expr : Type;
  references : expr -> list string;
  compile : gmap string celType -> expr -> option celType;
}.

Inductive buildError : Type :=
  | ErrReferencesIterator (iterator other : string)
  | ErrInvalidExpression (iterator : string)
  | ErrMustReturnList (iterator : string).

Section WithExprLang.
Context `{ExprLang}.

(** A dimension maps a single iterator name to a list-typed expression. *)
Record ForEachDimension : Type := mkDimension {
  iterator : string;
  expression : expr;
}.

(** Another iterator of the same resource that the dimension mentions. *)
Definition mentionedIterator (iterators : list string) (d : ForEachDimension)
  : option string :=
  find (fun it => negb (String.eqb it d.(iterator))
                  && bool_decide (it ∈ references d.(expression)))
       iterators.

Definition compileDimension (env : gmap string celType)
    (iterators : list string) (d : ForEachDimension)
  : result buildError (string * celType) :=
  match mentionedIterator iterators d with
  | Some other => Err (ErrReferencesIterator d.(iterator) other)
  | None =>
      match compile env d.(expression) with
      | None => Err (ErrInvalidExpression d.(iterator))
      | Some (TList elem) => Ok (d.(iterator), elem)
      | Some _ => Err (ErrMustReturnList d.(iterator))
      end
  end.

(** Step 4a: every dimension against the same environment [env]. *)
Definition compileForEach (env : gmap string celType)
    (dims : list ForEachDimension) : result buildError (list (string * celType)) :=
  mapResult (compileDimension env (map iterator dims)) dims.

(** Step 4b: extend the environment with the iterator bindings. *)
Definition extendEnv (env : gmap string celType)
    (bindings : list (string * celType)) : gmap string celType :=
  foldl (fun e b => <[b.1 := b.2]> e) env bindings.

End WithExprLang.

(** An expression language of bare variables, to run the test of the graph
    builder: a variable has the type the environment gives it. *)
Definition variableLang : ExprLang := {|
  expr := string;
  references e := [e];
  compile env e := env !! e;
|}.

End ForEach.

Module Rbac.

(** [cmd/kubectl-kro/generate/rbac/rbac.go]: the policy rules that
    [generateRBAC] derives from the resources of a processed graph. The
    calls of the client, of the graph builder and of the marshaller around
    them are not modelled. *)

(** [schema.GroupVersionResource]. *)
Record GroupVersionResource : Type := mkGVR {
  Group : string;
  Version : string;
  Resource : string;
}.

(** [type resourcesByGroup map[string][]string]. *)
Abbreviation resourcesByGroup := (gmap string (list string)).

(** [addGVR] enters the resource of [gvr] under its group, unless the
    group holds it. The Go method writes into the map; here the map is
    returned. *)
Definition addGVR (rbg : resourcesByGroup) (gvr : GroupVersionResource)
  : resourcesByGroup :=
  match rbg !! gvr.(Group) with
  | None => <[gvr.(Group) := [gvr.(Resource)]]> rbg
  | Some resources =>
      let found := existsb (fun resource => String.eqb resource gvr.(Resource))
                           resources in
      if negb found
      then <[gvr.(Group) := resources ++ [gvr.(Resource)]]> rbg
      else rbg
  end.

(** The order of Go's [<] on strings: byte-wise lexicographic. *)
Definition stringLe (a b : string) : Prop := String.leb a b = true.

#[global] Instance stringLe_dec a b : Decision (stringLe a b).
Proof. unfold stringLe. apply _. Defined.

(** [groups] returns the groups of the map, sorted by [sort.Strings]. *)
Definition groups (rbg : resourcesByGroup) : list string :=
  merge_sort stringLe (map_to_list rbg).*1.

(** [rbacv1.PolicyRule], in the fields [generateRBAC] sets. *)
Record PolicyRule : Type := mkPolicyRule {
  Verbs : list string;
  APIGroups : list string;
  Resources : list string;
}.

Definition kroDefaultVerbs : list string :=
  ["get"; "list"; "create"; "update"; "patch"; "delete"].

(** The loops of [generateRBAC] between the processing of the graph and the
    marshalling: group the resources by API group, then one rule per group,
    in the order of [groups]. A group that the map lacks reads as the nil
    slice. *)
Definition policyRules (gvrs : list GroupVersionResource) : list PolicyRule :=
  let rbg := foldl addGVR ∅ gvrs in
  (fun group => mkPolicyRule kroDefaultVerbs [group]
                             (default [] (rbg !! group)))
    <$> groups rbg.

(** *** Notions for the statements about the rules *)

(** What the grouping loop keeps, for the resources [seen] so far: every
    group holds, without repetition, the resources that were seen with it,
    and every group that was seen is there. *)
Definition grouped (seen : list GroupVersionResource) (rbg : resourcesByGroup)
  : Prop :=
  (forall g rs, rbg !! g = Some rs ->
     NoDup rs
     /\ forall r, r ∈ rs <->
                  exists gvr, gvr ∈ seen /\ gvr.(Group) = g
                              /\ gvr.(Resource) = r)
  /\ (forall gvr, gvr ∈ seen -> is_Some (rbg !! gvr.(Group))).

Definition sampleGVRs : list GroupVersionResource :=
  [ mkGVR "apps" "v1" "deployments"; mkGVR "" "v1" "configmaps";
    mkGVR "apps" "v1" "statefulsets"; mkGVR "apps" "v1" "deployments" ].

End Rbac.

(** * Properties *)

Import Delta Dag SimpleSchema CRD Collection ForEach.

(** ** JSON trees *)

Lemma vsize_fold_elem (l : list (string * value)) k v :
  (k, v) ∈ l ->
  vsize v <= foldr (fun kv acc => vsize kv.2 + acc) 0 l.
Proof.
  induction l as [|[k' v'] l IH]; intros Hin.
  - inversion Hin.
  - apply elem_of_cons in Hin as [Heq | Hin]; simpl.
    + inversion Heq; subst. lia.
    + specialize (IH Hin). lia.
Qed.

Lemma vsize_lookup (m : gmap string value) k v :
  m !! k = Some v -> vsize v < vsize (VMap m).
Proof.
  intros Hk. simpl. rewrite map_fold_foldr.
  apply elem_of_map_to_list in Hk.
  pose proof (vsize_fold_elem _ _ _ Hk) as Hle.
  assert (Heq : forall l : list (string * value),
    foldr (uncurry (fun (_ : string) x acc => vsize x + acc)) 0 l =
    foldr (fun kv acc => vsize kv.2 + acc) 0 l).
  { induction l as [|[? ?] l IH]; simpl; [done | by rewrite IH]. }
  rewrite Heq. lia.
Qed.

Lemma vsize_elem (l : list value) v :
  v ∈ l -> vsize v < vsize (VSlice l).
Proof.
  simpl. induction l as [|x l IH]; intros Hin.
  - inversion Hin.
  - apply elem_of_cons in Hin as [-> | Hin]; simpl; [lia|].
    specialize (IH Hin). lia.
Qed.

(** Induction over JSON trees: a map is reached through its entries, a slice
    through its elements. *)
Lemma value_tree_ind (P : value -> Prop) :
  P VNil ->
  (forall b, P (VBool b)) ->
  (forall z, P (VInt64 z)) ->
  (forall f, P (VFloat64 f)) ->
  (forall s, P (VString s)) ->
  (forall s, P (VNumber s)) ->
  (forall m : gmap string value,
      (forall k v, m !! k = Some v -> P v) -> P (VMap m)) ->
  (forall l, Forall P l -> P (VSlice l)) ->
  forall v, P v.
Proof.
  intros HN HB HI HF HS HJ HM HL v.
  remember (vsize v) as n eqn:Hn.
  revert v Hn. induction n as [n IH] using lt_wf_ind. intros v ->.
  destruct v; auto.
  - apply HM. intros k v Hk. eapply IH; [|reflexivity].
    by apply vsize_lookup with k.
  - apply HL. apply Forall_forall. intros x Hx.
    eapply IH; [|reflexivity]. by apply vsize_elem.
Qed.

(** ** The walk *)

Lemma walkCompare_map d e path :
  walkCompare (VMap d) (VMap e) path = walkMap d e path.
Proof. reflexivity. Qed.

Lemma walkCompare_slice d e path :
  walkCompare (VSlice d) (VSlice e) path = walkSlice d e path.
Proof.
  unfold walkSlice. simpl. destruct (negb (length d =? length e)); [done|].
  generalize 0. revert e.
  induction d as [|x d IH]; intros [|y e] i; simpl; try done.
  by rewrite IH.
Qed.

Lemma walkMap_foldr d e path :
  walkMap d e path =
  foldr (fun kv rest => walkEntry e path kv.1 kv.2 ++ rest) []
        (map_to_list d).
Proof.
  unfold walkMap. rewrite map_fold_foldr.
  induction (map_to_list d) as [|[k v] l IH]; simpl; [done | by rewrite IH].
Qed.

Lemma walkMap_nil d e path :
  (forall k v, d !! k = Some v -> walkEntry e path k v = []) ->
  walkMap d e path = [].
Proof.
  intros Hall. rewrite walkMap_foldr.
  assert (Hl : forall k v, (k, v) ∈ map_to_list d -> walkEntry e path k v = []).
  { intros k v Hin. apply Hall. by apply elem_of_map_to_list. }
  induction (map_to_list d) as [|[k v] l IH]; simpl; [done|].
  rewrite (Hl k v) by left. simpl. apply IH.
  intros k' v' Hin. apply Hl. by right.
Qed.

(** The walk reads [observed] only at the keys of [desired]. *)
Lemma walkMap_ext d e e' path :
  (forall k, is_Some (d !! k) -> e !! k = e' !! k) ->
  walkMap d e path = walkMap d e' path.
Proof.
  intros Hagree. rewrite !walkMap_foldr.
  assert (Hl : forall k v, (k, v) ∈ map_to_list d -> e !! k = e' !! k).
  { intros k v Hin. apply Hagree. apply elem_of_map_to_list in Hin. eauto. }
  induction (map_to_list d) as [|[k v] l IH]; simpl; [done|].
  rewrite IH by (intros k' v' Hin; apply (Hl k' v'); by right).
  unfold walkEntry; simpl. by rewrite (Hl k v) by left.
Qed.

Lemma foldr_app_Permutation {A B} (f : A -> list B) (l l' : list A) :
  l ≡ₚ l' ->
  foldr (fun x rest => f x ++ rest) [] l ≡ₚ
  foldr (fun x rest => f x ++ rest) [] l'.
Proof.
  induction 1 as [|x l l' _ IH|x y l|l1 l2 l3 _ IH1 _ IH2]; simpl.
  - done.
  - by rewrite IH.
  - rewrite !(assoc_L (++)). by rewrite (comm (++) (f y) (f x)).
  - by rewrite IH1.
Qed.

(** ** Trees without NaN *)

Lemma has_nan_map_false (m : gmap string value) :
  has_nan (VMap m) = false <->
  (forall k v, m !! k = Some v -> has_nan v = false).
Proof.
  simpl. rewrite map_fold_foldr.
  assert (Hl : forall l : list (string * value),
    foldr (uncurry (fun (_ : string) x acc => has_nan x || acc)) false l = false
    <-> (forall k v, (k, v) ∈ l -> has_nan v = false)).
  { induction l as [|[k v] l IH]; simpl.
    - split; [intros _ k v Hin; inversion Hin | done].
    - rewrite orb_false_iff, IH. split.
      + intros [Hv Hl] k' v' Hin.
        apply elem_of_cons in Hin as [Heq | Hin]; [by inversion Heq; subst|].
        by apply (Hl k').
      + intros Hall. split; [apply (Hall k); by left|].
        intros k' v' Hin. apply (Hall k'). by right. }
  rewrite Hl. split; intros Hall k v Hk; apply (Hall k).
  - by apply elem_of_map_to_list.
  - by apply elem_of_map_to_list in Hk.
Qed.

Lemma iface_eqb_refl v :
  has_nan v = false ->
  match v with VMap _ | VSlice _ => True | _ => iface_eqb v v = true end.
Proof.
  destruct v; simpl; intros Hn; try done.
  - by destruct b.
  - apply Z.eqb_refl.
  - by apply negb_false_iff.
  - apply String.eqb_refl.
  - apply String.eqb_refl.
Qed.

Lemma walkSliceFrom_self l path i :
  Forall (fun v => forall p, has_nan v = false -> walkCompare v v p = []) l ->
  existsb has_nan l = false ->
  walkSliceFrom l l path i = [].
Proof.
  intros Hall. revert i. induction Hall as [|x l Hx _ IH]; intros i Hn; [done|].
  simpl in *. apply orb_false_iff in Hn as [Hnx Hnl].
  rewrite Hx by done. simpl. by apply IH.
Qed.

(** A tree without NaN does not differ from itself, at any path. *)
Lemma walkCompare_self v :
  forall path, has_nan v = false -> walkCompare v v path = [].
Proof.
  induction v as [| b | z | f | s | s | m IH | l IH] using value_tree_ind;
    intros path Hn;
    try (pose proof (iface_eqb_refl _ Hn) as Heq; unfold walkCompare;
         by rewrite Heq).
  - rewrite walkCompare_map. apply walkMap_nil. intros k v Hk.
    unfold walkEntry. rewrite Hk. apply (IH k v Hk).
    by apply (proj1 (has_nan_map_false m) Hn k).
  - rewrite walkCompare_slice. unfold walkSlice.
    rewrite Nat.eqb_refl. simpl. by apply walkSliceFrom_self.
Qed.

(** ** Cleaning the metadata *)

Lemma lookup_foldl_delete {A} (fs : list string) (m : gmap string A) f :
  foldl (fun m field => delete field m) m fs !! f =
  if decide (f ∈ fs) then None else m !! f.
Proof.
  revert m. induction fs as [|a fs IH]; intros m; cbn [foldl].
  - case_decide as Hin; [by apply elem_of_nil in Hin | done].
  - rewrite IH.
    destruct (decide (f ∈ fs)) as [Hin|Hnin];
      destruct (decide (f ∈ a :: fs)) as [Hin'|Hnin']; try done.
    + exfalso. apply Hnin'. by right.
    + apply elem_of_cons in Hin' as [->|?]; [|done]. apply lookup_delete_eq.
    + apply lookup_delete_ne. intros ->. apply Hnin'. by left.
Qed.

Lemma dropIfEmptyMap_subseteq field (md : gmap string value) :
  dropIfEmptyMap field md ⊆ md.
Proof.
  unfold dropIfEmptyMap. repeat case_match; try done. apply delete_subseteq.
Qed.

Lemma foldl_delete_subseteq {A} (fs : list string) (m : gmap string A) :
  foldl (fun m field => delete field m) m fs ⊆ m.
Proof.
  revert m. induction fs as [|a fs IH]; intros m; simpl; [done|].
  etrans; [apply IH | apply delete_subseteq].
Qed.

Lemma cleanMetadataMap_subseteq (md : gmap string value) :
  cleanMetadataMap md ⊆ md.
Proof.
  unfold cleanMetadataMap.
  etrans; [apply foldl_delete_subseteq|].
  etrans; apply dropIfEmptyMap_subseteq.
Qed.

Lemma dropIfEmptyMap_lookup field (md : gmap string value) a :
  dropIfEmptyMap field md !! field = Some (VMap a) -> a ≠ ∅.
Proof.
  unfold dropIfEmptyMap. intros Hl ->.
  destruct (md !! field) as [v|] eqn:Hf.
  - destruct v; try (rewrite Hf in Hl; by inversion Hl).
    destruct (decide (size m = 0)) as [Hs|Hs].
    + by rewrite lookup_delete_eq in Hl.
    + rewrite Hf in Hl. inversion Hl; subst. by rewrite map_size_empty in Hs.
  - by rewrite Hf in Hl.
Qed.

Lemma cleanMetadataMap_no_empty field (md : gmap string value) :
  field = "annotations" \/ field = "labels" ->
  cleanMetadataMap md !! field ≠ Some (VMap ∅).
Proof.
  intros Hf Hl.
  assert (Hsub : forall m1 m2 : gmap string value,
             m1 ⊆ m2 -> m1 !! field = Some (VMap ∅) ->
             m2 !! field = Some (VMap ∅)).
  { intros m1 m2 Hs Hm1. by apply (lookup_weaken m1 m2). }
  unfold cleanMetadataMap in Hl.
  apply (Hsub _ _ (foldl_delete_subseteq _ _)) in Hl.
  destruct Hf as [-> | ->].
  - apply (Hsub _ _ (dropIfEmptyMap_subseteq _ _)) in Hl.
    by apply dropIfEmptyMap_lookup in Hl.
  - by apply dropIfEmptyMap_lookup in Hl.
Qed.

Lemma cleanMetadata_lookup_ne obj k :
  k ≠ "metadata" -> cleanMetadata obj !! k = obj !! k.
Proof.
  intros Hk. unfold cleanMetadata. repeat case_match; try done.
  by rewrite lookup_insert_ne.
Qed.

Lemma cleanMetadata_is_Some obj k :
  is_Some (cleanMetadata obj !! k) <-> is_Some (obj !! k).
Proof.
  destruct (decide (k = "metadata")) as [->|Hk];
    [|by rewrite cleanMetadata_lookup_ne].
  unfold cleanMetadata. destruct (obj !! "metadata") as [v|] eqn:Hm.
  - destruct v; rewrite ?Hm, ?lookup_insert_eq; split; eauto.
  - by rewrite Hm.
Qed.

Lemma cleanMetadata_no_nan obj :
  has_nan (VMap obj) = false -> has_nan (VMap (cleanMetadata obj)) = false.
Proof.
  rewrite !has_nan_map_false. intros Hobj k v Hk.
  destruct (decide (k = "metadata")) as [->|Hne];
    [|rewrite cleanMetadata_lookup_ne in Hk by done; by apply (Hobj k)].
  unfold cleanMetadata in Hk.
  destruct (obj !! "metadata") as [w|] eqn:Hm; [|by rewrite Hm in Hk].
  destruct w; try (apply (Hobj "metadata"); congruence).
  rewrite lookup_insert_eq in Hk. inversion Hk; subst.
  apply has_nan_map_false. intros k' v' Hk'.
  pose proof (Hobj _ _ Hm) as Hmd.
  apply (proj1 (has_nan_map_false m) Hmd k').
  apply (lookup_weaken (cleanMetadataMap m) m); [done|].
  apply cleanMetadataMap_subseteq.
Qed.

(** ** Compare on trees *)

Lemma cleanMetadata_strips obj md :
  cleanMetadata obj !! "metadata" = Some (VMap md) ->
  (forall f, f ∈ serverManagedFields -> md !! f = None)
  /\ md !! "labels" ≠ Some (VMap ∅)
  /\ md !! "annotations" ≠ Some (VMap ∅).
Proof.
  unfold cleanMetadata. intros Hmd.
  destruct (obj !! "metadata") as [w|] eqn:Hm; [|by rewrite Hm in Hmd].
  destruct w; try (rewrite Hm in Hmd; by inversion Hmd).
  rewrite lookup_insert_eq in Hmd. inversion Hmd; subst; clear Hmd.
  split; [|split; apply cleanMetadataMap_no_empty; auto].
  intros f Hf. unfold cleanMetadataMap. rewrite lookup_foldl_delete.
  rewrite decide_True; [done|].
  unfold serverManagedFields, fieldsToRemove in *.
  repeat (apply elem_of_cons in Hf as [->|Hf];
          [by repeat first [left | right]|]).
  by apply elem_of_nil in Hf.
Qed.

Lemma Compare_insert_observed desired observed k v :
  desired !! k = None ->
  Compare desired (<[k := v]> observed) = Compare desired observed.
Proof.
  intros Hk. unfold Compare. f_equal. rewrite !walkCompare_map.
  apply walkMap_ext. intros k' Hk'.
  apply (proj1 (cleanMetadata_is_Some desired k')) in Hk'.
  assert (Hne : k' ≠ k).
  { intros ->. destruct Hk' as [x Hx]. congruence. }
  destruct (decide (k' = "metadata")) as [->|Hmeta].
  - unfold cleanMetadata. rewrite lookup_insert_ne by done.
    destruct (observed !! "metadata") as [w|] eqn:Hm.
    + destruct w; rewrite ?lookup_insert_ne, ?Hm by done; try done.
      by rewrite !lookup_insert_eq.
    + by rewrite lookup_insert_ne, Hm.
  - rewrite !cleanMetadata_lookup_ne by done. by rewrite lookup_insert_ne.
Qed.

(** C3. [Compare] walks the two objects after [cleanMetadata] has been
    applied to both; what [cleanMetadata] leaves of a metadata map holds none
    of the server-managed fields and no empty [labels] or [annotations]; and a
    key that only the observed object has, at the top or in any nested map
    that is walked, changes no difference. *)
Theorem Compare_ignores_observed_only (desired observed : gmap string value) :
  Compare desired observed =
    (walkCompare (VMap (cleanMetadata desired))
                 (VMap (cleanMetadata observed)) "", None)
  /\ (forall obj md,
        obj = desired \/ obj = observed ->
        cleanMetadata obj !! "metadata" = Some (VMap md) ->
        (forall f, f ∈ serverManagedFields -> md !! f = None)
        /\ md !! "labels" ≠ Some (VMap ∅)
        /\ md !! "annotations" ≠ Some (VMap ∅))
  /\ (forall k v,
        desired !! k = None ->
        Compare desired (<[k := v]> observed) = Compare desired observed)
  /\ (forall (d e : gmap string value) k v path,
        d !! k = None ->
        walkCompare (VMap d) (VMap (<[k := v]> e)) path =
        walkCompare (VMap d) (VMap e) path).
Proof.
  split; [reflexivity|]. split; [|split].
  - intros obj md _. apply cleanMetadata_strips.
  - intros k v. apply Compare_insert_observed.
  - intros d e k v path Hk. rewrite !walkCompare_map.
    apply walkMap_ext. intros k' [x Hk'].
    rewrite lookup_insert_ne; [done|]. intros ->. congruence.
Qed.

(** C4 (as amended). An object that holds no [float64] NaN does not differ
    from itself: [Compare d d] returns no difference and no error. *)
Theorem Compare_self_no_differences (d : gmap string value) :
  has_nan (VMap d) = false -> Compare d d = ([], None).
Proof.
  intros Hn. unfold Compare. f_equal.
  apply walkCompare_self. by apply cleanMetadata_no_nan.
Qed.

Lemma Compare_self_no_differences_witness :
  has_nan (VMap configMapObject) = false
  /\ Compare configMapObject configMapObject = ([], None).
Proof.
  split.
  - vm_compute. reflexivity.
  - apply (Compare_self_no_differences configMapObject).
    vm_compute. reflexivity.
Defined.

(** C4 as stated fails on an object that holds a NaN: the default branch of
    [walkCompare] compares the two interface values with [!=], and a NaN
    differs from itself. *)
Lemma Compare_self_nan_differs :
  Compare nanObject nanObject =
    ([mkDifference "x" (VFloat64 PrimFloat.nan) (VFloat64 PrimFloat.nan)], None).
Proof. vm_compute. reflexivity. Qed.

(** C9. A key of the desired map whose value is [nil] and that the observed
    map lacks adds no difference: its turn of the loop appends nothing, and
    the walk as a whole reports what it reports without the key. *)
Theorem walkMap_nil_desired_absent (d o : gmap string value) (k path : string) :
  d !! k = Some VNil ->
  o !! k = None ->
  walkEntry o path k VNil = []
  /\ walkMap d o path ≡ₚ walkMap (delete k d) o path.
Proof.
  intros Hd Ho.
  assert (Hentry : walkEntry o path k VNil = []).
  { unfold walkEntry. by rewrite Ho. }
  split; [done|].
  rewrite !walkMap_foldr.
  rewrite (foldr_app_Permutation _ (map_to_list d)
             ((k, VNil) :: map_to_list (delete k d))).
  - simpl. by rewrite Hentry.
  - symmetry. by apply map_to_list_delete.
Qed.

Lemma walkMap_nil_desired_absent_witness :
  walkEntry ∅ "spec" "replicas" VNil = []
  /\ walkMap {[ "replicas" := VNil ]} ∅ "spec" ≡ₚ
     walkMap (delete "replicas" {[ "replicas" := VNil ]}) ∅ "spec".
Proof.
  apply (walkMap_nil_desired_absent {[ "replicas" := VNil ]} ∅ "replicas" "spec").
  - vm_compute. reflexivity.
  - vm_compute. reflexivity.
Defined.

(** ** Compare over the store *)

#[local] Instance preserved_refl : Reflexive preserved.
Proof. by intros σ l c. Qed.

#[local] Instance preserved_trans : Transitive preserved.
Proof. intros σ1 σ2 σ3 H12 H23 l c Hl. by apply H23, H12. Qed.

Lemma preserved_app σ ext : preserved σ (σ ++ ext).
Proof. intros l c Hl. by apply lookup_app_l_Some. Qed.

Lemma preserved_length σ σ' : preserved σ σ' -> length σ <= length σ'.
Proof.
  intros Hp. destruct (decide (length σ = 0)) as [->|Hne]; [lia|].
  destruct (lookup_lt_is_Some_2 σ (length σ - 1)) as [c Hc]; [lia|].
  apply Hp in Hc. apply lookup_lt_Some in Hc. lia.
Qed.

Lemma closed_above_length σ : closed_above (length σ) σ.
Proof.
  intros l c Hl Hc. apply lookup_lt_Some in Hc. lia.
Qed.

Lemma closed_above_snoc base σ c :
  closed_above base σ -> cell_above base c -> closed_above base (σ ++ [c]).
Proof.
  intros Hσ Hc l c' Hl Hl'.
  apply lookup_app_Some in Hl' as [Hl'|[Hge Hl']]; [by apply (Hσ l)|].
  destruct (l - length σ) as [|n]; [by inversion Hl'; subst|].
  by rewrite lookup_cons, lookup_nil in Hl'.
Qed.

Lemma copyEntries_copies copy m σ :
  (forall v σ1, copies val_above σ1 (copy v σ1)) ->
  copies (fun base clone => map_Forall (fun _ x => val_above base x) clone)
         σ (copyEntries copy m σ).
Proof.
  intros Hcopy. unfold copyEntries.
  apply (map_fold_weak_ind (fun r _ =>
    copies (fun base (clone : gmap string ival) =>
              map_Forall (fun _ x => val_above base x) clone) σ r)).
  - intros clone σ' [= <- <-]. split; [done|]. intros base _.
    split; [apply map_Forall_empty | done].
  - intros k v _ r _ IH clone' σ2 Heq.
    destruct r as [[clone σ1]|]; [simpl in Heq|done].
    destruct (copy v σ1) as [[v' σ2']|] eqn:Hv; [simpl in Heq|done].
    inversion Heq; subst; clear Heq.
    destruct (IH clone σ1 eq_refl) as [Hp1 Hb1].
    destruct (Hcopy v σ1 v' σ2 Hv) as [Hp2 Hb2].
    pose proof (preserved_length _ _ Hp1) as Hlen.
    split; [by etrans|]. intros base Hbase.
    destruct (Hb1 base Hbase) as [Hclone Hc1].
    destruct (Hb2 base ltac:(lia)) as [Hv' Hc2].
    split; [by apply map_Forall_insert_2 | auto].
Qed.

Lemma copyElems_copies copy xs σ :
  (forall v σ1, copies val_above σ1 (copy v σ1)) ->
  copies (fun base clone => Forall (val_above base) clone)
         σ (copyElems copy xs σ).
Proof.
  intros Hcopy. revert σ. induction xs as [|v xs IH]; intros σ; simpl.
  - intros clone σ' [= <- <-]. split; [done|]. intros base _. by split.
  - intros clone' σ2 Heq.
    destruct (copy v σ) as [[v' σ1]|] eqn:Hv; [simpl in Heq|done].
    destruct (copyElems copy xs σ1) as [[clone σ2']|] eqn:Hxs;
      [simpl in Heq|done].
    inversion Heq; subst; clear Heq.
    destruct (Hcopy v σ v' σ1 Hv) as [Hp1 Hb1].
    destruct (IH σ1 clone σ2 Hxs) as [Hp2 Hb2].
    pose proof (preserved_length _ _ Hp1) as Hlen.
    split; [by etrans|]. intros base Hbase.
    destruct (Hb1 base Hbase) as [Hv' Hc1].
    destruct (Hb2 base ltac:(lia)) as [Hclone Hc2].
    split; [by constructor | auto].
Qed.

Lemma DeepCopyJSONValue_copies fuel x σ :
  copies val_above σ (DeepCopyJSONValue fuel x σ).
Proof.
  revert x σ. induction fuel as [|n IH]; intros x σ x' σ' Heq.
  - destruct x; inversion Heq; subst; by repeat split.
  - destruct x; try (inversion Heq; subst; by repeat split); simpl in Heq.
    + destruct (σ !! l) as [[m|xs]|] eqn:Hl; try done.
      destruct (copyEntries (DeepCopyJSONValue n) m σ) as [[clone σ1]|] eqn:Hm;
        [simpl in Heq|done].
      inversion Heq; subst; clear Heq.
      destruct (copyEntries_copies _ m σ IH clone σ1 Hm) as [Hp Hb].
      pose proof (preserved_length _ _ Hp) as Hlen.
      split; [etrans; [done | apply preserved_app]|].
      intros base Hbase. destruct (Hb base Hbase) as [Hclone Hc].
      split; [simpl; lia|]. intros Hσ. apply closed_above_snoc; auto.
    + destruct (σ !! l) as [[m|xs]|] eqn:Hl; try done.
      destruct (copyElems (DeepCopyJSONValue n) xs σ) as [[clone σ1]|] eqn:Hm;
        [simpl in Heq|done].
      inversion Heq; subst; clear Heq.
      destruct (copyElems_copies _ xs σ IH clone σ1 Hm) as [Hp Hb].
      pose proof (preserved_length _ _ Hp) as Hlen.
      split; [etrans; [done | apply preserved_app]|].
      intros base Hbase. destruct (Hb base Hbase) as [Hclone Hc].
      split; [simpl; lia|]. intros Hσ. apply closed_above_snoc; auto.
Qed.

Lemma dropIfEmptyMapS_subseteq σ field (md : gmap string ival) :
  dropIfEmptyMapS σ field md ⊆ md.
Proof.
  unfold dropIfEmptyMapS. repeat case_match; try done. apply delete_subseteq.
Qed.

Lemma cleanMetadataMapS_subseteq σ (md : gmap string ival) :
  cleanMetadataMapS σ md ⊆ md.
Proof.
  unfold cleanMetadataMapS.
  etrans; [apply foldl_delete_subseteq|].
  etrans; apply dropIfEmptyMapS_subseteq.
Qed.

(** What [cleanMetadataS] does to the store: nothing, or it shrinks the map
    of one cell. *)
Lemma cleanMetadataS_cases obj σ :
  cleanMetadataS obj σ = σ
  \/ exists o ml md md',
       σ !! obj = Some (CMap o) /\ o !! "metadata" = Some (IMap ml)
       /\ σ !! ml = Some (CMap md) /\ md' ⊆ md
       /\ cleanMetadataS obj σ = <[ml := CMap md']> σ.
Proof.
  unfold cleanMetadataS.
  destruct (σ !! obj) as [[o|?]|] eqn:Ho; try by left.
  destruct (o !! "metadata") as [[]|] eqn:Hmeta; try by left.
  destruct (σ !! l) as [[md|?]|] eqn:Hmd; try by left.
  right. exists o, l, md, (cleanMetadataMapS σ md).
  repeat split; try done. apply cleanMetadataMapS_subseteq.
Qed.

Lemma map_Forall_subseteq {A} (P : string -> A -> Prop) (m1 m2 : gmap string A) :
  m1 ⊆ m2 -> map_Forall P m2 -> map_Forall P m1.
Proof.
  intros Hsub Hall k x Hk. apply Hall. by apply (lookup_weaken m1 m2).
Qed.

(** Cleaning an object that lies in a closed region keeps the cells below
    the region as they are, and the region closed. *)
Lemma cleanMetadataS_frame base obj σ :
  closed_above base σ -> base <= obj ->
  (forall l, l < base -> cleanMetadataS obj σ !! l = σ !! l)
  /\ closed_above base (cleanMetadataS obj σ).
Proof.
  intros Hc Hobj.
  destruct (cleanMetadataS_cases obj σ)
    as [->|(o & ml & md & md' & Ho & Hmeta & Hmd & Hsub & ->)]; [done|].
  assert (Hml : base <= ml).
  { apply (Hc obj _ Hobj) in Ho. by apply (Ho "metadata") in Hmeta. }
  split.
  - intros l Hl. apply list_lookup_insert_ne. lia.
  - intros l c Hl Hlc.
    apply list_lookup_insert_Some in Hlc as [(_ & <- & _)|(_ & Hlc)].
    + simpl. apply (map_Forall_subseteq _ md' md Hsub).
      by apply (Hc ml _ Hml) in Hmd.
    + by apply (Hc l).
Qed.

(** The cells that existed before [CompareS] are the same after it. *)
Lemma CompareS_frame fuel desired observed σ diffs σ' :
  CompareS fuel desired observed σ = Some (diffs, σ') ->
  preserved σ σ'.
Proof.
  unfold CompareS. intros Heq.
  destruct (DeepCopyJSONValue fuel (IMap desired) σ) as [[dc σ1]|] eqn:Hd;
    [simpl in Heq|done].
  destruct (DeepCopyJSONValue fuel (IMap observed) σ1) as [[oc σ2]|] eqn:Ho;
    [simpl in Heq|done].
  destruct dc as [| | | | | |dl|]; try done.
  destruct oc as [| | | | | |ol|]; try done.
  destruct (DeepCopyJSONValue_copies _ _ _ _ _ Hd) as [Hp1 Hb1].
  destruct (DeepCopyJSONValue_copies _ _ _ _ _ Ho) as [Hp2 Hb2].
  pose proof (preserved_length _ _ Hp1) as Hlen1.
  destruct (Hb1 (length σ) ltac:(lia)) as [Hdl Hc1].
  destruct (Hb2 (length σ) ltac:(lia)) as [Hol Hc2].
  simpl in Hdl, Hol.
  pose proof (Hc2 (Hc1 (closed_above_length σ))) as Hclosed2.
  destruct (cleanMetadataS_frame _ dl σ2 Hclosed2 Hdl) as [Hf3 Hclosed3].
  destruct (cleanMetadataS_frame _ ol _ Hclosed3 Hol) as [Hf4 _].
  destruct (reify fuel _ (IMap dl)); [simpl in Heq|done].
  destruct (reify fuel _ (IMap ol)); [simpl in Heq|done].
  inversion Heq; subst; clear Heq.
  intros l c Hl. pose proof (lookup_lt_Some _ _ _ Hl) as Hlt.
  rewrite Hf4, Hf3 by done. by apply Hp2, Hp1.
Qed.

(** *** The trees of the store *)

Lemma map_sequence_Some {A} (m : gmap string (option A)) (r : gmap string A) :
  map_sequence m = Some r <-> m = Some <$> r.
Proof.
  unfold map_sequence. split.
  - case_decide as Hall; [|done]. intros [= <-].
    apply map_eq. intros k. rewrite lookup_fmap, lookup_omap.
    destruct (m !! k) as [o|] eqn:Hk; [|done].
    destruct (Hall k o Hk) as [x ->]. done.
  - intros ->. rewrite decide_True.
    + f_equal. apply map_eq. intros k. rewrite lookup_omap, lookup_fmap.
      by destruct (r !! k).
    + intros k o. rewrite lookup_fmap. destruct (r !! k); naive_solver.
Qed.

Lemma map_sequence_is_Some {A} (m : gmap string (option A)) :
  is_Some (map_sequence m) <-> map_Forall (fun _ o => is_Some o) m.
Proof.
  unfold map_sequence. case_decide; split; done.
Qed.

Lemma reify_map_Some n σ l t :
  reify (S n) σ (IMap l) = Some t <->
  exists m r, σ !! l = Some (CMap m) /\ t = VMap r
              /\ reify n σ <$> m = Some <$> r.
Proof.
  simpl. split.
  - destruct (σ !! l) as [[m|?]|]; try done.
    destruct (map_sequence (reify n σ <$> m)) as [r|] eqn:Hr; [|done].
    intros [= <-]. exists m, r. by apply map_sequence_Some in Hr.
  - intros (m & r & -> & -> & Hr). apply map_sequence_Some in Hr.
    by rewrite Hr.
Qed.

Lemma reify_slice_Some n σ l t :
  reify (S n) σ (ISlice l) = Some t <->
  exists xs ts, σ !! l = Some (CSlice xs) /\ t = VSlice ts
                /\ Forall2 (fun x y => reify n σ x = Some y) xs ts.
Proof.
  simpl. split.
  - destruct (σ !! l) as [[?|xs]|]; try done.
    destruct (mapM (reify n σ) xs) as [ts|] eqn:Hr; [|done].
    intros [= <-]. exists xs, ts. by apply mapM_Some in Hr.
  - intros (xs & ts & -> & -> & Hr). apply mapM_Some in Hr. by rewrite Hr.
Qed.

(** A value keeps its tree when the cells of the store are preserved. *)
Lemma reify_preserved n σ σ' x t :
  preserved σ σ' -> reify n σ x = Some t -> reify n σ' x = Some t.
Proof.
  intros Hp. revert x t. induction n as [|n IH]; intros x t Hx.
  - by destruct x.
  - destruct x; try done.
    + apply reify_map_Some in Hx as (m & r & Hl & -> & Hr).
      apply reify_map_Some. exists m, r. split; [by apply Hp|]. split; [done|].
      apply map_eq. intros k.
      apply (f_equal (fun m' => m' !! k)) in Hr.
      rewrite !lookup_fmap in *.
      destruct (m !! k) as [v|]; simpl in *; [|done].
      destruct (r !! k) as [tv|]; simpl in *; [|done].
      f_equal. inversion Hr as [Hv]. rewrite Hv. f_equal. by apply IH.
    + apply reify_slice_Some in Hx as (xs & ts & Hl & -> & Hr).
      apply reify_slice_Some. exists xs, ts. split; [by apply Hp|].
      split; [done|]. eapply Forall2_impl; [done|]. intros ??. apply IH.
Qed.

Lemma reify_fmap_preserved n σ σ' (m : gmap string ival) (r : gmap string value) :
  preserved σ σ' ->
  reify n σ <$> m = Some <$> r -> reify n σ' <$> m = Some <$> r.
Proof.
  intros Hp Hr. apply map_eq. intros k.
  apply (f_equal (fun m' => m' !! k)) in Hr. rewrite !lookup_fmap in *.
  destruct (m !! k) as [v|]; simpl in *; [|done].
  destruct (r !! k) as [tv|]; simpl in *; [|done].
  inversion Hr as [Hv]. rewrite Hv. f_equal.
  by apply (reify_preserved n σ σ').
Qed.

Lemma DeepCopyJSONValue_map_inv n l σ x' σ' :
  DeepCopyJSONValue n (IMap l) σ = Some (x', σ') -> exists l', x' = IMap l'.
Proof.
  destruct n as [|n]; simpl; [done|].
  destruct (σ !! l) as [[m|?]|]; try done.
  destruct (copyEntries _ m σ) as [[clone σ1]|]; simpl; [|done].
  intros [= <- <-]. eauto.
Qed.

Lemma copyEntries_reify n copy (m : gmap string ival) σ :
  (forall x σ1 t, reify n σ1 x = Some t ->
     exists x' σ2, copy x σ1 = Some (x', σ2) /\ preserved σ1 σ2
                   /\ reify n σ2 x' = Some t) ->
  forall r : gmap string value,
    reify n σ <$> m = Some <$> r ->
    exists clone σ1, copyEntries copy m σ = Some (clone, σ1)
                     /\ preserved σ σ1
                     /\ reify n σ1 <$> clone = Some <$> r.
Proof.
  intros Hcopy. unfold copyEntries.
  apply (map_fold_weak_ind (fun acc (m' : gmap string ival) =>
    forall r : gmap string value,
      reify n σ <$> m' = Some <$> r ->
      exists clone σ1, acc = Some (clone, σ1) /\ preserved σ σ1
                       /\ reify n σ1 <$> clone = Some <$> r)).
  - intros r Hr. exists ∅, σ. split; [done|]. split; [done|].
    by rewrite fmap_empty in *.
  - intros i x m' acc Hi IH r Hr.
    assert (Hx : exists tx, r !! i = Some tx /\ reify n σ x = Some tx).
    { apply (f_equal (fun m0 => m0 !! i)) in Hr.
      rewrite lookup_fmap, lookup_insert_eq, lookup_fmap in Hr. simpl in Hr.
      destruct (r !! i) as [tx|]; [|done]. inversion Hr. eauto. }
    destruct Hx as (tx & Hri & Hx).
    destruct (IH (delete i r)) as (clone & σ1 & -> & Hp1 & Hclone).
    { rewrite fmap_delete, <- Hr, fmap_insert, delete_insert_eq.
      symmetry. apply delete_id. by rewrite lookup_fmap, Hi. }
    destruct (Hcopy x σ1 tx) as (x' & σ2 & Hcx & Hp2 & Hx');
      [by apply (reify_preserved n σ σ1)|].
    exists (<[i := x']> clone), σ2. simpl. rewrite Hcx. simpl.
    split; [done|]. split; [by etrans|].
    rewrite fmap_insert, Hx'.
    rewrite (reify_fmap_preserved n σ1 σ2 clone (delete i r)) by done.
    rewrite <- fmap_insert. by rewrite insert_delete_id.
Qed.

Lemma copyElems_reify n copy xs σ ts :
  (forall x σ1 t, reify n σ1 x = Some t ->
     exists x' σ2, copy x σ1 = Some (x', σ2) /\ preserved σ1 σ2
                   /\ reify n σ2 x' = Some t) ->
  Forall2 (fun x y => reify n σ x = Some y) xs ts ->
  exists clone σ1, copyElems copy xs σ = Some (clone, σ1)
                   /\ preserved σ σ1
                   /\ Forall2 (fun x y => reify n σ1 x = Some y) clone ts.
Proof.
  intros Hcopy Hall. revert σ Hall.
  induction xs as [|x xs IH] in ts |- *; intros σ Hall.
  - inversion Hall; subst. exists [], σ. by repeat split.
  - inversion Hall as [|? t ? ts' Hx Hxs]; subst.
    destruct (Hcopy x σ t Hx) as (x' & σ1 & Hcx & Hp1 & Hx').
    destruct (IH ts' σ1) as (clone & σ2 & Hcxs & Hp2 & Hclone).
    { eapply Forall2_impl; [done|]. intros ??. by apply reify_preserved. }
    exists (x' :: clone), σ2. simpl. rewrite Hcx. simpl. rewrite Hcxs. simpl.
    split; [done|]. split; [by etrans|].
    constructor; [by apply (reify_preserved n σ1 σ2) | done].
Qed.

(** The deep copy of a value that denotes a tree returns, and the copy
    denotes the same tree. *)
Lemma DeepCopyJSONValue_reify n x σ t :
  reify n σ x = Some t ->
  exists x' σ', DeepCopyJSONValue n x σ = Some (x', σ')
                /\ preserved σ σ' /\ reify n σ' x' = Some t.
Proof.
  revert x σ t. induction n as [|n IH]; intros x σ t Hx.
  - destruct x; try done; eexists _, σ; by repeat split.
  - destruct x; try (eexists _, σ; by repeat split).
    + apply reify_map_Some in Hx as (m & r & Hl & -> & Hr).
      destruct (copyEntries_reify n (DeepCopyJSONValue n) m σ IH r Hr)
        as (clone & σ1 & Hcopy & Hp & Hclone).
      exists (IMap (length σ1)), (σ1 ++ [CMap clone]).
      simpl. rewrite Hl, Hcopy. simpl. split; [done|].
      split; [etrans; [done | apply preserved_app]|].
      change (reify (S n) (σ1 ++ [CMap clone]) (IMap (length σ1))
              = Some (VMap r)).
      apply reify_map_Some. exists clone, r.
      split; [by apply list_lookup_middle|]. split; [done|].
      apply (reify_fmap_preserved n σ1); [apply preserved_app | done].
    + apply reify_slice_Some in Hx as (xs & ts & Hl & -> & Hr).
      destruct (copyElems_reify n (DeepCopyJSONValue n) xs σ ts IH Hr)
        as (clone & σ1 & Hcopy & Hp & Hclone).
      exists (ISlice (length σ1)), (σ1 ++ [CSlice clone]).
      simpl. rewrite Hl, Hcopy. simpl. split; [done|].
      split; [etrans; [done | apply preserved_app]|].
      change (reify (S n) (σ1 ++ [CSlice clone]) (ISlice (length σ1))
              = Some (VSlice ts)).
      apply reify_slice_Some. exists clone, ts.
      split; [by apply list_lookup_middle|]. split; [done|].
      eapply Forall2_impl; [done|]. intros ??.
      apply reify_preserved, preserved_app.
Qed.

(** ** The store and the trees agree on the differences *)

Lemma agree_weaken lo hi lo' hi' σ σ' :
  agree lo hi σ σ' -> lo <= lo' -> hi' <= hi -> agree lo' hi' σ σ'.
Proof. intros Ha Hlo Hhi l Hl. apply Ha. lia. Qed.

Lemma agree_sym lo hi σ σ' : agree lo hi σ σ' -> agree lo hi σ' σ.
Proof. intros Ha l Hl. symmetry. by apply Ha. Qed.

Lemma agree_trans lo hi σ1 σ2 σ3 :
  agree lo hi σ1 σ2 -> agree lo hi σ2 σ3 -> agree lo hi σ1 σ3.
Proof. intros H12 H23 l Hl. rewrite (H23 l Hl). by apply H12. Qed.

Lemma preserved_agree lo σ σ' : preserved σ σ' -> agree lo (length σ) σ σ'.
Proof.
  intros Hp l [_ Hl]. destruct (lookup_lt_is_Some_2 σ l Hl) as [c Hc].
  rewrite Hc. by apply Hp.
Qed.

Lemma confined_weaken lo hi lo' hi' σ x :
  confined lo' hi' σ x -> lo <= lo' -> hi' <= hi -> confined lo hi σ x.
Proof.
  intros Hc Hlo Hhi n σ' Ha. apply Hc. by apply (agree_weaken lo hi).
Qed.

Lemma confined_transport lo hi σ σ' x :
  confined lo hi σ x -> agree lo hi σ σ' -> confined lo hi σ' x.
Proof.
  intros Hc Ha n σ'' Ha'. rewrite (Hc n σ' Ha).
  apply Hc. by apply (agree_trans lo hi σ σ').
Qed.

Lemma confined_scalar lo hi σ x :
  match x with IMap _ | ISlice _ => False | _ => True end ->
  confined lo hi σ x.
Proof. intros Hx n σ' _. destruct x; try done; by destruct n. Qed.

Lemma confined_map lo hi σ l m :
  lo <= l < hi -> σ !! l = Some (CMap m) ->
  (forall k v, m !! k = Some v -> confined lo hi σ v) ->
  confined lo hi σ (IMap l).
Proof.
  intros Hl Hm Hall n σ' Ha. destruct n as [|n]; [done|]. simpl.
  rewrite (Ha l Hl), Hm. do 2 f_equal.
  apply map_eq. intros k. rewrite !lookup_fmap.
  destruct (m !! k) as [v|] eqn:Hk; [simpl|done].
  f_equal. by apply (Hall k v Hk).
Qed.

Lemma confined_slice lo hi σ l xs :
  lo <= l < hi -> σ !! l = Some (CSlice xs) ->
  Forall (confined lo hi σ) xs ->
  confined lo hi σ (ISlice l).
Proof.
  intros Hl Hxs Hall n σ' Ha. destruct n as [|n]; [done|]. simpl.
  rewrite (Ha l Hl), Hxs. f_equal.
  clear Hxs. induction Hall as [|x xs' Hx _ IH]; [done|].
  simpl. by rewrite (Hx n σ' Ha), IH.
Qed.

Lemma separated_transport lo hi σ σ' clone :
  separated lo hi σ clone -> preserved σ σ' -> hi <= length σ ->
  separated lo hi σ' clone.
Proof.
  intros Hsep Hp Hhi k v Hk.
  destruct (Hsep k v Hk) as (s & e & Hs & He & Hconf & Hothers & Hroot).
  assert (Hagree : agree s e σ σ').
  { apply (agree_weaken 0 (length σ)); [by apply preserved_agree | lia | lia]. }
  exists s, e. split; [done|]. split; [done|].
  split; [by apply (confined_transport s e σ)|]. split; [done|].
  intros l Hl. destruct (Hroot l Hl) as (Hrange & m & Hm & Hmembers).
  split; [done|]. exists m. split; [by apply Hp|].
  intros k2 v2 Hk2. apply (confined_transport s l σ); [by apply (Hmembers k2)|].
  apply (agree_weaken s e); [done | lia | lia].
Qed.

Lemma copyEntries_separated copy m σ :
  (forall v σ1 v' σ2, copy v σ1 = Some (v', σ2) ->
     preserved σ1 σ2 /\ copied (length σ1) σ2 v') ->
  forall clone σ1,
    copyEntries copy m σ = Some (clone, σ1) ->
    preserved σ σ1 /\ separated (length σ) (length σ1) σ1 clone.
Proof.
  intros Hcopy. unfold copyEntries.
  apply (map_fold_weak_ind (fun acc (_ : gmap string ival) =>
    forall clone σ1, acc = Some (clone, σ1) ->
      preserved σ σ1 /\ separated (length σ) (length σ1) σ1 clone)).
  - intros clone σ1 [= <- <-]. split; [done|]. intros k v Hk.
    by rewrite lookup_empty in Hk.
  - intros i x _ acc _ IH clone' σ2 Heq.
    destruct acc as [[clone σ1]|]; [simpl in Heq|done].
    destruct (copy x σ1) as [[v' σ2']|] eqn:Hx; [simpl in Heq|done].
    inversion Heq; subst; clear Heq.
    destruct (IH clone σ1 eq_refl) as [Hp1 Hsep].
    destruct (Hcopy x σ1 v' σ2 Hx) as [Hp2 [Hconf' Hroot']].
    pose proof (preserved_length _ _ Hp1) as Hlen1.
    pose proof (preserved_length _ _ Hp2) as Hlen2.
    split; [by etrans|]. intros k v Hk.
    destruct (decide (k = i)) as [->|Hne].
    + rewrite lookup_insert_eq in Hk. inversion Hk; subst v; clear Hk.
      exists (length σ1), (length σ2). split; [done|]. split; [done|].
      split; [done|]. split.
      * intros k' l' Hk' Hl'. rewrite lookup_insert_ne in Hl' by done.
        destruct (Hsep k' _ Hl') as (s' & e' & _ & He' & _ & _ & Hr).
        destruct (Hr l' eq_refl) as [? _]. lia.
      * intros l ->. destruct (Hroot' l eq_refl) as (Hl & HSl & c' & Hc' & Hsep').
        split; [lia|]. exists c'. split; [done|]. intros k2 v2 Hk2.
        destruct (Hsep' k2 v2 Hk2) as (s2 & e2 & Hs2 & He2 & Hconf2 & _).
        by apply (confined_weaken _ _ s2 e2).
    + rewrite lookup_insert_ne in Hk by done.
      destruct (separated_transport _ _ σ1 σ2 clone Hsep Hp2 (le_n _) k v Hk)
        as (s & e & Hs & He & Hconf & Hothers & Hroot).
      exists s, e. split; [done|]. split; [lia|]. split; [done|].
      split; [|done]. intros k' l' Hk' Hl'.
      destruct (decide (k' = i)) as [->|Hne'].
      * rewrite lookup_insert_eq in Hl'. inversion Hl' as [Hv'].
        destruct (Hroot' l' Hv') as (Hge & _). lia.
      * rewrite lookup_insert_ne in Hl' by done. by apply (Hothers k').
Qed.

Lemma copyElems_confined copy xs σ :
  (forall v σ1 v' σ2, copy v σ1 = Some (v', σ2) ->
     preserved σ1 σ2 /\ copied (length σ1) σ2 v') ->
  forall clone σ1,
    copyElems copy xs σ = Some (clone, σ1) ->
    preserved σ σ1 /\ Forall (confined (length σ) (length σ1) σ1) clone.
Proof.
  intros Hcopy. revert σ.
  induction xs as [|x xs IH]; intros σ clone' σ2; simpl.
  - intros [= <- <-]. by split.
  - destruct (copy x σ) as [[v' σ1]|] eqn:Hx; [simpl|done].
    destruct (copyElems copy xs σ1) as [[clone σ2']|] eqn:Hxs; [simpl|done].
    intros [= <- <-].
    destruct (Hcopy x σ v' σ1 Hx) as [Hp1 [Hconf _]].
    destruct (IH σ1 clone σ2' Hxs) as [Hp2 Hall].
    pose proof (preserved_length _ _ Hp1) as Hlen1.
    pose proof (preserved_length _ _ Hp2) as Hlen2.
    split; [by etrans|]. constructor.
    + apply (confined_weaken _ _ (length σ) (length σ1)); [|lia|lia].
      apply (confined_transport _ _ σ1); [done|].
      by apply preserved_agree.
    + eapply Forall_impl; [done|]. intros v Hv.
      by apply (confined_weaken _ _ (length σ1) (length σ2')); [|lia|lia].
Qed.

Lemma DeepCopyJSONValue_copied n x σ x' σ' :
  DeepCopyJSONValue n x σ = Some (x', σ') ->
  preserved σ σ' /\ copied (length σ) σ' x'.
Proof.
  revert x σ x' σ'. induction n as [|n IH]; intros x σ x' σ' Heq.
  - destruct x; inversion Heq; subst; (split; [done|]);
      (split; [by apply confined_scalar | done]).
  - destruct x;
      try (inversion Heq; subst; (split; [done|]);
           (split; [by apply confined_scalar | done])); simpl in Heq.
    + destruct (σ !! l) as [[m|?]|]; try done.
      destruct (copyEntries _ m σ) as [[clone σ1]|] eqn:Hm; [simpl in Heq|done].
      inversion Heq; subst; clear Heq.
      destruct (copyEntries_separated _ m σ IH clone σ1 Hm) as [Hp Hsep].
      pose proof (preserved_length _ _ Hp) as Hlen.
      assert (Hsep' : separated (length σ) (length σ1) (σ1 ++ [CMap clone]) clone).
      { apply (separated_transport _ _ σ1); [done | apply preserved_app | done]. }
      split; [etrans; [done | apply preserved_app]|].
      unfold copied. rewrite length_app. simpl. split.
      * apply (confined_map _ _ _ _ clone); [lia | by apply list_lookup_middle|].
        intros k v Hk.
        destruct (Hsep' k v Hk) as (s & e & Hs & He & Hconf & _).
        apply (confined_weaken _ _ s e); [done | lia | lia].
      * intros l0 [= <-]. split; [done|]. split; [lia|].
        exists clone. split; [by apply list_lookup_middle | done].
    + destruct (σ !! l) as [[?|xs]|]; try done.
      destruct (copyElems _ xs σ) as [[clone σ1]|] eqn:Hm; [simpl in Heq|done].
      inversion Heq; subst; clear Heq.
      destruct (copyElems_confined _ xs σ IH clone σ1 Hm) as [Hp Hall].
      pose proof (preserved_length _ _ Hp) as Hlen.
      split; [etrans; [done | apply preserved_app]|].
      unfold copied. rewrite length_app. simpl. split; [|done].
      apply (confined_slice _ _ _ _ clone); [lia | by apply list_lookup_middle|].
      eapply Forall_impl; [done|]. intros v Hv.
      apply (confined_weaken _ _ (length σ) (length σ1)); [|lia|lia].
      apply (confined_transport _ _ σ1); [done|].
      apply preserved_agree, preserved_app.
Qed.

Lemma fmap_reify_lookup n σ (m : gmap string ival) (r : gmap string value) k :
  reify n σ <$> m = Some <$> r ->
  match m !! k with
  | Some v => exists t, r !! k = Some t /\ reify n σ v = Some t
  | None => r !! k = None
  end.
Proof.
  intros Hr. apply (f_equal (fun m0 => m0 !! k)) in Hr.
  rewrite !lookup_fmap in Hr.
  destruct (m !! k) as [v|]; destruct (r !! k) as [t|]; simpl in Hr; try done.
  exists t. split; [done | congruence].
Qed.

Lemma reify_not_map n σ v t :
  match v with IMap _ => False | _ => True end ->
  reify n σ v = Some t ->
  match t with VMap _ => False | _ => True end.
Proof.
  intros Hv. destruct v; try done; try (destruct n; simpl; by intros [= <-]).
  destruct n as [|n]; [done|]. intros Ht.
  by apply reify_slice_Some in Ht as (xs & ts & _ & -> & _).
Qed.

Lemma dropIfEmptyMap_commute n σ field md rmd :
  reify n σ <$> md = Some <$> rmd ->
  reify n σ <$> dropIfEmptyMapS σ field md
  = Some <$> dropIfEmptyMap field rmd.
Proof.
  intros Hr. pose proof (fmap_reify_lookup n σ md rmd field Hr) as Hf.
  unfold dropIfEmptyMapS, dropIfEmptyMap.
  destruct (md !! field) as [v|] eqn:Hv; [|by rewrite Hf].
  destruct Hf as (t & Ht & Hvt). rewrite Ht.
  destruct v; try (apply reify_not_map in Hvt; [by destruct t | done]).
  destruct n as [|n]; [by simpl in Hvt|].
  apply reify_map_Some in Hvt as (am & ra & Ham & -> & Hra). rewrite Ham.
  assert (Hsize : size am = size ra).
  { by rewrite <- (map_size_fmap (reify n σ) am), Hra, map_size_fmap. }
  rewrite Hsize. destruct (decide (size ra = 0)); [|done].
  by rewrite !fmap_delete, Hr.
Qed.

Lemma foldl_delete_fmap {A B} (f : A -> B) (fs : list string) (m : gmap string A) :
  f <$> foldl (fun m field => delete field m) m fs =
  foldl (fun m field => delete field m) (f <$> m) fs.
Proof.
  revert m. induction fs as [|a fs IH]; intros m; simpl; [done|].
  by rewrite IH, fmap_delete.
Qed.

(** Cleaning the cell of a metadata map is cleaning the tree it denotes. *)
Lemma cleanMetadataMap_commute n σ md rmd :
  reify n σ <$> md = Some <$> rmd ->
  reify n σ <$> cleanMetadataMapS σ md = Some <$> cleanMetadataMap rmd.
Proof.
  intros Hr. unfold cleanMetadataMapS, cleanMetadataMap.
  rewrite !foldl_delete_fmap. f_equal.
  by do 2 apply dropIfEmptyMap_commute.
Qed.

Lemma fmap_reify_ext n σ σ' (m : gmap string ival) :
  (forall k v, m !! k = Some v -> reify n σ' v = reify n σ v) ->
  reify n σ' <$> m = reify n σ <$> m.
Proof.
  intros Hall. apply map_eq. intros k. rewrite !lookup_fmap.
  destruct (m !! k) as [v|] eqn:Hk; [simpl|done]. f_equal. by apply (Hall k).
Qed.

(** Cleaning a copied object in the store gives it the cleaned tree, in
    every store that then holds the same cells from [lo] up to the object. *)
Lemma cleanMetadataS_reify lo τ τ' l0 c0 n r :
  lo <= l0 ->
  τ !! l0 = Some (CMap c0) ->
  separated lo l0 τ c0 ->
  reify (S n) τ (IMap l0) = Some (VMap r) ->
  agree lo (S l0) (cleanMetadataS l0 τ) τ' ->
  reify (S n) τ' (IMap l0) = Some (VMap (cleanMetadata r)).
Proof.
  intros Hlo Hl0 Hsep Hreify Hagree.
  apply reify_map_Some in Hreify as (m & r' & Hm & [= <-] & Hr).
  assert (m = c0) as -> by congruence. clear Hm.
  pose proof (fmap_reify_lookup n τ c0 r "metadata" Hr) as Hmeta.
  assert (Hmember : forall k v, c0 !! k = Some v -> confined lo l0 τ v).
  { intros k v Hk. destruct (Hsep k v Hk) as (s & e & Hs & He & Hconf & _).
    by apply (confined_weaken _ _ s e). }
  assert (Hsame : forall v,
    c0 !! "metadata" = v ->
    match v with Some (IMap _) => False | _ => True end ->
    reify (S n) τ' (IMap l0) = Some (VMap (cleanMetadata r))).
  { intros v Hv Hnot.
    assert (Hτ : cleanMetadataS l0 τ = τ).
    { unfold cleanMetadataS. rewrite Hl0, Hv. by destruct v as [[]|]. }
    assert (Hr' : cleanMetadata r = r).
    { unfold cleanMetadata. rewrite Hv in Hmeta.
      destruct v as [v|]; [|by rewrite Hmeta].
      destruct Hmeta as (t & -> & Ht).
      assert (Hv' : match v with IMap _ => False | _ => True end)
        by (by destruct v).
      pose proof (reify_not_map n τ v t Hv' Ht). by destruct t. }
    rewrite Hτ in Hagree. rewrite Hr'.
    assert (Hconf : confined lo (S l0) τ (IMap l0)).
    { apply (confined_map _ _ _ _ c0); [lia | done|].
      intros k v' Hk. apply (confined_weaken _ _ lo l0); [by eapply Hmember|..];
        lia. }
    rewrite (Hconf (S n) τ' Hagree).
    apply reify_map_Some. by exists c0, r. }
  destruct (c0 !! "metadata") as [vm|] eqn:Hvm; [|by apply (Hsame None)].
  destruct vm as [| | | | | |ml|]; try (by apply (Hsame _ eq_refl)).
  clear Hsame. destruct Hmeta as (tm & Hrm & Htm).
  destruct n as [|n]; [by simpl in Htm|].
  apply reify_map_Some in Htm as (md & rmd & Hmd & -> & Hrmd).
  destruct (Hsep "metadata" _ Hvm) as (s & e & Hs & He & _ & _ & Hroot).
  destruct (Hroot ml eq_refl) as (Hml & md' & Hmd' & Hgrand).
  assert (md' = md) as -> by congruence. clear Hmd'.
  assert (Hclean : cleanMetadataS l0 τ
                   = <[ml := CMap (cleanMetadataMapS τ md)]> τ).
  { unfold cleanMetadataS. by rewrite Hl0, Hvm, Hmd. }
  assert (Hr' : cleanMetadata r
                = <["metadata" := VMap (cleanMetadataMap rmd)]> r).
  { unfold cleanMetadata. by rewrite Hrm. }
  rewrite Hclean in Hagree. rewrite Hr'.
  assert (Hother : forall l, lo <= l < S l0 -> l ≠ ml -> τ' !! l = τ !! l).
  { intros l Hl Hne. rewrite (Hagree l Hl). by apply list_lookup_insert_ne. }
  apply reify_map_Some. exists c0, (<["metadata" := VMap (cleanMetadataMap rmd)]> r).
  split; [rewrite Hother by lia; done|]. split; [done|].
  apply map_eq. intros k. destruct (decide (k = "metadata")) as [->|Hne].
  - rewrite !lookup_fmap, Hvm, lookup_insert_eq. simpl. f_equal.
    apply reify_map_Some.
    exists (cleanMetadataMapS τ md), (cleanMetadataMap rmd).
    split.
    { rewrite (Hagree ml) by lia. apply list_lookup_insert_eq.
      by eapply lookup_lt_Some. }
    split; [done|].
    rewrite <- (cleanMetadataMap_commute n τ md rmd Hrmd).
    apply fmap_reify_ext. intros k2 v2 Hk2.
    apply (Hgrand k2 v2).
    { by apply (lookup_weaken _ _ _ _ Hk2), cleanMetadataMapS_subseteq. }
    intros l Hl. apply Hother; lia.
  - rewrite fmap_insert, lookup_insert_ne by done. rewrite <- Hr.
    rewrite !lookup_fmap.
    destruct (c0 !! k) as [v|] eqn:Hk; [|done].
    destruct (Hsep k v Hk) as (sk & ek & Hsk & Hek & Hconf & Hothers & _).
    assert (Heq : reify (S n) τ' v = reify (S n) τ v).
    { apply Hconf. intros l Hl. apply Hother; [lia|].
      intros ->. by apply (Hothers "metadata" ml). }
    simpl. f_equal. exact Heq.
Qed.

Lemma separated_agree lo hi σ σ' clone :
  separated lo hi σ clone -> agree lo hi σ σ' -> separated lo hi σ' clone.
Proof.
  intros Hsep Hagree k v Hk.
  destruct (Hsep k v Hk) as (s & e & Hs & He & Hconf & Hothers & Hroot).
  exists s, e. split; [done|]. split; [done|].
  split; [apply (confined_transport s e σ); [done|];
          by apply (agree_weaken lo hi)|].
  split; [done|].
  intros l Hl. destruct (Hroot l Hl) as (Hrange & m & Hm & Hmembers).
  split; [done|]. exists m. split; [rewrite Hagree; [done | lia]|].
  intros k2 v2 Hk2. apply (confined_transport s l σ); [by apply (Hmembers k2)|].
  apply (agree_weaken lo hi); [done | lia | lia].
Qed.

(** [cleanMetadataS] writes to the metadata cell of the object, if to any. *)
Lemma cleanMetadataS_elsewhere obj σ l :
  (forall o, σ !! obj = Some (CMap o) -> o !! "metadata" ≠ Some (IMap l)) ->
  cleanMetadataS obj σ !! l = σ !! l.
Proof.
  intros Hnot.
  destruct (cleanMetadataS_cases obj σ)
    as [->|(o & ml & md & md' & Ho & Hmeta & _ & _ & ->)]; [done|].
  apply list_lookup_insert_ne. intros ->. by apply (Hnot o).
Qed.

Lemma separated_metadata_root lo hi σ clone l :
  separated lo hi σ clone -> clone !! "metadata" = Some (IMap l) ->
  lo <= l < hi.
Proof.
  intros Hsep Hl. destruct (Hsep _ _ Hl) as (s & e & Hs & He & _ & _ & Hroot).
  destruct (Hroot l eq_refl) as [? _]. lia.
Qed.

(** The differences that [CompareS] returns are those of [Compare] on the
    trees of the two objects. *)
Lemma CompareS_Compare (fuel : nat) (desired observed : loc) (σ : store)
    (td to : gmap string value) :
  reify fuel σ (IMap desired) = Some (VMap td) ->
  reify fuel σ (IMap observed) = Some (VMap to) ->
  exists σ', CompareS fuel desired observed σ = Some ((Compare td to).1, σ').
Proof.
  intros Hd Ho. destruct fuel as [|n]; [done|]. unfold CompareS.
  destruct (DeepCopyJSONValue_reify _ _ _ _ Hd) as (dc & σ1 & Hcd & Hp1 & Hdc).
  destruct (DeepCopyJSONValue_map_inv _ _ _ _ _ Hcd) as [dl ->].
  destruct (DeepCopyJSONValue_copied _ _ _ _ _ Hcd) as [_ [_ Hrootd]].
  destruct (Hrootd dl eq_refl) as (Hdl & HSdl & cd & Hcd' & Hsepd).
  rewrite Hcd. cbn -[DeepCopyJSONValue reify].
  destruct (DeepCopyJSONValue_reify (S n) (IMap observed) σ1 (VMap to))
    as (oc & σ2 & Hco & Hp2 & Hoc); [by apply (reify_preserved (S n) σ)|].
  destruct (DeepCopyJSONValue_map_inv _ _ _ _ _ Hco) as [ol ->].
  destruct (DeepCopyJSONValue_copied _ _ _ _ _ Hco) as [_ [Hconfo Hrooto]].
  destruct (Hrooto ol eq_refl) as (Hol & HSol & co & Hco' & Hsepo).
  rewrite Hco. cbn -[DeepCopyJSONValue reify].
  set (σ3 := cleanMetadataS dl σ2). set (σ4 := cleanMetadataS ol σ3).
  (* the first cleaning writes below the second copy *)
  assert (H23 : forall l, length σ1 <= l -> σ3 !! l = σ2 !! l).
  { intros l Hl. apply cleanMetadataS_elsewhere. intros o Ho' Hmeta.
    assert (o = cd) as -> by (apply Hp2 in Hcd'; congruence).
    pose proof (separated_metadata_root _ _ _ _ _ Hsepd Hmeta). lia. }
  (* the second cleaning writes above the first copy *)
  assert (H34 : forall l, l < length σ1 -> σ4 !! l = σ3 !! l).
  { intros l Hl. apply cleanMetadataS_elsewhere. intros o Ho' Hmeta.
    rewrite H23 in Ho' by lia.
    assert (o = co) as -> by congruence.
    pose proof (separated_metadata_root _ _ _ _ _ Hsepo Hmeta). lia. }
  assert (Hd4 : reify (S n) σ4 (IMap dl) = Some (VMap (cleanMetadata td))).
  { apply (cleanMetadataS_reify (length σ) σ2 σ4 dl cd); try done.
    - by apply Hp2.
    - apply (separated_transport _ _ σ1); [done | done | lia].
    - by apply (reify_preserved (S n) σ1).
    - intros l Hl. apply H34. lia. }
  assert (Ho4 : reify (S n) σ4 (IMap ol) = Some (VMap (cleanMetadata to))).
  { apply (cleanMetadataS_reify (length σ1) σ3 σ4 ol co); try done.
    - by rewrite H23 by lia.
    - apply (separated_agree _ _ σ2); [done|].
      intros l Hl. apply H23. lia.
    - rewrite <- Hoc. apply Hconfo. intros l Hl. apply H23. lia. }
  rewrite Hd4, Ho4. by eexists.
Qed.

(** Comparing the object with itself: no difference; the two cells of the
    object are as they were, [uid] included; the four new cells are the two
    copies, from whose metadata [uid] is gone. *)
Example CompareS_sample :
  CompareS 2 1 1 sampleStore =
    Some ([], sampleStore ++
              [ CMap (list_to_map [("name", IString "m-a")]);
                CMap (list_to_map [("kind", IString "ConfigMap");
                                   ("metadata", IMap 2)]);
                CMap (list_to_map [("name", IString "m-a")]);
                CMap (list_to_map [("kind", IString "ConfigMap");
                                   ("metadata", IMap 4)]) ]).
Proof. vm_compute. reflexivity. Qed.

(** C10. [Compare] leaves its two arguments as they are: whenever the call
    returns, every map and slice that existed before the call holds what it
    held, so every value denotes the tree it denoted, server-managed metadata
    included. And the call does return on objects that denote trees, with the
    differences of [Compare] on these trees: the metadata is stripped, but
    in the copies. *)
Theorem CompareS_leaves_arguments (fuel : nat) (desired observed : loc)
    (σ : store) :
  (forall diffs σ',
     CompareS fuel desired observed σ = Some (diffs, σ') ->
     (forall l c, σ !! l = Some c -> σ' !! l = Some c)
     /\ (forall n x t, reify n σ x = Some t -> reify n σ' x = Some t))
  /\ (forall td to,
        reify fuel σ (IMap desired) = Some (VMap td) ->
        reify fuel σ (IMap observed) = Some (VMap to) ->
        exists σ',
          CompareS fuel desired observed σ = Some ((Compare td to).1, σ')).
Proof.
  split.
  - intros diffs σ' Hc. pose proof (CompareS_frame _ _ _ _ _ _ Hc) as Hp.
    split; [exact Hp|]. intros n x t. by apply reify_preserved.
  - intros td to. apply CompareS_Compare.
Qed.

(** ** The schema of a resource declaration *)

Example externalRef_with_namespace_valid :
  validResource externalRefWithNamespace = true.
Proof. vm_compute. reflexivity. Qed.

(** C7, on the code: the schema lists [namespace] among the required
    properties of [externalRef.metadata], so the API server rejects a resource
    whose external reference gives only apiVersion, kind and name. *)
Theorem externalRef_without_namespace_rejected :
  validate externalRefMetadataSchema
           (VMap (list_to_map [("name", VString "my-config")])) = false
  /\ validResource externalRefWithoutNamespace = false.
Proof. split; vm_compute; reflexivity. Qed.

(** ** Markers *)

Section Markers.
Context `{GoStd}.

Lemma applyMarkers_single schema marker key parent :
  applyMarkers schema [marker] key parent = applyMarker schema marker key parent.
Proof.
  simpl. by destruct (applyMarker schema marker key parent) as [[? ?]|].
Qed.

(** The sibling markers check the type of the field first. *)
Lemma applyMarkers_minLength_type schema value key parent :
  schema.(Type_) ≠ "string" ->
  applyMarkers schema [mkMarker MarkerTypeMinLength "minLength" value] key parent
  = Err (ErrMinLengthType schema.(Type_)).
Proof.
  intros Hty. rewrite applyMarkers_single. unfold applyMarker. simpl.
  by rewrite (proj2 (String.eqb_neq _ _) Hty).
Qed.

Lemma applyMarkers_uniqueItems_type schema value key parent :
  schema.(Type_) ≠ "array" ->
  is_ok (applyMarkers schema
           [mkMarker MarkerTypeUniqueItems "uniqueItems" value] key parent)
  = false.
Proof.
  intros Hty. rewrite applyMarkers_single. unfold applyMarker. simpl.
  destruct (ParseBool value); [|done].
  by rewrite (proj2 (String.eqb_neq _ _) Hty).
Qed.

(** C2, on the code: [applyMarkers] never looks at the type of the field for
    a [minimum] or [maximum] marker. Whatever the type, the marker is applied
    as soon as its value parses as a float. *)
Theorem applyMarkers_minimum_maximum_ignore_type
    (schema : JSONSchemaProps) (value key : string) (parent : JSONSchemaProps) :
  applyMarkers schema [mkMarker MarkerTypeMinimum "minimum" value] key parent
  = match ParseFloat value with
    | Some bound => Ok (setMinimum (Some bound) schema, parent)
    | None => Err ErrParseMinimum
    end
  /\ applyMarkers schema [mkMarker MarkerTypeMaximum "maximum" value] key parent
     = match ParseFloat value with
       | Some bound => Ok (setMaximum (Some bound) schema, parent)
       | None => Err ErrParseMaximum
       end.
Proof.
  split; rewrite applyMarkers_single; unfold applyMarker; simpl;
    by destruct (ParseFloat value).
Qed.

End Markers.

(** The field [name: string | minimum=1] compiles, with a numeric bound on a
    string. *)
Example minimum_on_string_field :
  @applyMarkers sampleGoStd stringSchema
                [mkMarker MarkerTypeMinimum "minimum" "1"] "name" objectSchema
  = Ok (setMinimum (Some 1%float) stringSchema, objectSchema).
Proof. reflexivity. Qed.

(** ** Expansion of a collection *)

Section ExpansionFacts.
Context {A : Type}.
Implicit Types (dims : list (dimension A)) (E : list (iteratorTuple A)).

Lemma expand_cons name values dims :
  expand ((name, values) :: dims) = blocks name (expand dims) values.
Proof. reflexivity. Qed.

Lemma blocks_length {B} name (E : list (iteratorTuple B)) values :
  length (blocks name E values) = length values * length E.
Proof.
  unfold blocks. induction values as [|v values IH]; simpl; [done|].
  rewrite length_app, length_map, IH. lia.
Qed.

Lemma expand_length dims :
  length (expand dims) = product (sizes dims).
Proof.
  induction dims as [|[name values] dims IH]; [done|].
  rewrite expand_cons, blocks_length, IH. reflexivity.
Qed.

Lemma elem_of_blocks {B} name (E : list (iteratorTuple B)) values t :
  t ∈ blocks name E values <->
  exists v rest, t = (name, v) :: rest /\ v ∈ values /\ rest ∈ E.
Proof.
  unfold blocks. rewrite list_elem_of_In, in_flat_map. split.
  - intros (v & Hv & Ht). apply in_map_iff in Ht as (rest & <- & Hrest).
    exists v, rest. by rewrite !list_elem_of_In.
  - intros (v & rest & -> & Hv & Hrest). exists v.
    rewrite <- list_elem_of_In. split; [done|].
    apply in_map_iff. exists rest. by rewrite <- list_elem_of_In.
Qed.

Lemma blocks_NoDup {B} name (E : list (iteratorTuple B)) values :
  NoDup values -> NoDup E -> NoDup (blocks name E values).
Proof.
  intros Hvalues HE. induction Hvalues as [|v values Hv _ IH]; simpl.
  - constructor.
  - apply NoDup_app. split; [|split; [|exact IH]].
    + clear IH Hv. induction HE as [|t E Ht _ IH]; simpl; constructor; [|done].
      intros Hin. apply list_elem_of_In, in_map_iff in Hin as (t' & [= ->] & Hin).
      by apply Ht, list_elem_of_In.
    + intros t Ht Ht'. apply elem_of_blocks in Ht' as (v' & rest & -> & Hv' & _).
      apply list_elem_of_In, in_map_iff in Ht as (rest' & [= <- _] & _).
      done.
Qed.

Lemma expand_NoDup dims :
  (forall d, d ∈ dims -> NoDup d.2) -> NoDup (expand dims).
Proof.
  induction dims as [|[name values] dims IH]; intros Hall.
  - apply NoDup_singleton.
  - rewrite expand_cons. apply blocks_NoDup.
    + apply (Hall (name, values)). by left.
    + apply IH. intros d Hd. apply Hall. by right.
Qed.

End ExpansionFacts.

Lemma blocks_positions_sorted name (E : list (iteratorTuple nat)) start n :
  StronglySorted lexLt E ->
  StronglySorted lexLt (blocks name E (seq start n)).
Proof.
  intros HE. revert start. induction n as [|n IH]; intros start; simpl.
  - constructor.
  - apply StronglySorted_app_2; [| |apply IH].
    + intros a b Ha Hb.
      apply list_elem_of_In, in_map_iff in Ha as (a' & <- & _).
      apply elem_of_blocks in Hb as (j & b' & -> & Hj & _).
      apply list_elem_of_In, in_seq in Hj. simpl. left. lia.
    + clear IH. induction HE as [|a E _ IH Hall]; simpl; constructor; [done|].
      apply Forall_forall. intros b Hb.
      apply list_elem_of_In, in_map_iff in Hb as (b' & <- & Hb').
      simpl. right. split; [done|].
      by apply (proj1 (Forall_forall _ _) Hall), list_elem_of_In.
Qed.

Lemma expand_positions_sorted {A} (dims : list (dimension A)) :
  StronglySorted lexLt (expand (map positions dims)).
Proof.
  induction dims as [|[name values] dims IH]; simpl.
  - repeat constructor.
  - apply (blocks_positions_sorted name _ 0 (length values) IH).
Qed.

Lemma blocks_select {A} name values (dims : list (dimension A))
    (Epos : list (iteratorTuple nat)) (E : list (iteratorTuple A)) :
  Forall2 (fun idx t => select dims idx = Some t) Epos E ->
  forall done todo, values = done ++ todo ->
    Forall2 (fun idx t => select ((name, values) :: dims) idx = Some t)
            (blocks name Epos (seq (length done) (length todo)))
            (blocks name E todo).
Proof.
  intros HE done todo. revert done.
  induction todo as [|v todo IH]; intros done ->; simpl; [constructor|].
  apply Forall2_app.
  - clear IH. induction HE as [|idx t Epos E Hidx _ IH]; simpl; constructor;
      [|done].
    simpl. rewrite list_lookup_middle by done. simpl. by rewrite Hidx.
  - specialize (IH (done ++ [v])). rewrite length_app in IH. simpl in IH.
    replace (length done + 1) with (S (length done)) in IH by lia.
    apply IH. by rewrite <- app_assoc.
Qed.

Lemma expand_select {A} (dims : list (dimension A)) :
  Forall2 (fun idx t => select dims idx = Some t)
          (expand (map positions dims)) (expand dims).
Proof.
  induction dims as [|[name values] dims IH]; simpl.
  - by repeat constructor.
  - apply (blocks_select name values dims _ _ IH [] values eq_refl).
Qed.

(** C1 (as amended). The expansion of a collection with dimensions of sizes
    n1, ..., nk has n1 * ... * nk items; its iterator tuples are pairwise
    distinct when no dimension list repeats a value; and the items come in
    lexicographic order of their positions in the dimension lists, first
    dimension first: the i-th item is selected by the i-th tuple of
    positions, and the tuples of positions increase strictly. *)
Theorem expand_cartesian_product {A} (dims : list (dimension A)) :
  length (expand dims) = product (sizes dims)
  /\ ((forall d, d ∈ dims -> NoDup d.2) -> NoDup (expand dims))
  /\ StronglySorted lexLt (expand (map positions dims))
  /\ Forall2 (fun idx t => select dims idx = Some t)
             (expand (map positions dims)) (expand dims).
Proof.
  split; [apply expand_length|]. split; [apply expand_NoDup|].
  split; [apply expand_positions_sorted | apply expand_select].
Qed.

(** Scenario S2: regions [us, eu] and tiers [web, api]. *)
Example expand_regions_tiers :
  expand [("region", ["us"; "eu"]); ("tier", ["web"; "api"])] =
    [ [("region", "us"); ("tier", "web")];
      [("region", "us"); ("tier", "api")];
      [("region", "eu"); ("tier", "web")];
      [("region", "eu"); ("tier", "api")] ].
Proof. reflexivity. Qed.

(** C1 as stated fails when a dimension list repeats a value: the expansion
    has as many items as the product of the sizes, and two of them carry the
    same iterator tuple. *)
Lemma expand_repeated_value_repeats_tuple :
  length (expand [("value", ["a"; "a"])]) = product (sizes [("value", ["a"; "a"])])
  /\ expand [("value", ["a"; "a"])] !! 0 = Some [("value", "a")]
  /\ expand [("value", ["a"; "a"])] !! 1 = Some [("value", "a")].
Proof. repeat split. Qed.

(** ** Results *)

Lemma mapResult_Ok {E A B} (f : A -> result E B) l ys :
  mapResult f l = Ok ys -> Forall2 (fun x y => f x = Ok y) l ys.
Proof.
  revert ys. induction l as [|x l IH]; intros ys; simpl.
  - by intros [= <-].
  - destruct (f x) as [y|] eqn:Hx; [simpl|done].
    destruct (mapResult f l) as [ys'|]; [simpl|done].
    intros [= <-]. constructor; auto.
Qed.

Lemma mapResult_Err {E A B} (f : A -> result E B) l x e :
  x ∈ l -> f x = Err e -> is_ok (mapResult f l) = false.
Proof.
  intros Hin Hx. induction Hin as [x l|x y l _ IH]; simpl.
  - by rewrite Hx.
  - specialize (IH Hx). destruct (f y); [simpl|done].
    destruct (mapResult f l); [by simpl in IH | done].
Qed.

(** ** The dimensions of a collection *)

Section ForEachFacts.
Context `{ExprLang}.

Lemma mentionedIterator_Some iterators d other :
  other ∈ iterators ->
  other ≠ d.(iterator) ->
  other ∈ references d.(expression) ->
  is_Some (mentionedIterator iterators d).
Proof.
  intros Hin Hne Href. unfold mentionedIterator.
  destruct (find _ iterators) as [found|] eqn:Hfind; [by eexists|].
  apply list_elem_of_In in Hin.
  apply (find_none _ _ Hfind) in Hin.
  apply andb_false_iff in Hin as [Hin|Hin].
  - apply negb_false_iff, String.eqb_eq in Hin. done.
  - by apply bool_decide_eq_false in Hin.
Qed.

(** C8. A resource one of whose dimensions mentions another of its iterators
    is rejected; and when the dimensions of a resource compile, each of them
    has compiled to a list against the one environment the resource was
    given, so none has seen the binding of a sibling. *)
Theorem compileForEach_no_cross_reference (env : gmap string celType)
    (dims : list ForEachDimension) :
  (forall d other,
     d ∈ dims -> other ∈ map iterator dims -> other ≠ d.(iterator) ->
     other ∈ references d.(expression) ->
     is_ok (compileForEach env dims) = false)
  /\ (forall bindings,
        compileForEach env dims = Ok bindings ->
        Forall2 (fun d b => b.1 = d.(iterator)
                            /\ compile env d.(expression) = Some (TList b.2))
                dims bindings).
Proof.
  split.
  - intros d other Hd Hother Hne Href.
    destruct (mentionedIterator_Some _ d other Hother Hne Href) as [it Hit].
    apply (mapResult_Err _ dims d (ErrReferencesIterator d.(iterator) it) Hd).
    unfold compileDimension. by rewrite Hit.
  - intros bindings Hok. apply mapResult_Ok in Hok.
    eapply Forall2_impl; [exact Hok|]. intros d b. unfold compileDimension.
    destruct (mentionedIterator _ d); [done|].
    destruct (compile env d.(expression)) as [[]|]; try done.
    by intros [= <-].
Qed.

End ForEachFacts.

(** [forEach: [{element: items}, {derived: element}]] is rejected because
    [derived] mentions [element]. *)
Example forEach_iterator_references_iterator :
  @compileForEach variableLang {[ "items" := TList TString ]}
    [ @mkDimension variableLang "element" "items";
      @mkDimension variableLang "derived" "element" ]
  = Err (ErrReferencesIterator "derived" "element").
Proof. vm_compute. reflexivity. Qed.

Example forEach_two_dimensions :
  @compileForEach variableLang
    {[ "cidrBlocks" := TList TString; "vpcIDs" := TList TString ]}
    [ @mkDimension variableLang "cidr" "cidrBlocks";
      @mkDimension variableLang "vpcID" "vpcIDs" ]
  = Ok [("cidr", TString); ("vpcID", TString)].
Proof. vm_compute. reflexivity. Qed.

(** ** The schema builder *)

Section SchemaBuilder.
Context `{GoStd} `{TypesPkg}.

(** A marker leaves the parent schema as it is, but for [Required]. *)
Lemma applyMarker_parent schema marker key parent schema' parent' :
  applyMarker schema marker key parent = Ok (schema', parent') ->
  parent'.(Default) = parent.(Default)
  /\ parent'.(Properties) = parent.(Properties).
Proof.
  unfold applyMarker.
  destruct (marker.(MarkerType_)); repeat case_match;
    try (intros [= <- <-]; by split); try done.
  destruct (mapResult _ _); simpl; [|done].
  case_match; by intros [= <- <-].
Qed.

(** A marker never takes the default of the schema away, and a [default]
    marker sets it. *)
Lemma applyMarker_default schema marker key parent schema' parent' :
  applyMarker schema marker key parent = Ok (schema', parent') ->
  (is_Some schema.(Default) -> is_Some schema'.(Default))
  /\ (marker.(MarkerType_) = MarkerTypeDefault -> is_Some schema'.(Default)).
Proof.
  unfold applyMarker.
  destruct (marker.(MarkerType_)); repeat case_match;
    try (intros [= <- <-]; split; by eauto); try done.
  destruct (mapResult _ _); simpl; [|done].
  case_match; intros [= <- <-]; split; by eauto.
Qed.

Lemma applyMarkers_parent schema markers key parent schema' parent' :
  applyMarkers schema markers key parent = Ok (schema', parent') ->
  parent'.(Default) = parent.(Default)
  /\ parent'.(Properties) = parent.(Properties).
Proof.
  revert schema parent. induction markers as [|m ms IH]; intros s p; simpl.
  - by intros [= <- <-].
  - destruct (applyMarker s m key p) as [[s1 p1]|] eqn:Hm; [simpl|done].
    intros Hms. destruct (applyMarker_parent _ _ _ _ _ _ Hm) as [Hd1 Hp1].
    apply IH in Hms as [Hd2 Hp2]. split; congruence.
Qed.

Lemma applyMarkers_default schema markers key parent schema' parent' :
  applyMarkers schema markers key parent = Ok (schema', parent') ->
  is_Some schema.(Default)
  \/ (exists m, m ∈ markers /\ m.(MarkerType_) = MarkerTypeDefault) ->
  is_Some schema'.(Default).
Proof.
  revert schema parent. induction markers as [|m ms IH]; intros s p; simpl.
  - intros [= <- <-] [Hs|(m & Hm & _)]; [done | by apply elem_of_nil in Hm].
  - destruct (applyMarker s m key p) as [[s1 p1]|] eqn:Hm; [simpl|done].
    intros Hms Hdefault. apply (IH _ _ Hms).
    destruct (applyMarker_default _ _ _ _ _ _ Hm) as [Hkeep Hset].
    destruct Hdefault as [Hs|(m' & Hin & Hty)]; [by left; apply Hkeep|].
    apply elem_of_cons in Hin as [->|Hin]; [by left; apply Hset|].
    right. by exists m'.
Qed.

Lemma buildFieldSchema_map t name val parent :
  buildFieldSchema t name (FMap val) parent =
  (st ← buildFields t val; Ok (finishSchema st, parent)).
Proof. reflexivity. Qed.

Lemma buildFieldSchema_parent t name spec parent fieldSchema parent' :
  buildFieldSchema t name spec parent = Ok (fieldSchema, parent') ->
  parent'.(Default) = parent.(Default)
  /\ parent'.(Properties) = parent.(Properties).
Proof.
  destruct spec as [val|val|]; [| |done].
  - simpl. unfold buildFieldFromString.
    destruct (ParseField val) as [[typ markers]|]; [simpl|done].
    destruct (Schema typ (Resolve t)) as [schema|]; [simpl|done].
    intros Hms. apply applyMarkers_parent in Hms as [-> ->].
    unfold appendRequiredIfCustom. by repeat case_match.
  - rewrite buildFieldSchema_map.
    destruct (buildFields t val); simpl; [|done]. by intros [= <- <-].
Qed.

(** A field written with a [default] marker gets a schema with a default. *)
Lemma buildFieldSchema_default_marker t name val parent typ markers
    fieldSchema parent' :
  ParseField val = Ok (typ, markers) ->
  (exists m, m ∈ markers /\ m.(MarkerType_) = MarkerTypeDefault) ->
  buildFieldSchema t name (FString val) parent = Ok (fieldSchema, parent') ->
  is_Some fieldSchema.(Default).
Proof.
  intros Hparse Hm. simpl. unfold buildFieldFromString. rewrite Hparse. simpl.
  destruct (Schema typ (Resolve t)) as [schema|]; [simpl|done].
  intros Hms. apply (applyMarkers_default _ _ _ _ _ _ Hms). by right.
Qed.

Lemma buildFields_built t spec st :
  buildFields t spec = Ok st -> fieldsBuilt spec st.
Proof.
  unfold buildFields. revert st.
  apply (map_fold_weak_ind (fun acc (m : gmap string fieldSpec) =>
           forall st, acc = Ok st -> fieldsBuilt m st)).
  - intros st [= <-]. split; [done|]. split; [|split].
    + intros name [x Hx]. simpl in Hx. by rewrite lookup_empty in Hx.
    + simpl. split; [done|].
      intros (name & child & Hx & _). by rewrite lookup_empty in Hx.
    + intros name val typ markers Hx. by rewrite lookup_empty in Hx.
  - intros i x m acc Hi IH st.
    destruct acc as [[schema chd]|]; [simpl|done].
    destruct (buildFieldSchema t i x schema) as [[fs schema']|] eqn:Hfs;
      [simpl|done].
    intros [= <-]. unfold fieldsBuilt, recordField. simpl.
    destruct (IH _ eq_refl) as (Hd & Hdom & Hchd & Hmark). simpl in *.
    destruct (buildFieldSchema_parent _ _ _ _ _ _ Hfs) as [Hd' Hp'].
    assert (Hfresh : schema.(Properties) !! i = None).
    { destruct (schema.(Properties) !! i) eqn:Hpi; [|done].
      destruct (Hdom i) as [? Hmi]; [by eexists | congruence]. }
    split; [congruence|]. split; [|split].
    + intros name. rewrite Hp'.
      destruct (decide (name = i)) as [->|Hne].
      * intros _. rewrite lookup_insert_eq. by eexists.
      * rewrite !lookup_insert_ne by done. apply Hdom.
    + rewrite Hp', orb_true_iff, Hchd, bool_decide_eq_true. split.
      * intros [(name & child & Hn & Hc)|Hc].
        -- exists name, child. split; [|done].
           rewrite lookup_insert_ne; [done|]. intros ->. congruence.
        -- exists i, fs. by rewrite lookup_insert_eq.
      * intros (name & child & Hn & Hc).
        destruct (decide (name = i)) as [->|Hne].
        -- rewrite lookup_insert_eq in Hn. inversion Hn; subst. by right.
        -- rewrite lookup_insert_ne in Hn by done. left. eauto.
    + intros name val typ markers Hn Hparse Hm. rewrite Hp'.
      destruct (decide (name = i)) as [->|Hne].
      * rewrite lookup_insert_eq in Hn. inversion Hn; subst.
        exists fs. rewrite lookup_insert_eq. split; [done|].
        by eapply buildFieldSchema_default_marker.
      * rewrite lookup_insert_ne in Hn by done.
        rewrite lookup_insert_ne by done. by eapply Hmark.
Qed.

(** C6. When [buildSchema] builds the schema of a nested map: if a direct
    child field is written with a [default] marker, the default of the parent
    schema is the empty object; if no direct child schema has a default, the
    parent has none. *)
Theorem buildSchema_parent_default (t : transformer)
    (spec : gmap string fieldSpec) (schema : JSONSchemaProps) :
  buildSchema t spec = Ok schema ->
  ((exists name val typ markers m,
      spec !! name = Some (FString val)
      /\ ParseField val = Ok (typ, markers)
      /\ m ∈ markers /\ m.(MarkerType_) = MarkerTypeDefault) ->
   schema.(Default) = Some "{}")
  /\ ((forall name child,
         schema.(Properties) !! name = Some child -> child.(Default) = None) ->
      schema.(Default) = None).
Proof.
  unfold buildSchema.
  destruct (buildFields t spec) as [[s chd]|] eqn:Hfields; [simpl|done].
  intros [= <-].
  destruct (buildFields_built _ _ _ Hfields) as (Hd & _ & Hchd & Hmark).
  simpl in *. split.
  - intros (name & val & typ & markers & m & Hn & Hparse & Hm & Hty).
    destruct (Hmark name val typ markers Hn Hparse) as (child & Hc & Hdc);
      [by exists m|].
    rewrite (proj2 Hchd) by eauto. done.
  - intros Hnone. destruct chd; [|done].
    destruct (proj1 Hchd eq_refl) as (name & child & Hc & [x Hx]).
    rewrite (Hnone _ _ Hc) in Hx. done.
Qed.

End SchemaBuilder.

Lemma buildSchema_parent_default_witness :
  sampleBuild sampleSpec = Ok sampleSpecSchema
  /\ sampleSpecSchema.(Default) = Some "{}".
Proof.
  assert (Hbuilt : sampleBuild sampleSpec = Ok sampleSpecSchema)
    by (vm_compute; reflexivity).
  split; [exact Hbuilt|].
  apply (@buildSchema_parent_default sampleGoStd sampleTypes
           (mkTransformer ∅) sampleSpec sampleSpecSchema Hbuilt).
  exists "replicas", "integer | default=3", "integer",
         [mkMarker MarkerTypeDefault "default" "3"],
         (mkMarker MarkerTypeDefault "default" "3").
  split; [vm_compute; reflexivity|]. split; [reflexivity|].
  split; [left | reflexivity].
Defined.

(** The default of a grandchild reaches the grandparent: the schema of the
    nested map [a] has the default [{}], which counts as a default of the
    child [a]. *)
Example buildSchema_default_propagates :
  Default <$> okValue (sampleBuild {[ "a" := FMap sampleSpec ]})
  = Some (Some "{}")
  /\ Default <$> okValue (sampleBuild
                            {[ "a" := FMap {[ "name" := FString "string" ]} ]})
     = Some None.
Proof. split; vm_compute; reflexivity. Qed.

(** The schema compiler accepts [name: string | minimum=1]. *)
Example buildSchema_minimum_on_string :
  is_ok (sampleBuild {[ "name" := FString "string | minimum=1" ]}) = true.
Proof. vm_compute. reflexivity. Qed.

(** ** The DAG library *)

Lemma isRemaining_true rem d : isRemaining rem d = true <-> d ∈ ids rem.
Proof.
  unfold isRemaining, ids. rewrite existsb_exists, list_elem_of_fmap.
  split.
  - intros (w & Hw & Heq). apply String.eqb_eq in Heq.
    exists w. split; [done | by apply list_elem_of_In].
  - intros (w & -> & Hw). exists w.
    split; [by apply list_elem_of_In | apply String.eqb_refl].
Qed.

Lemma ready_true rem v :
  ready rem v = true <-> forall d, d ∈ DependsOn v -> d ∉ ids rem.
Proof.
  unfold ready. rewrite forallb_forall. split.
  - intros Hall d Hd Hin. apply list_elem_of_In, Hall in Hd.
    apply negb_true_iff in Hd. apply isRemaining_true in Hin. congruence.
  - intros Hall d Hd. apply negb_true_iff.
    destruct (isRemaining rem d) eqn:Hr; [|done].
    apply isRemaining_true in Hr. by apply list_elem_of_In, Hall in Hd.
Qed.

Lemma ready_false rem v :
  ready rem v = false -> exists d, d ∈ DependsOn v /\ d ∈ ids rem.
Proof.
  unfold ready. induction (DependsOn v) as [|d ds IH]; simpl; [done|].
  intros [Hd|Hds]%andb_false_iff.
  - exists d. split; [by left|].
    by apply isRemaining_true, negb_false_iff.
  - destruct (IH Hds) as (d' & Hd' & Hrem). exists d'. split; [by right | done].
Qed.

Lemma pickAmong_Some all rem v :
  pickAmong all rem = Some v -> v ∈ rem /\ ready all v = true.
Proof.
  revert v. induction rem as [|w rem IH]; intros v; simpl; [done|].
  fold (pickAmong all rem). destruct (ready all w) eqn:Hw.
  - destruct (pickAmong all rem) as [best|] eqn:Hbest.
    + destruct (precedes best w); intros [= <-].
      * destruct (IH best eq_refl). split; [by right | done].
      * split; [by left | done].
    + intros [= <-]. split; [by left | done].
  - intros Hv. destruct (IH v Hv). split; [by right | done].
Qed.

Lemma pickAmong_None all rem v :
  pickAmong all rem = None -> v ∈ rem -> ready all v = false.
Proof.
  induction rem as [|w rem IH]; simpl; intros Hnone Hin.
  - by apply elem_of_nil in Hin.
  - fold (pickAmong all rem) in Hnone. destruct (ready all w) eqn:Hw.
    + destruct (pickAmong all rem) as [best|]; [|done].
      by destruct (precedes best w).
    + apply elem_of_cons in Hin as [->|Hin]; [done | by apply IH].
Qed.

Lemma pick_Some rem v : pick rem = Some v -> v ∈ rem /\ ready rem v = true.
Proof. apply (pickAmong_Some rem rem). Qed.

Lemma pick_None rem v : pick rem = None -> v ∈ rem -> ready rem v = false.
Proof. apply (pickAmong_None rem rem). Qed.

Lemma elem_of_dropVertex id rem v :
  v ∈ dropVertex id rem <-> ID v ≠ id /\ v ∈ rem.
Proof. unfold dropVertex. by rewrite list_elem_of_filter. Qed.

Lemma ids_dropVertex rem v :
  NoDup (ids rem) -> v ∈ rem ->
  ids rem ≡ₚ ID v :: ids (dropVertex (ID v) rem).
Proof.
  unfold ids, dropVertex. induction rem as [|w rem IH]; intros Hnd Hin.
  - by apply elem_of_nil in Hin.
  - rewrite fmap_cons in Hnd. apply NoDup_cons in Hnd as [Hw Hnd].
    rewrite filter_cons. destruct (decide (ID w ≠ ID v)) as [Hne|Heq].
    + apply elem_of_cons in Hin as [->|Hin]; [done|].
      rewrite !fmap_cons, (IH Hnd Hin). apply Permutation_swap.
    + apply dec_stable in Heq. rewrite fmap_cons, Heq. constructor.
      rewrite Heq in Hw.
      assert (Hall : Forall (fun x => ID x ≠ ID v) rem).
      { apply Forall_forall. intros x Hx Hxv. apply Hw.
        apply list_elem_of_fmap. by exists x. }
      clear -Hall. induction Hall as [|x rem Hx _ IH']; [done|].
      rewrite filter_cons, decide_True by done. by rewrite !fmap_cons, <- IH'.
Qed.

Section SortLoop.

Variable D : string -> list string.
Variable V : list string.

Lemma sortLoop_sound n rem sorted order :
  sorted ++ ids rem ≡ₚ V -> NoDup V ->
  (forall v, v ∈ rem -> DependsOn v = D (ID v)) ->
  dependenciesFirst D V sorted ->
  sortLoop n rem sorted = Ok order ->
  order ≡ₚ V /\ dependenciesFirst D V order.
Proof.
  intros Hperm HV. revert rem sorted Hperm.
  induction n as [|n IH]; intros [|w rem'] sorted Hperm HD Hsorted; simpl;
    try done.
  - intros [= <-]. by rewrite app_nil_r in Hperm.
  - intros [= <-]. by rewrite app_nil_r in Hperm.
  - set (rem := w :: rem') in *.
    destruct (pick rem) as [v|] eqn:Hpick; [|done].
    destruct (pick_Some _ _ Hpick) as [Hv Hready].
    assert (Hnd : NoDup (ids rem)).
    { rewrite <- Hperm in HV. by apply NoDup_app in HV as (_ & _ & ?). }
    apply IH.
    + rewrite <- Hperm, <- (assoc_L (++)).
      by rewrite (ids_dropVertex rem v Hnd Hv).
    + intros x Hx. apply HD. by apply elem_of_dropVertex in Hx as [_ ?].
    + intros i a d Hi Hd HdV.
      apply lookup_app_Some in Hi as [Hi|[Hge Hi]].
      * destruct (Hsorted i a d Hi Hd HdV) as (j & Hj & Hjd).
        exists j. split; [done | by apply lookup_app_l_Some].
      * destruct (i - length sorted) as [|?] eqn:Hidx;
          [|by rewrite lookup_cons, lookup_nil in Hi].
        inversion Hi; subst a. rewrite <- HD in Hd by done.
        pose proof (proj1 (ready_true rem v) Hready d Hd) as Hnot.
        rewrite <- Hperm in HdV. apply elem_of_app in HdV as [HdS|?]; [|done].
        apply list_elem_of_lookup in HdS as [j Hj].
        exists j. split; [|by apply lookup_app_l_Some].
        apply lookup_lt_Some in Hj. lia.
Qed.

Lemma dependenciesFirst_tc order a b :
  dependenciesFirst D V order -> tc (dependsOn D V) a b ->
  forall i, order !! i = Some a -> exists j, j < i /\ order !! j = Some b.
Proof.
  intros Hfirst. induction 1 as [a b (_ & Hb & Hab)|a b c (_ & Hb & Hab) _ IH];
    intros i Hi.
  - by apply (Hfirst i a).
  - destruct (Hfirst i a b Hi Hab Hb) as (j & Hj & Hjb).
    destruct (IH j Hjb) as (k & Hk & Hkc). exists k. split; [lia | done].
Qed.

Lemma dependenciesFirst_acyclic order a :
  order ≡ₚ V -> NoDup V -> dependenciesFirst D V order -> ~ tc (dependsOn D V) a a.
Proof.
  intros Hperm HV Hfirst Hcycle.
  assert (Ha : a ∈ order).
  { rewrite Hperm. inversion Hcycle as [? ? [? _]|? ? ? [? _]]; by subst. }
  apply list_elem_of_lookup in Ha as [i Hi].
  destruct (dependenciesFirst_tc order a a Hfirst Hcycle i Hi) as (j & Hj & Hja).
  rewrite <- Hperm in HV. pose proof (NoDup_lookup _ _ _ _ HV Hi Hja). lia.
Qed.

End SortLoop.

Lemma tc_implies {A} (R R' : relation A) a b :
  (forall x y, R x y -> tc R' x y) -> tc R a b -> tc R' a b.
Proof.
  intros Hsub. induction 1 as [x y Hxy|x y z Hxy _ IH]; [by apply Hsub|].
  etrans; [by apply Hsub | done].
Qed.

(** In a finite non-empty set where every element has a successor, some
    element reaches itself. *)
Lemma no_sink_cycle (R : relation string) (S : list string) :
  S ≠ [] -> (forall a, a ∈ S -> exists b, b ∈ S /\ R a b) ->
  exists a, tc R a a.
Proof.
  remember (length S) as n eqn:Hn. revert S R Hn.
  induction n as [n IH] using lt_wf_ind. intros S R -> Hne Hsucc.
  destruct S as [|a S0]; [done|]. set (S := a :: S0) in *.
  assert (HaS : a ∈ S) by left.
  destruct (Hsucc a HaS) as (b & HbS & Hab).
  destruct (decide (b = a)) as [->|Hba]; [exists a; by apply tc_once|].
  set (S' := filter (fun x => x ≠ a) S).
  set (R' := fun x y => R x y \/ (R x a /\ R a y)).
  destruct (IH (length S')) with (S := S') (R := R') as [c Hc].
  - apply (length_filter_lt _ S a); [done | by intros ?].
  - done.
  - intros HS'. assert (Hb' : b ∈ S') by (by apply list_elem_of_filter).
    rewrite HS' in Hb'. by apply elem_of_nil in Hb'.
  - intros x Hx. apply list_elem_of_filter in Hx as [Hxa HxS].
    destruct (Hsucc x HxS) as (y & HyS & Hxy).
    destruct (decide (y = a)) as [->|Hya].
    + exists b. split; [by apply list_elem_of_filter | right; done].
    + exists y. split; [by apply list_elem_of_filter | left; done].
  - exists c. apply (tc_implies R' R); [|done].
    intros x y [Hxy|[Hxa Hay]]; [by apply tc_once|].
    eapply tc_l; [done | by apply tc_once].
Qed.

Lemma sortLoop_complete n rem sorted :
  length rem <= n ->
  (forall a, ~ tc (waitsFor rem) a a) ->
  is_ok (sortLoop n rem sorted) = true.
Proof.
  revert rem sorted. induction n as [|n IH]; intros [|w rem'] sorted Hlen Hacyclic;
    simpl in *; try done; [lia|].
  set (rem := w :: rem') in *.
  destruct (pick rem) as [v|] eqn:Hpick.
  - destruct (pick_Some _ _ Hpick) as [Hv _]. apply IH.
    + assert (length (dropVertex (ID v) rem) < length rem); [|simpl in *; lia].
      apply (length_filter_lt _ rem v); [done | by intros ?].
    + intros a Hcycle. apply (Hacyclic a).
      apply (tc_implies (waitsFor (dropVertex (ID v) rem))); [|done].
      intros x y (u & Hu & Hux & Hy & Hyrem). apply tc_once.
      exists u. apply elem_of_dropVertex in Hu as [_ Hu].
      repeat split; try done.
      apply list_elem_of_fmap in Hyrem as (u' & -> & Hu').
      apply elem_of_dropVertex in Hu' as [_ Hu'].
      apply list_elem_of_fmap. by exists u'.
  - exfalso. destruct (no_sink_cycle (waitsFor rem) (ids rem)) as [a Ha].
    + done.
    + intros a Ha. apply list_elem_of_fmap in Ha as (u & -> & Hu).
      pose proof (pick_None _ _ Hpick Hu) as Hnot.
      destruct (ready_false _ _ Hnot) as (d & Hd & Hdrem).
      exists d. split; [done|].
      by exists u.
    + by apply (Hacyclic a).
Qed.

Lemma elem_of_vertices g v :
  wellKeyed g -> v ∈ vertices g <-> g !! ID v = Some v.
Proof.
  intros Hwk. unfold vertices. rewrite list_elem_of_fmap. split.
  - intros ([k v'] & -> & Hin). apply elem_of_map_to_list in Hin.
    simpl. by rewrite (Hwk _ _ Hin).
  - intros Hv. exists (ID v, v). split; [done|]. by apply elem_of_map_to_list.
Qed.

Lemma ids_vertices g : wellKeyed g -> ids (vertices g) = (map_to_list g).*1.
Proof.
  intros Hwk. unfold ids, vertices. rewrite <- list_fmap_compose.
  apply list_fmap_ext. intros i [k v] Hi. simpl.
  apply Hwk, elem_of_map_to_list, list_elem_of_lookup. by exists i.
Qed.

Lemma elem_of_ids_vertices g a :
  wellKeyed g -> a ∈ ids (vertices g) <-> is_Some (g !! a).
Proof.
  intros Hwk. rewrite (ids_vertices g Hwk), list_elem_of_fmap. split.
  - intros ([k v] & -> & Hin). apply elem_of_map_to_list in Hin. by eexists.
  - intros [v Hv]. exists (a, v). split; [done|]. by apply elem_of_map_to_list.
Qed.

Lemma vertices_dependencies g v :
  wellKeyed g -> v ∈ vertices g -> DependsOn v = dependenciesOf g (ID v).
Proof.
  intros Hwk Hv. apply (elem_of_vertices g v Hwk) in Hv.
  unfold dependenciesOf. by rewrite Hv.
Qed.

(** When the sort succeeds, it returns every vertex once, each after the
    vertices it depends on; so the graph has no cycle. *)
Lemma TopologicalSort_sound g order :
  wellKeyed g -> TopologicalSort g = Ok order ->
  order ≡ₚ (map_to_list g).*1
  /\ (forall i a d, order !! i = Some a -> d ∈ dependenciesOf g a ->
        is_Some (g !! d) -> exists j, j < i /\ order !! j = Some d)
  /\ (forall a, ~ tc (edge g) a a).
Proof.
  intros Hwk Hsort. unfold TopologicalSort in Hsort.
  assert (HV : NoDup (ids (vertices g))).
  { rewrite (ids_vertices g Hwk). apply NoDup_fst_map_to_list. }
  destruct (sortLoop_sound (dependenciesOf g) (ids (vertices g))
              (length (vertices g)) (vertices g) [] order)
    as [Hperm Hfirst].
  - done.
  - exact HV.
  - intros v. by apply vertices_dependencies.
  - intros i a d Hi. by rewrite lookup_nil in Hi.
  - exact Hsort.
  - split; [by rewrite <- (ids_vertices g Hwk)|]. split.
    + intros i a d Hi Hd HdV. apply (Hfirst i a d Hi Hd).
      by apply elem_of_ids_vertices.
    + intros a Hcycle.
      apply (dependenciesFirst_acyclic _ _ order a Hperm HV Hfirst).
      apply (tc_implies (edge g)); [|done].
      intros x y (Hx & Hy & Hxy). apply tc_once.
      repeat split; try done; by apply elem_of_ids_vertices.
Qed.

(** The sort succeeds on every graph without a cycle. *)
Lemma TopologicalSort_complete g :
  wellKeyed g -> (forall a, ~ tc (edge g) a a) ->
  is_ok (TopologicalSort g) = true.
Proof.
  intros Hwk Hacyclic. apply sortLoop_complete; [done|].
  intros a Hcycle. apply (Hacyclic a).
  apply (tc_implies (waitsFor (vertices g))); [|done].
  intros x y (v & Hv & <- & Hy & Hyg). apply tc_once.
  pose proof (proj1 (elem_of_vertices g v Hwk) Hv) as Hlookup.
  split; [by eexists|]. split; [by apply elem_of_ids_vertices|].
  by rewrite <- vertices_dependencies.
Qed.

Lemma hasCycle_false g :
  wellKeyed g -> hasCycle g = false <-> forall a, ~ tc (edge g) a a.
Proof.
  intros Hwk. unfold hasCycle. rewrite negb_false_iff. split.
  - destruct (TopologicalSort g) as [order|] eqn:Hsort; [|done].
    intros _. by apply (TopologicalSort_sound g order).
  - by apply TopologicalSort_complete.
Qed.

(** ** Loading the custom types *)

(** A cycle of a relation that has gained edges out of one point either was
    there before or passes through that point. *)
Lemma tc_new_source {A} (R R' : relation A) (i : A) :
  (forall u v, R u v -> R' u v) ->
  (forall u v, R' u v -> R u v \/ u = i) ->
  forall a b, tc R' a b -> tc R a b \/ (rtc R' a i /\ tc R' i b).
Proof.
  intros Hsub Hnew a b Hab. induction Hab as [a b Hab|a c b Hac Hcb IH].
  - destruct (Hnew a b Hab) as [?| ->]; [left; by apply tc_once|].
    right. split; [done | by apply tc_once].
  - destruct (Hnew a c Hac) as [HR| ->].
    + destruct IH as [?|[Hci Hib]].
      * left. by eapply tc_l.
      * right. split; [|done]. eapply rtc_l; [|done]. done.
    + right. split; [done|]. by eapply tc_l.
Qed.

Lemma tc_cycle_new_source {A} (R R' : relation A) (i a : A) :
  (forall u v, R u v -> R' u v) ->
  (forall u v, R' u v -> R u v \/ u = i) ->
  tc R' a a -> tc R a a \/ tc R' i i.
Proof.
  intros Hsub Hnew Ha.
  destruct (tc_new_source R R' i Hsub Hnew a a Ha) as [?|[Hai Hia]];
    [by left|]. right. by eapply tc_rtc_r.
Qed.

Section CustomTypes.
Context `{GoStd} `{TypesPkg}.

Lemma lookup_depGraph parsed deps name :
  depGraph parsed deps !! name =
  match parsed !! name with
  | Some _ => Some (mkVertex name 0
                      (match deps !! name with
                       | Some typ => Deps typ
                       | None => []
                       end))
  | None => None
  end.
Proof.
  unfold depGraph. rewrite map_lookup_imap. by destruct (parsed !! name).
Qed.

Lemma depGraph_wellKeyed parsed deps : wellKeyed (depGraph parsed deps).
Proof.
  intros k v. rewrite lookup_depGraph.
  destruct (parsed !! k); [|done]. by intros [= <-].
Qed.

Lemma depGraph_edge parsed deps a b :
  edge (depGraph parsed deps) a b ->
  is_Some (parsed !! b) /\ typeEdge deps a b.
Proof.
  unfold edge, dependenciesOf. rewrite !lookup_depGraph.
  intros (Ha & Hb & Hab).
  destruct (parsed !! a); [|by destruct Ha].
  destruct (parsed !! b); [|by destruct Hb].
  split; [by eexists|]. simpl in Hab.
  destruct (deps !! a) as [typ|] eqn:Hdeps; [|by apply elem_of_nil in Hab].
  by exists typ.
Qed.

Lemma typeEdge_edge parsed deps a b :
  is_Some (parsed !! a) -> is_Some (parsed !! b) -> typeEdge deps a b ->
  edge (depGraph parsed deps) a b.
Proof.
  intros [ta Ha] [tb Hb] (typ & Hdeps & Hab).
  unfold edge, dependenciesOf. rewrite !lookup_depGraph, Ha, Hb, Hdeps.
  simpl. by repeat split; try eexists.
Qed.

Lemma addTypeVertices_ok parsed :
  addTypeVertices parsed = Ok (depGraph parsed ∅).
Proof.
  unfold addTypeVertices.
  apply (map_fold_weak_ind (fun acc (m : gmap string Ty) =>
           acc = Ok (depGraph m ∅))).
  - unfold depGraph, NewDirectedAcyclicGraph. by rewrite map_imap_empty.
  - intros i x m acc Hi ->. simpl. unfold AddVertex.
    rewrite lookup_depGraph, Hi. simpl. f_equal.
    apply map_eq. intros k. rewrite lookup_depGraph.
    destruct (decide (k = i)) as [->|Hne].
    + by rewrite !lookup_insert_eq, lookup_empty.
    + by rewrite !lookup_insert_ne, lookup_depGraph, lookup_empty.
Qed.

Lemma depGraph_insert parsed deps i x :
  is_Some (parsed !! i) ->
  <[i := mkVertex i 0 (Deps x)]> (depGraph parsed deps)
  = depGraph parsed (<[i := x]> deps).
Proof.
  intros [ti Hi]. apply map_eq. intros k. rewrite lookup_depGraph.
  destruct (decide (k = i)) as [->|Hne].
  - by rewrite !lookup_insert_eq, Hi.
  - by rewrite !lookup_insert_ne, lookup_depGraph.
Qed.

Lemma find_missing_None parsed deps (ds : list string) :
  find (fun d => bool_decide (depGraph parsed deps !! d = None)) ds = None
  <-> forall d, d ∈ ds -> is_Some (parsed !! d).
Proof.
  induction ds as [|d ds IH]; simpl.
  - split; [intros _ d Hd; by apply elem_of_nil in Hd | done].
  - rewrite lookup_depGraph. destruct (parsed !! d) as [td|] eqn:Hd.
    + rewrite bool_decide_eq_false_2 by done. rewrite IH. split.
      * intros Hall d' [->|Hd']%elem_of_cons; [by eexists | by apply Hall].
      * intros Hall d' Hd'. apply Hall. by right.
    + rewrite bool_decide_eq_true_2 by done. split; [done|].
      intros Hall. destruct (Hall d) as [? ?]; [by left | congruence].
Qed.

(** The one call of [AddDependencies] for the type [i]. *)
Lemma AddDependencies_depGraph parsed deps i x :
  deps !! i = None ->
  AddDependencies (depGraph parsed deps) i (Deps x) =
  match parsed !! i with
  | None => Err (ErrVertexNotFound i)
  | Some _ =>
      match find (fun d => bool_decide (depGraph parsed deps !! d = None))
                 (Deps x) with
      | Some d => Err (ErrVertexNotFound d)
      | None =>
          if hasCycle (depGraph parsed (<[i := x]> deps))
          then Err CycleError
          else Ok (depGraph parsed (<[i := x]> deps))
      end
  end.
Proof.
  intros Hi. unfold AddDependencies. rewrite lookup_depGraph, Hi.
  destruct (parsed !! i) as [ti|] eqn:Hp; [|done]. simpl.
  by rewrite depGraph_insert by (by eexists).
Qed.

Lemma typeEdge_insert deps i x a b :
  deps !! i = None -> typeEdge deps a b -> typeEdge (<[i := x]> deps) a b.
Proof.
  intros Hi (typ & Ha & Hab). exists typ. split; [|done].
  rewrite lookup_insert_ne; [done|]. intros ->. congruence.
Qed.

(** What the loop over the dependencies has established when it succeeds. *)
Lemma addTypeDependencies_Ok parsed g :
  addTypeDependencies parsed (depGraph parsed ∅) = Ok g ->
  g = depGraph parsed parsed
  /\ closedIn parsed parsed
  /\ (parsed ≠ ∅ -> hasCycle g = false).
Proof.
  unfold addTypeDependencies. revert g.
  apply (map_fold_weak_ind (fun acc (m : gmap string Ty) =>
           forall g, acc = Ok g ->
             g = depGraph parsed m /\ closedIn parsed m
             /\ (m ≠ ∅ -> hasCycle g = false))).
  - intros g [= <-]. split; [done|]. split; [|done].
    intros a typ d Ha. by rewrite lookup_empty in Ha.
  - intros i x m acc Hi IH g.
    destruct acc as [g1|]; [simpl|done].
    destruct (IH g1 eq_refl) as (-> & Hclosed & _).
    rewrite (AddDependencies_depGraph parsed m i x Hi).
    destruct (parsed !! i) as [ti|] eqn:Hp; [|done].
    destruct (find _ (Deps x)) as [d|] eqn:Hfind; [done|].
    destruct (hasCycle _) eqn:Hcycle; [done|]. simpl. intros [= <-].
    split; [done|]. split; [|done].
    intros a typ d. destruct (decide (a = i)) as [->|Hne].
    + rewrite lookup_insert_eq. intros [= <-].
      by apply (proj1 (find_missing_None parsed m (Deps x)) Hfind).
    + rewrite lookup_insert_ne by done. apply Hclosed.
Qed.

(** The loop succeeds when the references are closed and free of cycles. *)
Lemma addTypeDependencies_complete parsed :
  closedIn parsed parsed ->
  (forall a, ~ tc (typeEdge parsed) a a) ->
  addTypeDependencies parsed (depGraph parsed ∅)
  = Ok (depGraph parsed parsed).
Proof.
  unfold addTypeDependencies. intros Hclosed Hacyclic.
  assert (Hdom : forall (a : string) (typ : Ty),
             parsed !! a = Some typ -> is_Some (parsed !! a)) by eauto.
  revert Hclosed Hdom Hacyclic.
  apply (map_fold_weak_ind (fun acc (m : gmap string Ty) =>
           closedIn parsed m ->
           (forall (a : string) (typ : Ty),
              m !! a = Some typ -> is_Some (parsed !! a)) ->
           (forall a, ~ tc (typeEdge m) a a) ->
           acc = Ok (depGraph parsed m))); [done|].
  intros i x m acc Hi IH Hclosed Hdom Hacyclic.
  - 
    rewrite IH; simpl.
    + rewrite (AddDependencies_depGraph parsed m i x Hi).
      destruct (Hdom i x) as [ti ->]; [by rewrite lookup_insert_eq|].
      rewrite (proj2 (find_missing_None parsed m (Deps x))).
      * rewrite (proj2 (hasCycle_false _ (depGraph_wellKeyed _ _))); [done|].
        intros a Hcycle. apply (Hacyclic a).
        apply (tc_implies (edge (depGraph parsed (<[i := x]> m)))); [|done].
        intros u v Huv. apply tc_once. by apply depGraph_edge in Huv as [_ ?].
      * intros d Hd. apply (Hclosed i x d); [by rewrite lookup_insert_eq | done].
    + intros a typ d Ha. apply (Hclosed a typ d).
      rewrite lookup_insert_ne; [done|]. intros ->. congruence.
    + intros a typ Ha. apply (Hdom a typ).
      rewrite lookup_insert_ne; [done|]. intros ->. congruence.
    + intros a Hcycle. apply (Hacyclic a).
      apply (tc_implies (typeEdge m)); [|done].
      intros u v Huv. apply tc_once. by apply typeEdge_insert.
Qed.

Lemma typeEdge_insert_inv deps i x a b :
  deps !! i = None -> typeEdge (<[i := x]> deps) a b ->
  typeEdge deps a b \/ a = i.
Proof.
  intros Hi (typ & Ha & Hab). destruct (decide (a = i)) as [->|Hne]; [by right|].
  left. rewrite lookup_insert_ne in Ha by done. by exists typ.
Qed.

(** The loop over the dependencies on a map whose references are defined: it
    succeeds as long as there is no cycle, and fails with the cycle error of
    the type whose dependencies close the first cycle. That this type lies on
    a cycle is read off the failed check of the library by excluded middle. *)
Lemma addTypeDependencies_closed parsed :
  closedIn parsed parsed ->
  (addTypeDependencies parsed (depGraph parsed ∅) = Ok (depGraph parsed parsed)
   /\ forall a, ~ tc (typeEdge parsed) a a)
  \/ exists name,
       tc (typeEdge parsed) name name
       /\ addTypeDependencies parsed (depGraph parsed ∅)
          = Err (ErrCyclicDependency name CycleError).
Proof.
  unfold addTypeDependencies. intros Hclosed.
  assert (Hdom : forall (a : string) (typ : Ty),
             parsed !! a = Some typ -> is_Some (parsed !! a)) by eauto.
  revert Hclosed Hdom.
  apply (map_fold_weak_ind (fun acc (m : gmap string Ty) =>
           closedIn parsed m ->
           (forall (a : string) (typ : Ty),
              m !! a = Some typ -> is_Some (parsed !! a)) ->
           (acc = Ok (depGraph parsed m) /\ forall a, ~ tc (typeEdge m) a a)
           \/ exists name,
                tc (typeEdge m) name name
                /\ acc = Err (ErrCyclicDependency name CycleError))).
  - intros _ _. left. split; [done|]. intros a Ha.
    inversion Ha as [? ? (typ & Hl & _)|? ? ? (typ & Hl & _)];
      by rewrite lookup_empty in Hl.
  - intros i x m acc Hi IH Hclosed Hdom.
    destruct IH as [[-> Hacyclic]|(name & Hname & ->)].
    + intros a typ d Ha. apply (Hclosed a typ d).
      rewrite lookup_insert_ne; [done|]. intros ->. congruence.
    + intros a typ Ha. apply (Hdom a typ).
      rewrite lookup_insert_ne; [done|]. intros ->. congruence.
    + simpl. rewrite (AddDependencies_depGraph parsed m i x Hi).
      destruct (Hdom i x) as [ti ->]; [by rewrite lookup_insert_eq|].
      rewrite (proj2 (find_missing_None parsed m (Deps x))).
      2:{ intros d Hd. apply (Hclosed i x d); [by rewrite lookup_insert_eq | done]. }
      destruct (hasCycle (depGraph parsed (<[i:=x]> m))) eqn:Hcycle; simpl.
      * right. exists i. split; [|done].
        apply Classical_Prop.NNPP. intros Hno.
        assert (hasCycle (depGraph parsed (<[i:=x]> m)) = false) as Hfalse;
          [|congruence].
        apply (hasCycle_false _ (depGraph_wellKeyed _ _)). intros a Ha.
        assert (tc (typeEdge (<[i:=x]> m)) a a) as Hta.
        { apply (tc_implies (edge (depGraph parsed (<[i := x]> m)))); [|done].
          intros u v Huv. apply tc_once. by apply depGraph_edge in Huv as [_ ?]. }
        destruct (tc_cycle_new_source (typeEdge m) (typeEdge (<[i:=x]> m)) i a)
          as [Hold|Hnew]; try done.
        -- intros u v. by apply typeEdge_insert.
        -- intros u v. by apply typeEdge_insert_inv.
        -- by apply (Hacyclic a).
      * left. split; [done|]. intros a Ha.
        apply (proj1 (hasCycle_false _ (depGraph_wellKeyed parsed (<[i:=x]> m)))
                 Hcycle a).
        apply (tc_implies (typeEdge (<[i:=x]> m))); [|done].
        intros u v Huv. apply tc_once. destruct Huv as (typ & Hu & Hv).
        apply typeEdge_edge; [by eapply Hdom | by apply (Hclosed u typ)
                              | by exists typ].
    + right. exists name. split; [|done].
      apply (tc_implies (typeEdge m)); [|done].
      intros u v Huv. apply tc_once. by apply typeEdge_insert.
Qed.

End CustomTypes.

Section LoadCustomTypes.
Context `{GoStd} `{TypesPkg}.

Lemma parseCustomTypes_Ok specs parsed markers :
  parseCustomTypes specs = Ok (parsed, markers) ->
  parsedFrom specs parsed markers.
Proof.
  unfold parseCustomTypes. revert parsed markers.
  apply (map_fold_weak_ind (fun acc (m : gmap string fieldSpec) =>
           forall parsed markers, acc = Ok (parsed, markers) ->
                                  parsedFrom m parsed markers)).
  - intros parsed markers [= <- <-] name. by rewrite !lookup_empty.
  - intros i x m acc Hi IH parsed markers.
    destruct acc as [[parsed0 markers0]|]; [simpl|done].
    destruct (parseSpec x) as [[typ ms]|] eqn:Hx; [simpl|done].
    intros [= <- <-] name. specialize (IH _ _ eq_refl name).
    destruct (decide (name = i)) as [->|Hne].
    + rewrite !lookup_insert_eq. by exists typ, ms.
    + by rewrite !lookup_insert_ne.
Qed.

Lemma parsedFrom_is_Some specs parsed markers a :
  parsedFrom specs parsed markers ->
  is_Some (parsed !! a) <-> is_Some (specs !! a).
Proof.
  intros Hp. specialize (Hp a). destruct (specs !! a) as [spec|].
  - destruct Hp as (typ & m & _ & -> & _). split; eauto.
  - destruct Hp as [-> _]. split; by intros [? ?].
Qed.

Lemma parsedFrom_refersTo specs parsed markers a b :
  parsedFrom specs parsed markers ->
  refersTo specs a b <-> typeEdge parsed a b.
Proof.
  intros Hp. specialize (Hp a). split.
  - intros (spec & typ & m & Ha & Hparse & Hb). rewrite Ha in Hp.
    destruct Hp as (typ' & m' & Hparse' & Hpa & _).
    exists typ. split; [congruence | done].
  - intros (typ & Ha & Hb). destruct (specs !! a) as [spec|] eqn:Hs.
    + destruct Hp as (typ' & m' & Hparse' & Hpa & _).
      exists spec, typ', m'. split; [done|]. split; [done | congruence].
    + destruct Hp as [Hnone _]. congruence.
Qed.

Lemma parsedFrom_keys specs parsed markers :
  parsedFrom specs parsed markers ->
  (map_to_list parsed).*1 ≡ₚ (map_to_list specs).*1.
Proof.
  intros Hp. apply NoDup_Permutation; try apply NoDup_fst_map_to_list.
  intros a. rewrite !list_elem_of_fmap. split.
  - intros ([k typ] & -> & Hin). apply elem_of_map_to_list in Hin.
    destruct (proj1 (parsedFrom_is_Some _ _ _ k Hp)) as [spec Hs];
      [by eexists|].
    exists (k, spec). split; [done | by apply elem_of_map_to_list].
  - intros ([k spec] & -> & Hin). apply elem_of_map_to_list in Hin.
    destruct (proj2 (parsedFrom_is_Some _ _ _ k Hp)) as [typ Ht];
      [by eexists|].
    exists (k, typ). split; [done | by apply elem_of_map_to_list].
Qed.

Lemma depGraph_keys parsed deps :
  (map_to_list (depGraph parsed deps)).*1 ≡ₚ (map_to_list parsed).*1.
Proof.
  apply NoDup_Permutation; try apply NoDup_fst_map_to_list.
  intros a. rewrite !list_elem_of_fmap. split.
  - intros ([k v] & -> & Hin). apply elem_of_map_to_list in Hin.
    rewrite lookup_depGraph in Hin.
    destruct (parsed !! k) as [typ|] eqn:Hk; [|done].
    exists (k, typ). split; [done | by apply elem_of_map_to_list].
  - intros ([k typ] & -> & Hin). apply elem_of_map_to_list in Hin.
    eexists (k, _). split; [done|]. apply elem_of_map_to_list.
    by rewrite lookup_depGraph, Hin.
Qed.

(** The order of a successful [typeOrder]. *)
Lemma typeOrder_Ok parsed order :
  typeOrder parsed = Ok order ->
  TopologicalSort (depGraph parsed parsed) = Ok order
  /\ closedIn parsed parsed.
Proof.
  unfold typeOrder. rewrite addTypeVertices_ok. simpl.
  destruct (addTypeDependencies parsed (depGraph parsed ∅)) as [g|] eqn:Hg;
    [simpl|done].
  destruct (addTypeDependencies_Ok parsed g Hg) as (-> & Hclosed & _).
  destruct (TopologicalSort (depGraph parsed parsed)); [simpl|done].
  by intros [= <-].
Qed.

Lemma typeOrder_complete parsed :
  closedIn parsed parsed ->
  (forall a, ~ tc (typeEdge parsed) a a) ->
  is_ok (typeOrder parsed) = true.
Proof.
  intros Hclosed Hacyclic. unfold typeOrder.
  rewrite addTypeVertices_ok. simpl.
  rewrite (addTypeDependencies_complete parsed Hclosed Hacyclic). simpl.
  assert (Hsort : is_ok (TopologicalSort (depGraph parsed parsed)) = true).
  { apply TopologicalSort_complete; [apply depGraph_wellKeyed|].
    intros a Hcycle. apply (Hacyclic a).
    apply (tc_implies (edge (depGraph parsed parsed))); [|done].
    intros u v Huv. apply tc_once. by apply depGraph_edge in Huv as [_ ?]. }
  by destruct (TopologicalSort (depGraph parsed parsed)).
Qed.

Lemma typeOrder_sound parsed order :
  typeOrder parsed = Ok order ->
  order ≡ₚ (map_to_list parsed).*1
  /\ (forall i a typ d,
        order !! i = Some a -> parsed !! a = Some typ -> d ∈ Deps typ ->
        exists j, j < i /\ order !! j = Some d)
  /\ (forall a, ~ tc (typeEdge parsed) a a).
Proof.
  intros Horder. destruct (typeOrder_Ok _ _ Horder) as [Hsort Hclosed].
  destruct (TopologicalSort_sound _ _ (depGraph_wellKeyed _ _) Hsort)
    as (Hperm & Hfirst & Hacyclic).
  split; [by rewrite Hperm, depGraph_keys|]. split.
  - intros i a typ d Hi Ha Hd. apply (Hfirst i a d Hi).
    + unfold dependenciesOf. by rewrite lookup_depGraph, Ha.
    + destruct (Hclosed a typ d Ha Hd) as [td Htd].
      rewrite lookup_depGraph, Htd. by eexists.
  - intros a Hcycle. apply (Hacyclic a).
    apply (tc_implies (typeEdge parsed)); [|done].
    intros u v Huv. apply tc_once. destruct Huv as (typ & Hu & Hv).
    apply typeEdge_edge; [by eexists | by apply (Hclosed u typ) | by exists typ].
Qed.

(** *** The last loop *)

Lemma resolveTypes_app parsed markers t pre post :
  resolveTypes parsed markers t (pre ++ post) =
  (t1 ← resolveTypes parsed markers t pre; resolveTypes parsed markers t1 post).
Proof.
  revert t. induction pre as [|a pre IH]; intros t; simpl; [done|].
  destruct (resolveType parsed markers t a); simpl; [apply IH | done].
Qed.

Lemma resolveType_customTypes parsed markers t name t' n :
  resolveType parsed markers t name = Ok t' ->
  is_Some (t'.(customTypes) !! n) <->
  n = name \/ is_Some (t.(customTypes) !! n).
Proof.
  unfold resolveType. destruct (parsed !! name) as [typ|]; [|done].
  destruct (Schema typ (Resolve t)); simpl; [|done].
  destruct (applyMarkers _ _ _ _) as [[s p]|]; simpl; [|done].
  intros [= <-]. simpl. destruct (decide (n = name)) as [->|Hne].
  - rewrite lookup_insert_eq. split; eauto.
  - rewrite lookup_insert_ne by done. split; [eauto | by intros [?|?]].
Qed.

Lemma resolveTypes_customTypes parsed markers t pre t1 n :
  resolveTypes parsed markers t pre = Ok t1 ->
  n ∈ pre -> is_Some (t1.(customTypes) !! n).
Proof.
  revert t. induction pre as [|a pre IH]; intros t; simpl.
  - intros _ Hn. by apply elem_of_nil in Hn.
  - destruct (resolveType parsed markers t a) as [t'|] eqn:Ha; [simpl|done].
    intros Hpre Hn. destruct (decide (n ∈ pre)) as [Hin|Hnin]; [by eapply IH|].
    apply elem_of_cons in Hn as [->|?]; [|done].
    assert (Hkeep : forall pre' t2 t3,
      resolveTypes parsed markers t2 pre' = Ok t3 ->
      is_Some (t2.(customTypes) !! a) -> is_Some (t3.(customTypes) !! a)).
    { clear. induction pre' as [|b pre' IH']; intros t2 t3; simpl.
      - by intros [= <-].
      - destruct (resolveType parsed markers t2 b) as [t2'|] eqn:Hb;
          [simpl|done].
        intros Hrest Hsome. apply (IH' _ _ Hrest).
        apply (resolveType_customTypes _ _ _ _ _ a Hb). by right. }
    apply (Hkeep _ _ _ Hpre).
    apply (resolveType_customTypes _ _ _ _ _ a Ha). by left.
Qed.

End LoadCustomTypes.

Section LoadCustomTypesMain.
Context `{GoStd} `{TypesPkg}.

Lemma refersTo_cycle_error (t : transformer) (specs : gmap string fieldSpec) a :
  tc (refersTo specs) a a -> is_ok (loadCustomTypes t specs) = false.
Proof.
  intros Hcycle. unfold loadCustomTypes.
  destruct (decide (size specs = 0)) as [Hsize|_].
  - apply map_size_empty_iff in Hsize. subst specs.
    inversion Hcycle as [? ? (spec & ? & ? & Ha & _)|? ? ? (spec & ? & ? & Ha & _)];
      by rewrite lookup_empty in Ha.
  - destruct (parseCustomTypes specs) as [[parsed markers]|] eqn:Hparse;
      [simpl|done].
    pose proof (parseCustomTypes_Ok _ _ _ Hparse) as Hp.
    destruct (typeOrder parsed) as [order|] eqn:Horder; [simpl|done].
    destruct (typeOrder_sound _ _ Horder) as (_ & _ & Hacyclic).
    exfalso. apply (Hacyclic a).
    apply (tc_implies (refersTo specs)); [|done].
    intros u v Huv. apply tc_once.
    by apply (parsedFrom_refersTo specs parsed markers).
Qed.

Lemma parseCustomTypes_complete specs :
  (forall name spec, specs !! name = Some spec ->
                     is_ok (parseSpec spec) = true) ->
  is_ok (parseCustomTypes specs) = true.
Proof.
  unfold parseCustomTypes.
  apply (map_fold_weak_ind (fun acc (m : gmap string fieldSpec) =>
           (forall name spec, m !! name = Some spec ->
                              is_ok (parseSpec spec) = true) ->
           is_ok acc = true)); [done|].
  intros i x m acc Hi IH Hall.
  destruct acc as [[parsed markers]|]; simpl.
  - pose proof (Hall i x (lookup_insert_eq _ _ _)) as Hx.
    by destruct (parseSpec x) as [[typ ms]|].
  - discriminate IH. intros name spec Hn. apply (Hall name spec).
    rewrite lookup_insert_ne; [done|]. intros ->. congruence.
Qed.

(** On a map that parses and defines every type it refers to, a cycle makes
    [loadCustomTypes] fail with the cycle error of a type on a cycle. *)
Lemma refersTo_cyclic_dependency (t : transformer)
    (specs : gmap string fieldSpec) :
  (forall name spec, specs !! name = Some spec ->
                     is_ok (parseSpec spec) = true) ->
  (forall a b, refersTo specs a b -> is_Some (specs !! b)) ->
  (exists a, tc (refersTo specs) a a) ->
  exists name,
    tc (refersTo specs) name name
    /\ loadCustomTypes t specs = Err (ErrCyclicDependency name CycleError).
Proof.
  intros Hparses Hclosed [a Hcycle]. unfold loadCustomTypes.
  rewrite decide_False.
  2:{ intros Hsize. apply map_size_empty_iff in Hsize. subst specs.
      inversion Hcycle
        as [? ? (spec & ? & ? & Ha & _)|? ? ? (spec & ? & ? & Ha & _)];
        by rewrite lookup_empty in Ha. }
  pose proof (parseCustomTypes_complete specs Hparses) as Hok.
  destruct (parseCustomTypes specs) as [[parsed markers]|] eqn:Hparse;
    [simpl|done].
  pose proof (parseCustomTypes_Ok _ _ _ Hparse) as Hp.
  assert (forall u v, refersTo specs u v <-> typeEdge parsed u v) as Hedge.
  { intros u v. by apply (parsedFrom_refersTo specs parsed markers). }
  unfold typeOrder. rewrite addTypeVertices_ok. simpl.
  destruct (addTypeDependencies_closed parsed)
    as [[_ Hacyclic]|(name & Hname & ->)].
  - intros u typ d Hu Hd.
    apply (parsedFrom_is_Some specs parsed markers d Hp).
    apply (Hclosed u). apply Hedge. by exists typ.
  - exfalso. apply (Hacyclic a).
    apply (tc_implies (refersTo specs)); [|done].
    intros u v Huv. apply tc_once. by apply Hedge.
  - exists name. split; [|done].
    apply (tc_implies (typeEdge parsed)); [|done].
    intros u v Huv. apply tc_once. by apply Hedge.
Qed.

(** C5. Loading a [types:] map whose custom types refer to one another in a
    cycle fails; and when every type of the map parses and every type that is
    referred to is defined in the map, it fails with the cycle error, which
    names a type that lies on a cycle. When the map parses, its references are
    defined and free of cycles, the order of resolution exists; and whenever
    there is an order, it lists every custom type once, it is the order in
    which [loadCustomTypes] resolves them, every type comes after the types it
    refers to, and at the moment a type is resolved the types it refers to
    are resolved already. *)
Theorem loadCustomTypes_cycles_and_order (t : transformer)
    (specs : gmap string fieldSpec) :
  ((exists a, tc (refersTo specs) a a) ->
   is_ok (loadCustomTypes t specs) = false
   /\ ((forall name spec, specs !! name = Some spec ->
                          is_ok (parseSpec spec) = true) ->
       (forall a b, refersTo specs a b -> is_Some (specs !! b)) ->
       exists name,
         tc (refersTo specs) name name
         /\ loadCustomTypes t specs
            = Err (ErrCyclicDependency name CycleError)))
  /\ (forall parsed markers,
        parseCustomTypes specs = Ok (parsed, markers) ->
        ((forall a b, refersTo specs a b -> is_Some (specs !! b)) ->
         (forall a, ~ tc (refersTo specs) a a) ->
         is_ok (typeOrder parsed) = true)
        /\ forall order,
             typeOrder parsed = Ok order ->
             order ≡ₚ (map_to_list specs).*1
             /\ (size specs ≠ 0 ->
                 loadCustomTypes t specs = resolveTypes parsed markers t order)
             /\ (forall i a typ d,
                   order !! i = Some a -> parsed !! a = Some typ ->
                   d ∈ Deps typ ->
                   exists j, j < i /\ order !! j = Some d)
             /\ (forall pre a post t',
                   order = pre ++ a :: post ->
                   resolveTypes parsed markers t order = Ok t' ->
                   exists t1,
                     resolveTypes parsed markers t pre = Ok t1
                     /\ is_ok (resolveType parsed markers t1 a) = true
                     /\ forall typ d,
                          parsed !! a = Some typ -> d ∈ Deps typ ->
                          is_ok (Resolve t1 d) = true)).
Proof.
  split.
  { intros [a Ha]. split; [by apply (refersTo_cycle_error t specs a)|].
    intros Hparses Hclosed.
    apply (refersTo_cyclic_dependency t specs Hparses Hclosed). by exists a. }
  intros parsed markers Hparse.
  pose proof (parseCustomTypes_Ok _ _ _ Hparse) as Hp. split.
  - intros Hclosed Hacyclic. apply typeOrder_complete.
    + intros a typ d Ha Hd.
      apply (parsedFrom_is_Some specs parsed markers d Hp).
      apply (Hclosed a). apply (parsedFrom_refersTo specs parsed markers); [done|].
      by exists typ.
    + intros a Hcycle. apply (Hacyclic a).
      apply (tc_implies (typeEdge parsed)); [|done].
      intros u v Huv. apply tc_once.
      by apply (parsedFrom_refersTo specs parsed markers).
  - intros order Horder.
    destruct (typeOrder_sound _ _ Horder) as (Hperm & Hfirst & _).
    split; [by rewrite Hperm; apply (parsedFrom_keys specs parsed markers)|].
    split; [|split; [exact Hfirst|]].
    + intros Hsize. unfold loadCustomTypes.
      rewrite decide_False by done. rewrite Hparse. simpl.
      by rewrite Horder.
    + intros pre a post t' -> Hall. rewrite resolveTypes_app in Hall.
      destruct (resolveTypes parsed markers t pre) as [t1|] eqn:Hpre;
        [simpl in Hall|done].
      exists t1. split; [done|].
      destruct (resolveType parsed markers t1 a) as [t2|] eqn:Ha;
        [simpl in Hall|done].
      split; [done|]. intros typ d Htyp Hd.
      destruct (Hfirst (length pre) a typ d) as (j & Hj & Hjd); try done.
      { by apply list_lookup_middle. }
      rewrite lookup_app_l in Hjd by done.
      destruct (resolveTypes_customTypes parsed markers t pre t1 d Hpre)
        as [ct Hct].
      { apply list_elem_of_lookup. by exists j. }
      unfold Resolve. by rewrite Hct.
Qed.

End LoadCustomTypesMain.

(** [types: {Port: integer, Endpoint: Port, Service: Endpoint}] loads, the
    referenced type first. *)
Example typeOrder_chain :
  @typeOrder namedTypes
    (list_to_map [("Port", "integer"); ("Endpoint", "Port");
                  ("Service", "Endpoint")])
  = Ok ["Port"; "Endpoint"; "Service"]
  /\ is_ok (namedLoad (list_to_map [("Port", FString "integer");
                                    ("Endpoint", FString "Port");
                                    ("Service", FString "Endpoint")])) = true.
Proof. split; vm_compute; reflexivity. Qed.

(** [types: {A: B, B: A}] does not load. *)
Example loadCustomTypes_cycle :
  is_ok (namedLoad (list_to_map [("A", FString "B"); ("B", FString "A")]))
  = false.
Proof. vm_compute. reflexivity. Qed.

Lemma cyclicSpecs_refersTo a b :
  @refersTo namedTypes cyclicSpecs a b <->
  (a = "A" /\ b = "B") \/ (a = "B" /\ b = "A").
Proof.
  split.
  - intros (spec & typ & m & Ha & Hparse & Hb).
    unfold cyclicSpecs in Ha. simpl in Ha.
    apply lookup_insert_Some in Ha as [[<- <-]|[_ Ha]].
    { injection Hparse as <- <-. vm_compute in Hb.
      apply list_elem_of_singleton in Hb. by left. }
    apply lookup_insert_Some in Ha as [[<- <-]|[_ Ha]].
    { injection Hparse as <- <-. vm_compute in Hb.
      apply list_elem_of_singleton in Hb. by right. }
    by rewrite lookup_empty in Ha.
  - intros [[-> ->]|[-> ->]].
    + exists (FString "B"), "B", []. repeat split. apply list_elem_of_singleton.
      done.
    + exists (FString "A"), "A", []. repeat split. apply list_elem_of_singleton.
      done.
Qed.

Lemma loadCustomTypes_cycles_and_order_witness :
  (exists a, tc (@refersTo namedTypes cyclicSpecs) a a)
  /\ (forall name spec, cyclicSpecs !! name = Some spec ->
                        is_ok (@parseSpec namedTypes spec) = true)
  /\ (forall a b, @refersTo namedTypes cyclicSpecs a b ->
                  is_Some (cyclicSpecs !! b))
  /\ exists name,
       tc (@refersTo namedTypes cyclicSpecs) name name
       /\ namedLoad cyclicSpecs = Err (ErrCyclicDependency name CycleError).
Proof.
  assert (exists a, tc (@refersTo namedTypes cyclicSpecs) a a) as Hcycle.
  { exists "A". apply (tc_l _ _ "B"); [|apply tc_once];
      apply cyclicSpecs_refersTo; auto. }
  assert (forall name spec, cyclicSpecs !! name = Some spec ->
            is_ok (@parseSpec namedTypes spec) = true) as Hparses.
  { intros name spec Hn. unfold cyclicSpecs in Hn. simpl in Hn.
    apply lookup_insert_Some in Hn as [[_ <-]|[_ Hn]]; [done|].
    apply lookup_insert_Some in Hn as [[_ <-]|[_ Hn]]; [done|].
    by rewrite lookup_empty in Hn. }
  assert (forall a b, @refersTo namedTypes cyclicSpecs a b ->
            is_Some (cyclicSpecs !! b)) as Hclosed.
  { intros a b [[_ ->]|[_ ->]]%cyclicSpecs_refersTo; by eexists. }
  split; [exact Hcycle|]. split; [exact Hparses|]. split; [exact Hclosed|].
  exact (proj2 (proj1 (@loadCustomTypes_cycles_and_order sampleGoStd namedTypes
                         (mkTransformer ∅) cyclicSpecs) Hcycle)
               Hparses Hclosed).
Defined.

(** C5 as stated fails on a map that holds a cycle and a type that does not
    parse: [types: {A: B, B: A, C: 42}]. The first loop of [loadCustomTypes]
    returns the error of parsing [C] before the graph is built, so the
    failure is no cycle error. *)
Lemma cyclic_types_parse_error_first :
  tc (@refersTo namedTypes cyclicUnparsedSpecs) "A" "A"
  /\ namedLoad cyclicUnparsedSpecs
     = Err (ErrParsingType "C" (ErrTypes "unknown spec")).
Proof.
  split; [|vm_compute; reflexivity].
  apply (tc_l _ _ "B"); [|apply tc_once].
  - exists (FString "B"), "B", []. repeat split.
    apply list_elem_of_singleton. done.
  - exists (FString "A"), "A", []. repeat split.
    apply list_elem_of_singleton. done.
Qed.

(** ** Strings *)

Lemma string_app_cons x (a b : string) :
  String x a +:+ b = String x (a +:+ b).
Proof. done. Qed.

Lemma string_app_assoc (a b c : string) : (a +:+ b) +:+ c = a +:+ (b +:+ c).
Proof.
  induction a as [|x a IH]; [done|]. rewrite !string_app_cons. by rewrite IH.
Qed.

Lemma string_app_nil_r (a : string) : a +:+ "" = a.
Proof.
  induction a as [|x a IH]; [done|]. rewrite ?string_app_cons. simpl.
  by rewrite IH.
Qed.

(** ** More on [cleanMetadata] *)

Lemma dropIfEmptyMap_lookup_eq field (md : gmap string value) f :
  dropIfEmptyMap field md !! f =
  match md !! f with
  | Some (VMap a) => if decide (f = field /\ a = ∅) then None else Some (VMap a)
  | o => o
  end.
Proof.
  unfold dropIfEmptyMap. destruct (decide (f = field)) as [->|Hne].
  - destruct (md !! field) as [v|] eqn:Hfield; [|by rewrite Hfield].
    destruct v as [| | | | | |a|]; try by rewrite Hfield.
    destruct (decide (size a = 0)) as [Hs|Hs].
    + rewrite lookup_delete_eq. apply map_size_empty_iff in Hs.
      by rewrite decide_True.
    + rewrite Hfield. rewrite decide_False; [done|]. intros [_ ->].
      by rewrite map_size_empty in Hs.
  - assert (match md !! field with
            | Some (VMap a) =>
                if decide (size a = 0) then delete field md else md
            | _ => md
            end !! f = md !! f) as ->.
    { repeat case_match; try done. by rewrite lookup_delete_ne. }
    destruct (md !! f) as [[| | | | | |a|]|]; try done.
    rewrite decide_False; [done|]. by intros [? _].
Qed.

Lemma cleanMetadataMap_lookup (md : gmap string value) f :
  cleanMetadataMap md !! f = keptField md f.
Proof.
  unfold cleanMetadataMap, keptField. rewrite lookup_foldl_delete.
  destruct (decide (f ∈ fieldsToRemove)) as [|Hf]; [done|].
  rewrite dropIfEmptyMap_lookup_eq, dropIfEmptyMap_lookup_eq.
  destruct (md !! f) as [v|] eqn:Hmd; [|done].
  destruct v as [| | | | | |a|]; try done.
  destruct (decide (f = "annotations" /\ a = ∅)) as [[-> ->]|Ha].
  - by rewrite decide_True by auto.
  - destruct (decide (f = "labels" /\ a = ∅)) as [[-> ->]|Hl].
    + by rewrite decide_True by auto.
    + rewrite decide_False; [done|]. intros [[->| ->] ->]; auto.
Qed.

Lemma keptField_cleanMetadataMap md f :
  keptField (cleanMetadataMap md) f = keptField md f.
Proof.
  unfold keptField at 1. rewrite cleanMetadataMap_lookup.
  unfold keptField. destruct (decide (f ∈ fieldsToRemove)); [done|].
  destruct (md !! f) as [[| | | | | |a|]|]; try done.
  destruct (decide ((f = "annotations" \/ f = "labels") /\ a = ∅)) as [|Hn];
    [done|].
  by rewrite decide_False.
Qed.

Lemma cleanMetadataMap_idempotent md :
  cleanMetadataMap (cleanMetadataMap md) = cleanMetadataMap md.
Proof.
  apply map_eq. intros f.
  by rewrite !cleanMetadataMap_lookup, keptField_cleanMetadataMap.
Qed.

Lemma cleanMetadata_insert obj md :
  cleanMetadata (<["metadata" := VMap md]> obj)
  = <["metadata" := VMap (cleanMetadataMap md)]> obj.
Proof.
  unfold cleanMetadata. rewrite lookup_insert_eq. by rewrite insert_insert_eq.
Qed.

(** X1. [cleanMetadata] is idempotent: cleaning an object that is clean
    changes nothing. *)
Theorem cleanMetadata_idempotent (obj : gmap string value) :
  cleanMetadata (cleanMetadata obj) = cleanMetadata obj.
Proof.
  unfold cleanMetadata at 2.
  destruct (obj !! "metadata") as [v|] eqn:Hm.
  - destruct v as [| | | | | |md|]; try done.
    rewrite cleanMetadata_insert, cleanMetadataMap_idempotent.
    unfold cleanMetadata. by rewrite Hm.
  - done.
Qed.

(** X2. [cleanMetadata] removes the nine listed fields and empty [labels] and
    [annotations] maps from the metadata, and nothing else: every other field
    of the object and of its metadata stays as it is; an object whose metadata
    is no map is left as it is. *)
Theorem cleanMetadata_removes_exactly (obj : gmap string value) :
  (forall k, k ≠ "metadata" -> cleanMetadata obj !! k = obj !! k)
  /\ match obj !! "metadata" with
     | Some (VMap md) =>
         exists md',
           cleanMetadata obj !! "metadata" = Some (VMap md')
           /\ forall f,
                md' !! f =
                if decide (f ∈ fieldsToRemove) then None
                else
                  match md !! f with
                  | Some (VMap a) =>
                      if decide ((f = "annotations" \/ f = "labels") /\ a = ∅)
                      then None else Some (VMap a)
                  | o => o
                  end
     | _ => cleanMetadata obj = obj
     end.
Proof.
  split; [intros k Hk; by apply cleanMetadata_lookup_ne|].
  unfold cleanMetadata. destruct (obj !! "metadata") as [v|] eqn:Hm; [|done].
  destruct v as [| | | | | |md|]; try done.
  exists (cleanMetadataMap md). rewrite lookup_insert_eq. split; [done|].
  intros f. apply cleanMetadataMap_lookup.
Qed.

(** X3. An empty [labels] or [annotations] map counts as an absent one, on
    either side of the comparison. *)
Theorem Compare_empty_map_as_absent (desired observed : gmap string value)
    (md : gmap string value) (field : string) :
  field = "annotations" \/ field = "labels" ->
  Compare (<["metadata" := VMap (<[field := VMap ∅]> md)]> desired) observed
  = Compare (<["metadata" := VMap (delete field md)]> desired) observed
  /\ Compare desired (<["metadata" := VMap (<[field := VMap ∅]> md)]> observed)
     = Compare desired (<["metadata" := VMap (delete field md)]> observed).
Proof.
  intros Hfield.
  assert (cleanMetadataMap (<[field := VMap ∅]> md)
          = cleanMetadataMap (delete field md)) as Heq.
  { apply map_eq. intros f. rewrite !cleanMetadataMap_lookup. unfold keptField.
    destruct (decide (f ∈ fieldsToRemove)); [done|].
    destruct (decide (f = field)) as [->|Hne].
    - rewrite lookup_insert_eq, lookup_delete_eq. by rewrite decide_True.
    - by rewrite lookup_insert_ne, lookup_delete_ne. }
  unfold Compare. by rewrite !cleanMetadata_insert, Heq.
Qed.

Lemma Compare_empty_map_as_absent_witness :
  ("labels" = "annotations" \/ "labels" = "labels")
  /\ Compare (<["metadata" := VMap (<["labels" := VMap ∅]>
                                      {[ "name" := VString "m-a" ]})]>
               configMapObject) configMapObject
     = Compare (<["metadata" := VMap (delete "labels"
                                        {[ "name" := VString "m-a" ]})]>
                 configMapObject) configMapObject
  /\ Compare configMapObject
             (<["metadata" := VMap (<["labels" := VMap ∅]>
                                      {[ "name" := VString "m-a" ]})]>
                configMapObject)
     = Compare configMapObject
               (<["metadata" := VMap (delete "labels"
                                        {[ "name" := VString "m-a" ]})]>
                  configMapObject).
Proof.
  split; [by right|].
  exact (Compare_empty_map_as_absent configMapObject configMapObject
           {[ "name" := VString "m-a" ]} "labels" (or_intror eq_refl)).
Defined.

(** ** What the walk reports *)

Lemma walkMap_elem d e path k v x :
  d !! k = Some v -> x ∈ walkEntry e path k v -> x ∈ walkMap d e path.
Proof.
  intros Hk Hx. rewrite walkMap_foldr.
  apply elem_of_map_to_list in Hk.
  induction (map_to_list d) as [|[k' v'] l IH]; [by apply elem_of_nil in Hk|].
  simpl. apply elem_of_app. apply elem_of_cons in Hk as [[= <- <-]|Hk].
  - by left.
  - right. by apply IH.
Qed.

Lemma elem_of_walkMap d e path x :
  x ∈ walkMap d e path ->
  exists k v, d !! k = Some v /\ x ∈ walkEntry e path k v.
Proof.
  rewrite walkMap_foldr. intros Hx.
  assert (exists k v, (k, v) ∈ map_to_list d /\ x ∈ walkEntry e path k v)
    as (k & v & Hin & Hxe).
  { induction (map_to_list d) as [|[k' v'] l IH];
      [by apply elem_of_nil in Hx|].
    simpl in Hx. apply elem_of_app in Hx as [Hx|Hx].
    - exists k', v'. split; [left | done].
    - destruct (IH Hx) as (k & v & Hin & Hxe). exists k, v.
      split; [by right | done]. }
  exists k, v. split; [by apply elem_of_map_to_list | done].
Qed.

Lemma mapPath_root k : mapPath "" k = k.
Proof. done. Qed.

(** X4. A field of [desired] that [observed] lacks is reported with its
    desired value against [nil], unless the desired value is [nil]; a field
    that both hold is reported with all the differences of its walk, so a
    scalar that differs is reported with both values. *)
Theorem Compare_reports_field (desired observed : gmap string value)
    (k : string) (v : value) :
  k ≠ "metadata" ->
  desired !! k = Some v ->
  (observed !! k = None -> is_nil v = false ->
   mkDifference k v VNil ∈ (Compare desired observed).1)
  /\ (forall w x, observed !! k = Some w -> x ∈ walkCompare v w k ->
        x ∈ (Compare desired observed).1)
  /\ (forall w, observed !! k = Some w -> scalar v -> iface_eqb v w = false ->
        mkDifference k v w ∈ (Compare desired observed).1).
Proof.
  intros Hk Hv.
  assert (forall x, x ∈ walkEntry (cleanMetadata observed) "" k v ->
                    x ∈ (Compare desired observed).1) as Hentry.
  { intros x Hx. unfold Compare. cbn [fst]. rewrite walkCompare_map.
    apply (walkMap_elem _ _ _ k v); [|done].
    by rewrite cleanMetadata_lookup_ne. }
  unfold walkEntry in Hentry. rewrite cleanMetadata_lookup_ne in Hentry by done.
  rewrite mapPath_root in Hentry. repeat split.
  - intros Ho Hnil. apply Hentry. rewrite Ho, Hnil. left.
  - intros w x Ho Hx. apply Hentry. by rewrite Ho.
  - intros w Ho Hs Hne. apply Hentry. rewrite Ho.
    destruct v; try done; simpl in *; rewrite Hne; left.
Qed.

Lemma Compare_reports_field_witness :
  "data" ≠ "metadata"
  /\ configMapObject !! "data"
     = Some (VMap (list_to_map [("key", VString "a")]))
  /\ mkDifference "data" (VMap (list_to_map [("key", VString "a")])) VNil
     ∈ (Compare configMapObject (delete "data" configMapObject)).1.
Proof.
  assert ("data" ≠ "metadata") as Hne by done.
  assert (configMapObject !! "data"
          = Some (VMap (list_to_map [("key", VString "a")]))) as Hv
    by reflexivity.
  split; [exact Hne|]. split; [exact Hv|].
  apply (proj1 (Compare_reports_field configMapObject
                  (delete "data" configMapObject) "data" _ Hne Hv));
    reflexivity.
Defined.

(** *** Paths *)

Lemma walkSliceFrom_elem ds es path i x :
  x ∈ walkSliceFrom ds es path i ->
  exists j d e, ds !! j = Some d /\ es !! j = Some e
                /\ x ∈ walkCompare d e (slicePath path (i + j)).
Proof.
  revert es i. induction ds as [|d ds IH]; intros [|e es] i Hx;
    try by apply elem_of_nil in Hx.
  simpl in Hx. apply elem_of_app in Hx as [Hx|Hx].
  - exists 0, d, e. by rewrite Nat.add_0_r.
  - destruct (IH _ _ Hx) as (j & d' & e' & Hd & He & Hin).
    exists (S j), d', e'. by rewrite Nat.add_succ_r.
Qed.

Lemma walkCompare_path d :
  forall o path x, x ∈ walkCompare d o path ->
                   exists rest, Path x = path +:+ rest.
Proof.
  induction d as [| | | | | |m IH|l IH] using value_tree_ind;
    intros o path x Hx.
  1-6: (simpl in Hx; destruct (negb _); [|by apply elem_of_nil in Hx];
        apply list_elem_of_singleton in Hx as ->; exists "";
        by rewrite string_app_nil_r).
  - destruct o as [| | | | | |e|];
      try (apply list_elem_of_singleton in Hx as ->; exists "";
           by rewrite string_app_nil_r).
    rewrite walkCompare_map in Hx.
    apply elem_of_walkMap in Hx as (k & v & Hk & Hx).
    assert (exists rest, Path x = mapPath path k +:+ rest) as [rest Hrest].
    { unfold walkEntry in Hx. destruct (e !! k) as [w|].
      - by apply (IH k v Hk w).
      - destruct (is_nil v); [by apply (IH k v Hk VNil)|].
        apply list_elem_of_singleton in Hx as ->. exists "".
        by rewrite string_app_nil_r. }
    unfold mapPath in Hrest. destruct (String.eqb path "") eqn:Hp.
    + apply String.eqb_eq in Hp as ->. by exists (Path x).
    + exists ("." +:+ k +:+ rest). rewrite Hrest.
      by rewrite !string_app_assoc.
  - destruct o as [| | | | | | |e];
      try (apply list_elem_of_singleton in Hx as ->; exists "";
           by rewrite string_app_nil_r).
    rewrite walkCompare_slice in Hx. unfold walkSlice in Hx.
    destruct (negb _).
    { apply list_elem_of_singleton in Hx as ->. exists "".
      by rewrite string_app_nil_r. }
    apply walkSliceFrom_elem in Hx as (j & d & e' & Hd & He & Hx).
    rewrite Forall_lookup in IH.
    destruct (IH j d Hd e' _ x Hx) as [rest Hrest].
    exists ("[" +:+ pretty (0 + j) +:+ "]" +:+ rest). rewrite Hrest.
    unfold slicePath. by rewrite !string_app_assoc.
Qed.

(** X5. Every difference lies below the path the walk started from, so
    [Compare] reports paths below the fields of [desired] only. *)
Theorem Compare_paths_below_desired (desired observed : gmap string value) :
  (forall d o path x,
     x ∈ walkCompare d o path -> exists rest, Path x = path +:+ rest)
  /\ (forall x,
        x ∈ (Compare desired observed).1 ->
        exists k rest, is_Some (desired !! k) /\ Path x = k +:+ rest).
Proof.
  split; [intros d o path x; apply walkCompare_path|].
  intros x Hx. unfold Compare in Hx. cbn [fst] in Hx.
  rewrite walkCompare_map in Hx.
  apply elem_of_walkMap in Hx as (k & v & Hk & Hx).
  assert (is_Some (desired !! k)) as Hsome.
  { apply cleanMetadata_is_Some. by exists v. }
  exists k. unfold walkEntry in Hx. rewrite mapPath_root in Hx.
  destruct (cleanMetadata observed !! k) as [w|].
  - destruct (walkCompare_path v w k x Hx) as [rest Hrest]. by exists rest.
  - destruct (is_nil v).
    + destruct (walkCompare_path v VNil k x Hx) as [rest Hrest]. by exists rest.
    + apply list_elem_of_singleton in Hx as ->. exists "".
      by rewrite string_app_nil_r.
Qed.

(** *** No difference *)

Lemma nil_iff_no_elem {A} (l : list A) : l = [] <-> forall x, x ∉ l.
Proof.
  split; [intros -> x; apply not_elem_of_nil|].
  destruct l as [|a l]; [done|]. intros Hl. destruct (Hl a). left.
Qed.

Lemma walkMap_nil_iff d e path :
  walkMap d e path = [] <->
  forall k v, d !! k = Some v -> walkEntry e path k v = [].
Proof.
  split; [|apply walkMap_nil].
  intros Hnil k v Hk. apply nil_iff_no_elem. intros x Hx.
  apply (walkMap_elem d e path k v x Hk) in Hx. rewrite Hnil in Hx.
  by apply elem_of_nil in Hx.
Qed.

Lemma is_nil_true v : is_nil v = true <-> v = VNil.
Proof. by destruct v. Qed.

Lemma walkEntry_nil e path k v :
  walkEntry e path k v = [] <->
  match e !! k with
  | Some w => walkCompare v w (mapPath path k) = []
  | None => v = VNil
  end.
Proof.
  unfold walkEntry. destruct (e !! k) as [w|]; [done|].
  destruct (is_nil v) eqn:Hnil.
  - apply is_nil_true in Hnil as ->. done.
  - split; [done|]. intros ->. done.
Qed.

Lemma covers_scalar_iff v w :
  scalar v -> covers v w <-> iface_eqb v w = true.
Proof.
  intros Hs. split; [|by apply covers_scalar].
  intros Hc. inversion Hc; subst; done.
Qed.

Lemma walkSliceFrom_nil ds es path i :
  Forall (fun v => forall o p, walkCompare v o p = [] <-> covers v o) ds ->
  length ds = length es ->
  walkSliceFrom ds es path i = [] <-> Forall2 covers ds es.
Proof.
  intros IH. revert es i.
  induction IH as [|d ds Hd _ IHds]; intros [|e es] i Hlen; try done.
  simpl. rewrite app_nil, Hd, (IHds es (S i)) by (simpl in Hlen; lia).
  by rewrite Forall2_cons.
Qed.

Lemma walkCompare_nil d :
  forall o path, walkCompare d o path = [] <-> covers d o.
Proof.
  induction d as [| | | | | |m IH|l IH] using value_tree_ind; intros o path.
  1-6: (rewrite covers_scalar_iff by done; cbn [walkCompare];
        destruct (iface_eqb _ o); simpl; split; done).
  - destruct o as [| | | | | |e|];
      try (split; [done | intros Hc; inversion Hc; subst; done]).
    rewrite walkCompare_map, walkMap_nil_iff. split.
    + intros Hall. apply covers_map.
      * intros k v w Hk He. specialize (Hall k v Hk).
        apply walkEntry_nil in Hall. rewrite He in Hall.
        by apply (IH k v Hk) in Hall.
      * intros k v Hk He. specialize (Hall k v Hk).
        apply walkEntry_nil in Hall. by rewrite He in Hall.
    + intros Hc k v Hk. inversion Hc as [? ? Hs| ? ? Hsome Hnone|]; subst;
        [done|]. apply walkEntry_nil. destruct (e !! k) as [w|] eqn:He.
      * apply (IH k v Hk). by apply (Hsome k).
      * by apply (Hnone k).
  - destruct o as [| | | | | | |es];
      try (split; [done | intros Hc; inversion Hc; subst; done]).
    rewrite walkCompare_slice. unfold walkSlice.
    destruct (length l =? length es) eqn:Hlen; simpl.
    + apply Nat.eqb_eq in Hlen. rewrite walkSliceFrom_nil by done.
      split; [apply covers_slice|].
      intros Hc. inversion Hc; subst; done.
    + apply Nat.eqb_neq in Hlen. split; [done|]. intros Hc.
      inversion Hc as [? ? Hs| |? ? Hall]; subst; [done|].
      by apply Forall2_length in Hall.
Qed.

(** X6. The walk reports nothing exactly when the observed value covers the
    desired one, and so does [Compare] for the two objects once their metadata
    are cleaned. *)
Theorem Compare_nothing_iff_covers (desired observed : gmap string value) :
  (forall d o path, walkCompare d o path = [] <-> covers d o)
  /\ ((Compare desired observed).1 = [] <->
      covers (VMap (cleanMetadata desired)) (VMap (cleanMetadata observed))).
Proof.
  split; [intros d o path; apply walkCompare_nil|].
  unfold Compare. cbn [fst]. apply walkCompare_nil.
Qed.

Lemma cleanMetadata_mono (desired observed : gmap string value) :
  desired ⊆ observed -> cleanMetadata desired ⊆ cleanMetadata observed.
Proof.
  intros Hsub. apply map_subseteq_spec. intros k v Hk.
  destruct (decide (k = "metadata")) as [->|Hne].
  - unfold cleanMetadata in *.
    destruct (desired !! "metadata") as [w|] eqn:Hm; [|by rewrite Hm in Hk].
    rewrite (lookup_weaken desired observed _ _ Hm Hsub).
    destruct w;
      first [ rewrite lookup_insert_eq in Hk; by rewrite lookup_insert_eq
            | by apply (lookup_weaken desired observed) ].
  - rewrite cleanMetadata_lookup_ne in * by done.
    by apply (lookup_weaken desired).
Qed.

(** X7. [Compare] reports nothing when the observed object holds every
    top-level field of the desired one with the same value, whatever else it
    holds, as long as the desired object holds no NaN. *)
Theorem Compare_submap_no_differences (desired observed : gmap string value) :
  has_nan (VMap desired) = false ->
  desired ⊆ observed ->
  Compare desired observed = ([], None).
Proof.
  intros Hnan Hsub. unfold Compare. f_equal. rewrite walkCompare_map.
  apply walkMap_nil. intros k v Hk. unfold walkEntry.
  rewrite (lookup_weaken _ _ _ _ Hk (cleanMetadata_mono _ _ Hsub)).
  apply walkCompare_self.
  apply cleanMetadata_no_nan in Hnan.
  by apply (proj1 (has_nan_map_false _) Hnan k).
Qed.

Lemma Compare_submap_no_differences_witness :
  has_nan (VMap (delete "data" configMapObject)) = false
  /\ delete "data" configMapObject ⊆ configMapObject
  /\ Compare (delete "data" configMapObject) configMapObject = ([], None).
Proof.
  assert (has_nan (VMap (delete "data" configMapObject)) = false) as Hnan
    by reflexivity.
  assert (delete "data" configMapObject ⊆ configMapObject) as Hsub
    by apply delete_subseteq.
  split; [exact Hnan|]. split; [exact Hsub|].
  exact (Compare_submap_no_differences _ _ Hnan Hsub).
Defined.

(** ** Marker names *)

Lemma markerTypeFromString_name t :
  markerTypeFromString (markerTypeName t) = Some t.
Proof. by destruct t. Qed.

Lemma markerTypeFromString_Some s t :
  markerTypeFromString s = Some t -> s = markerTypeName t.
Proof.
  unfold markerTypeFromString. intros Hfind.
  apply find_some in Hfind as [_ Heq]. symmetry. by apply String.eqb_eq.
Qed.

(** X8. [markerTypeFromString] accepts the fourteen marker names and nothing
    else, and the type it returns is the one with that name. *)
Theorem markerTypeFromString_iff (s : string) (t : MarkerType) :
  markerTypeFromString s = Some t <-> s = markerTypeName t.
Proof.
  split; [apply markerTypeFromString_Some|].
  intros ->. apply markerTypeFromString_name.
Qed.

(** ** More on markers *)

Section MoreMarkers.
Context `{GoStd} `{TypesPkg}.

Lemma setRequired_same p : setRequired p.(Required) p = p.
Proof. by destruct p. Qed.

Lemma setRequired_twice x y p : setRequired x (setRequired y p) = setRequired x p.
Proof. done. Qed.

Lemma applyMarker_parent_required schema m key parent schema' parent' :
  applyMarker schema m key parent = Ok (schema', parent') ->
  parent' = if saysRequired m
            then setRequired (parent.(Required) ++ [key]) parent
            else parent.
Proof.
  unfold applyMarker, saysRequired.
  destruct (m.(MarkerType_)); repeat case_match;
    try (by intros [= <- <-]); try done.
  destruct (mapResult _ _); simpl; [|done].
  case_match; by intros [= <- <-].
Qed.

Lemma applyMarkers_parent_required schema markers key parent schema' parent' :
  applyMarkers schema markers key parent = Ok (schema', parent') ->
  parent' = setRequired
              (parent.(Required)
               ++ replicate (length (List.filter saysRequired markers)) key)
              parent.
Proof.
  revert schema parent. induction markers as [|m ms IH]; intros s p; simpl.
  - intros [= <- <-]. by rewrite app_nil_r, setRequired_same.
  - destruct (applyMarker s m key p) as [[s1 p1]|] eqn:Hm; [simpl|done].
    intros Hms. apply IH in Hms as ->.
    apply applyMarker_parent_required in Hm as ->.
    destruct (saysRequired m); [|done]. simpl.
    by rewrite setRequired_twice, <- app_assoc.
Qed.

(** X9. The markers touch the parent schema in its [Required] list only: the
    key is appended once for every [required] marker that says true, and every
    other field of the parent stays as it is. *)
Theorem applyMarkers_parent_only_required (schema : JSONSchemaProps)
    (markers : list Marker) (key : string)
    (parent schema' parent' : JSONSchemaProps) :
  applyMarkers schema markers key parent = Ok (schema', parent') ->
  parent' = setRequired
              (parent.(Required)
               ++ replicate (length (List.filter saysRequired markers)) key)
              parent.
Proof. apply applyMarkers_parent_required. Qed.

Lemma applyMarker_shape schema m key parent schema' parent' :
  applyMarker schema m key parent = Ok (schema', parent') ->
  schema'.(Type_) = schema.(Type_)
  /\ schema'.(Properties) = schema.(Properties)
  /\ schema'.(Items) = schema.(Items)
  /\ schema'.(AdditionalProperties) = schema.(AdditionalProperties)
  /\ schema'.(Required) = schema.(Required).
Proof.
  unfold applyMarker.
  destruct (m.(MarkerType_)); repeat case_match;
    try (by intros [= <- <-]); try done.
  destruct (mapResult _ _); simpl; [|done].
  case_match; by intros [= <- <-].
Qed.

(** X10. The markers never change the type of the schema they are applied to,
    nor its properties, its items or its own [Required] list. *)
Theorem applyMarkers_keep_shape (schema : JSONSchemaProps)
    (markers : list Marker) (key : string)
    (parent schema' parent' : JSONSchemaProps) :
  applyMarkers schema markers key parent = Ok (schema', parent') ->
  schema'.(Type_) = schema.(Type_)
  /\ schema'.(Properties) = schema.(Properties)
  /\ schema'.(Items) = schema.(Items)
  /\ schema'.(AdditionalProperties) = schema.(AdditionalProperties)
  /\ schema'.(Required) = schema.(Required).
Proof.
  revert schema parent. induction markers as [|m ms IH]; intros s p; simpl.
  - by intros [= <- <-].
  - destruct (applyMarker s m key p) as [[s1 p1]|] eqn:Hm; [simpl|done].
    intros Hms. apply IH in Hms as (-> & -> & -> & -> & ->).
    by apply applyMarker_shape in Hm.
Qed.

(** X11. A [validation] marker replaces the validation rules, an [immutable]
    marker appends one: written after [immutable=true], [validation] drops the
    immutability rule; written before it, both rules are kept. *)
Theorem applyMarkers_validation_order (schema : JSONSchemaProps)
    (rule key : string) (parent : JSONSchemaProps) :
  String.eqb (TrimSpace rule) "" = false ->
  applyMarkers schema [mkMarker MarkerTypeImmutable "immutable" "true";
                       mkMarker MarkerTypeValidation "validation" rule]
               key parent
  = Ok (setXValidations [mkRule rule "validation failed"] schema, parent)
  /\ applyMarkers schema [mkMarker MarkerTypeValidation "validation" rule;
                          mkMarker MarkerTypeImmutable "immutable" "true"]
                  key parent
     = Ok (setXValidations [mkRule rule "validation failed";
                            mkRule "self == oldSelf" "field is immutable"]
                           schema, parent).
Proof.
  intros Hrule. split; simpl; unfold applyMarker; simpl; by rewrite Hrule.
Qed.

End MoreMarkers.

Lemma applyMarkers_parent_only_required_witness :
  @applyMarkers sampleGoStd stringSchema
    [mkMarker MarkerTypeRequired "required" "true"] "name" objectSchema
  = Ok (stringSchema, setRequired ["name"] objectSchema)
  /\ setRequired ["name"] objectSchema
     = setRequired
         (objectSchema.(Required)
          ++ replicate
               (length (List.filter saysRequired
                          [mkMarker MarkerTypeRequired "required" "true"]))
               "name")
         objectSchema.
Proof.
  assert (@applyMarkers sampleGoStd stringSchema
            [mkMarker MarkerTypeRequired "required" "true"] "name" objectSchema
          = Ok (stringSchema, setRequired ["name"] objectSchema)) as Happly
    by reflexivity.
  split; [exact Happly|].
  exact (@applyMarkers_parent_only_required sampleGoStd _ _ _ _ _ _ Happly).
Defined.

Lemma applyMarkers_keep_shape_witness :
  @applyMarkers sampleGoStd stringSchema
    [mkMarker MarkerTypeDefault "default" "a"] "name" objectSchema
  = Ok (setDefault (Some (dquote +:+ "a" +:+ dquote)) stringSchema,
        objectSchema)
  /\ (setDefault (Some (dquote +:+ "a" +:+ dquote)) stringSchema).(Type_)
     = stringSchema.(Type_).
Proof.
  assert (@applyMarkers sampleGoStd stringSchema
            [mkMarker MarkerTypeDefault "default" "a"] "name" objectSchema
          = Ok (setDefault (Some (dquote +:+ "a" +:+ dquote)) stringSchema,
                objectSchema)) as Happly by reflexivity.
  split; [exact Happly|].
  exact (proj1 (@applyMarkers_keep_shape sampleGoStd _ _ _ _ _ _ Happly)).
Defined.

Lemma applyMarkers_validation_order_witness :
  String.eqb (@TrimSpace sampleGoStd "self > 0") "" = false
  /\ @applyMarkers sampleGoStd stringSchema
       [mkMarker MarkerTypeImmutable "immutable" "true";
        mkMarker MarkerTypeValidation "validation" "self > 0"]
       "name" objectSchema
     = Ok (setXValidations [mkRule "self > 0" "validation failed"]
                           stringSchema, objectSchema).
Proof.
  split; [reflexivity|].
  exact (proj1 (@applyMarkers_validation_order sampleGoStd stringSchema
                  "self > 0" "name" objectSchema eq_refl)).
Defined.

(** ** More on the schema builder *)

Section MoreBuilder.
Context `{GoStd} `{TypesPkg}.

Lemma elem_of_replicate_key (n : nat) (key name : string) :
  name ∈ replicate n key <-> name = key /\ n ≠ 0.
Proof. rewrite elem_of_replicate. tauto. Qed.

Lemma filter_saysRequired_length markers :
  length (List.filter saysRequired markers) ≠ 0 <->
  exists m, m ∈ markers /\ saysRequired m = true.
Proof.
  induction markers as [|m ms IH]; simpl.
  - split; [done|]. intros (m & Hm & _). by apply elem_of_nil in Hm.
  - destruct (saysRequired m) eqn:Hm; simpl.
    + split; [|done]. intros _. exists m. split; [left | done].
    + rewrite IH. split.
      * intros (m' & Hin & Hs). exists m'. split; [by right | done].
      * intros (m' & Hin & Hs). apply elem_of_cons in Hin as [->|Hin];
          [congruence|]. by exists m'.
Qed.

(** What building one field does to the parent schema. *)
Lemma buildFieldSchema_parent_required t name field parent child parent' :
  buildFieldSchema t name field parent = Ok (child, parent') ->
  parent'.(Type_) = parent.(Type_)
  /\ parent'.(Properties) = parent.(Properties)
  /\ forall n, n ∈ parent'.(Required) <->
               n ∈ parent.(Required) \/ (n = name /\ asksRequired t field).
Proof.
  destruct field as [val|val|]; [| |done].
  - cbn [buildFieldSchema]. unfold buildFieldFromString.
    destruct (ParseField val) as [[typ markers]|] eqn:Hparse; [simpl|done].
    destruct (Schema typ (Resolve t)) as [schema|]; [simpl|done].
    intros Hms. apply applyMarkers_parent_required in Hms as ->.
    assert (forall custom, asCustom typ = Some custom ->
              IsRequired t custom = true ->
              asksRequired t (FString val)) as Hcustom.
    { intros custom Hc Hr. exists val, typ, markers.
      repeat split; [done|]. left. by exists custom. }
    assert (length (List.filter saysRequired markers) ≠ 0 ->
            asksRequired t (FString val)) as Hmarker.
    { intros Hn. apply filter_saysRequired_length in Hn.
      exists val, typ, markers. repeat split; [done|]. by right. }
    assert (asksRequired t (FString val) ->
            (exists custom, asCustom typ = Some custom
                            /\ IsRequired t custom = true)
            \/ length (List.filter saysRequired markers) ≠ 0) as Hasks.
    { intros (val' & typ' & markers' & [= <-] & Hparse' & Hor).
      rewrite Hparse in Hparse'. injection Hparse' as <- <-.
      destruct Hor as [?|Hm]; [by left|]. right.
      by apply filter_saysRequired_length. }
    unfold appendRequiredIfCustom.
    destruct (asCustom typ) as [custom|] eqn:Hc;
      [destruct (IsRequired t custom) eqn:Hr|]; cbn.
    + split; [done|]. split; [done|]. intros n.
      rewrite !elem_of_app, elem_of_replicate_key, list_elem_of_singleton.
      split; [|intros [? | [-> _]]; auto].
      intros [[? | ->] | [-> _]]; eauto.
    + split; [done|]. split; [done|]. intros n.
      rewrite elem_of_app, elem_of_replicate_key.
      split; [intros [?|[-> ?]]; auto|].
      intros [?|[-> Ha]]; [by left|]. right. split; [done|].
      destruct (Hasks Ha) as [(c & [= <-] & Hr')|?]; [congruence | done].
    + split; [done|]. split; [done|]. intros n.
      rewrite elem_of_app, elem_of_replicate_key.
      split; [intros [?|[-> ?]]; auto|].
      intros [?|[-> Ha]]; [by left|]. right. split; [done|].
      by destruct (Hasks Ha) as [(c & ? & _)|?].
  - rewrite buildFieldSchema_map.
    destruct (buildFields t val); simpl; [|done]. intros [= <- <-].
    split; [done|]. split; [done|]. intros n. split; [by left|].
    intros [?|[_ (v & ? & ? & ? & _)]]; done.
Qed.

Lemma buildFields_recorded t spec st :
  buildFields t spec = Ok st -> fieldsRecorded t spec st.1.
Proof.
  unfold buildFields. revert st.
  apply (map_fold_weak_ind (fun acc (m : gmap string fieldSpec) =>
           forall st, acc = Ok st -> fieldsRecorded t m st.1)).
  - intros st [= <-]. split; [done|]. split.
    + intros name. by rewrite !lookup_empty.
    + intros name. simpl. split; [by intros ?%elem_of_nil|].
      intros (field & Hf & _). by rewrite lookup_empty in Hf.
  - intros i x m acc Hi IH st.
    destruct acc as [[schema chd]|]; [simpl|done].
    destruct (buildFieldSchema t i x schema) as [[fs schema']|] eqn:Hfs;
      [simpl|done].
    intros [= <-]. unfold recordField. cbn [fst].
    destruct (IH _ eq_refl) as (Hty & Hprops & Hreq). cbn [fst] in *.
    destruct (buildFieldSchema_parent_required _ _ _ _ _ _ Hfs)
      as (Hty' & Hp' & Hreq').
    split; [simpl; congruence|]. split.
    + intros name. cbn. rewrite Hp'.
      destruct (decide (name = i)) as [->|Hne].
      * rewrite !lookup_insert_eq. by exists fs, schema, schema'.
      * rewrite !lookup_insert_ne by done. apply Hprops.
    + intros name. cbn. rewrite Hreq', Hreq. split.
      * intros [(field & Hf & Ha)|[-> Ha]].
        -- exists field. split; [|done]. rewrite lookup_insert_ne; [done|].
           intros ->. congruence.
        -- exists x. by rewrite lookup_insert_eq.
      * intros (field & Hf & Ha). destruct (decide (name = i)) as [->|Hne].
        -- rewrite lookup_insert_eq in Hf. injection Hf as <-. by right.
        -- rewrite lookup_insert_ne in Hf by done. left. by exists field.
Qed.

Lemma finishSchema_recorded t spec st :
  fieldsRecorded t spec st.1 -> fieldsRecorded t spec (finishSchema st).
Proof. destruct st as [schema []]; done. Qed.

(** X12. The schema [buildSchema] returns is an object with exactly one
    property per field of the specification, and the schema of each property
    is the one [buildFieldSchema] builds for the field. *)
Theorem buildSchema_properties (t : transformer)
    (spec : gmap string fieldSpec) (schema : JSONSchemaProps) :
  buildSchema t spec = Ok schema ->
  schema.(Type_) = "object"
  /\ forall name,
       match spec !! name with
       | Some field =>
           exists child parent parent',
             schema.(Properties) !! name = Some child
             /\ buildFieldSchema t name field parent = Ok (child, parent')
       | None => schema.(Properties) !! name = None
       end.
Proof.
  unfold buildSchema.
  destruct (buildFields t spec) as [st|] eqn:Hfields; [simpl|done].
  intros [= <-].
  by destruct (finishSchema_recorded t spec st
                 (buildFields_recorded _ _ _ Hfields)) as (? & ? & _).
Qed.

(** X13. The [Required] list of the schema [buildSchema] returns names exactly
    the fields that ask for it: the field strings of a required custom type
    and those with a [required] marker whose value reads as true. A nested map
    is never required. *)
Theorem buildSchema_required (t : transformer)
    (spec : gmap string fieldSpec) (schema : JSONSchemaProps) :
  buildSchema t spec = Ok schema ->
  forall name,
    name ∈ schema.(Required) <->
    exists field, spec !! name = Some field /\ asksRequired t field.
Proof.
  unfold buildSchema.
  destruct (buildFields t spec) as [st|] eqn:Hfields; [simpl|done].
  intros [= <-].
  by destruct (finishSchema_recorded t spec st
                 (buildFields_recorded _ _ _ Hfields)) as (_ & _ & ?).
Qed.

(** X14. A field that cannot be built makes [buildSchema] fail, and the error
    it returns is the error of building one of the fields of the
    specification, wrapped in the name of that field. *)
Theorem buildSchema_field_error (t : transformer)
    (spec : gmap string fieldSpec) (name : string) (field : fieldSpec) :
  spec !! name = Some field ->
  (forall parent, is_ok (buildFieldSchema t name field parent) = false) ->
  exists n f parent e,
    spec !! n = Some f
    /\ buildFieldSchema t n f parent = Err e
    /\ buildSchema t spec = Err (ErrField n e).
Proof.
  intros Hname Hfail. unfold buildSchema.
  assert ((forall st, buildFields t spec = Ok st ->
             forall n f, spec !! n = Some f ->
               exists parent, is_ok (buildFieldSchema t n f parent) = true)
          /\ (forall err, buildFields t spec = Err err ->
                exists n f parent e,
                  spec !! n = Some f
                  /\ buildFieldSchema t n f parent = Err e
                  /\ err = ErrField n e)) as [Hok Herr].
  { unfold buildFields.
    apply (map_fold_weak_ind (fun acc (m : gmap string fieldSpec) =>
      (forall st, acc = Ok st ->
         forall n f, m !! n = Some f ->
           exists parent, is_ok (buildFieldSchema t n f parent) = true)
      /\ (forall err, acc = Err err ->
            exists n f parent e,
              m !! n = Some f
              /\ buildFieldSchema t n f parent = Err e
              /\ err = ErrField n e))).
    - split; [|done]. intros st _ n f Hn. by rewrite lookup_empty in Hn.
    - intros i x m acc Hi [IHok IHerr].
      destruct acc as [[schema chd]|e0]; simpl.
      + destruct (buildFieldSchema t i x schema) as [[fs schema']|e1] eqn:Hfs;
          simpl.
        * split; [|done]. intros st _ n f Hn.
          destruct (decide (n = i)) as [->|Hne].
          -- rewrite lookup_insert_eq in Hn. injection Hn as <-.
             exists schema. by rewrite Hfs.
          -- rewrite lookup_insert_ne in Hn by done. by eapply IHok.
        * split; [done|]. intros err [= <-]. exists i, x, schema, e1.
          by rewrite lookup_insert_eq.
      + split; [done|]. intros err [= <-].
        destruct (IHerr e0 eq_refl) as (n & f & parent & e & Hn & Hf & ->).
        exists n, f, parent, e. split; [|done].
        rewrite lookup_insert_ne; [done|]. intros ->. congruence. }
  destruct (buildFields t spec) as [st|err] eqn:Hfields; simpl.
  - destruct (Hok st eq_refl name field Hname) as [parent Hp].
    by rewrite Hfail in Hp.
  - destruct (Herr err eq_refl) as (n & f & parent & e & Hn & Hf & ->).
    by exists n, f, parent, e.
Qed.

End MoreBuilder.

Lemma buildSchema_properties_witness :
  sampleBuild sampleSpec = Ok sampleSpecSchema
  /\ sampleSpecSchema.(Type_) = "object".
Proof.
  assert (sampleBuild sampleSpec = Ok sampleSpecSchema) as Hbuild
    by reflexivity.
  split; [exact Hbuild|].
  exact (proj1 (@buildSchema_properties sampleGoStd sampleTypes _ _ _ Hbuild)).
Defined.

Lemma buildSchema_field_error_witness :
  ({[ "name" := FOther ]} : gmap string fieldSpec) !! "name" = Some FOther
  /\ (forall parent,
        is_ok (@buildFieldSchema sampleGoStd sampleTypes (mkTransformer ∅)
                 "name" FOther parent) = false)
  /\ exists n f parent e,
       ({[ "name" := FOther ]} : gmap string fieldSpec) !! n = Some f
       /\ @buildFieldSchema sampleGoStd sampleTypes (mkTransformer ∅)
            n f parent = Err e
       /\ sampleBuild {[ "name" := FOther ]} = Err (ErrField n e).
Proof.
  assert (({[ "name" := FOther ]} : gmap string fieldSpec) !! "name"
          = Some FOther) as Hname by reflexivity.
  assert (forall parent,
            is_ok (@buildFieldSchema sampleGoStd sampleTypes (mkTransformer ∅)
                     "name" FOther parent) = false) as Hfail
    by (intros parent; reflexivity).
  split; [exact Hname|]. split; [exact Hfail|].
  exact (@buildSchema_field_error sampleGoStd sampleTypes (mkTransformer ∅)
           _ _ _ Hname Hfail).
Defined.

Lemma buildSchema_required_witness :
  requiredBuild requiredSpec = Ok requiredSpecSchema
  /\ requiredSpecSchema.(Required) = ["name"]
  /\ forall name,
       name ∈ requiredSpecSchema.(Required) <->
       exists field, requiredSpec !! name = Some field
                     /\ @asksRequired requiredTypes (mkTransformer ∅) field.
Proof.
  assert (requiredBuild requiredSpec = Ok requiredSpecSchema) as Hbuild
    by reflexivity.
  split; [exact Hbuild|]. split; [reflexivity|].
  exact (@buildSchema_required sampleGoStd requiredTypes _ _ _ Hbuild).
Defined.

(** ** More on the loading of custom types *)

Section MoreCustomTypes.
Context `{GoStd} `{TypesPkg}.

Lemma parseCustomTypes_Err specs :
  (forall p, parseCustomTypes specs = Ok p ->
     forall name spec, specs !! name = Some spec ->
                       is_ok (parseSpec spec) = true)
  /\ (forall e, parseCustomTypes specs = Err e ->
        exists name spec e',
          specs !! name = Some spec /\ parseSpec spec = Err e'
          /\ e = ErrParsingType name e').
Proof.
  unfold parseCustomTypes.
  apply (map_fold_weak_ind (fun acc (m : gmap string fieldSpec) =>
    (forall p, acc = Ok p ->
       forall name spec, m !! name = Some spec ->
                         is_ok (parseSpec spec) = true)
    /\ (forall e, acc = Err e ->
          exists name spec e',
            m !! name = Some spec /\ parseSpec spec = Err e'
            /\ e = ErrParsingType name e'))).
  - split; [|done]. intros p _ name spec Hn. by rewrite lookup_empty in Hn.
  - intros i x m acc Hi [IHok IHerr].
    destruct acc as [[parsed markers]|e0]; simpl.
    + destruct (parseSpec x) as [[typ ms]|e1] eqn:Hx; simpl.
      * split; [|done]. intros p _ name spec Hn.
        destruct (decide (name = i)) as [->|Hne].
        -- rewrite lookup_insert_eq in Hn. injection Hn as <-. by rewrite Hx.
        -- rewrite lookup_insert_ne in Hn by done. by eapply IHok.
      * split; [done|]. intros e [= <-]. exists i, x, e1.
        by rewrite lookup_insert_eq.
    + split; [done|]. intros e [= <-].
      destruct (IHerr e0 eq_refl) as (name & spec & e' & Hn & Hs & ->).
      exists name, spec, e'. split; [|done].
      rewrite lookup_insert_ne; [done|]. intros ->. congruence.
Qed.

(** X15. A custom type whose specification does not parse makes
    [loadCustomTypes] fail before any type is resolved, with the error of a
    type that does not parse, wrapped in the name of that type. *)
Theorem loadCustomTypes_parse_error (t : transformer)
    (specs : gmap string fieldSpec) (name : string) (spec : fieldSpec)
    (e : error) :
  specs !! name = Some spec ->
  parseSpec spec = Err e ->
  exists name' spec' e',
    specs !! name' = Some spec' /\ parseSpec spec' = Err e'
    /\ loadCustomTypes t specs = Err (ErrParsingType name' e').
Proof.
  intros Hname Hspec. unfold loadCustomTypes.
  destruct (decide (size specs = 0)) as [Hsize|_].
  { apply map_size_empty_iff in Hsize. subst. by rewrite lookup_empty in Hname. }
  destruct (parseCustomTypes_Err specs) as [Hok Herr].
  destruct (parseCustomTypes specs) as [p|e0] eqn:Hparse.
  - specialize (Hok p eq_refl name spec Hname). by rewrite Hspec in Hok.
  - destruct (Herr e0 eq_refl) as (name' & spec' & e' & Hn & Hs & ->).
    by exists name', spec', e'.
Qed.

Lemma markedRequired_true markers :
  markedRequired markers = true <->
  exists m, m ∈ markers /\ m.(Key) = "required" /\ m.(Value) = "true".
Proof.
  unfold markedRequired. rewrite existsb_exists. split.
  - intros (m & Hin & Hm). apply andb_true_iff in Hm as [Hk Hv].
    apply String.eqb_eq in Hk, Hv. exists m.
    split; [by apply list_elem_of_In | done].
  - intros (m & Hin & Hk & Hv). exists m.
    split; [by apply list_elem_of_In|].
    apply andb_true_iff. by rewrite Hk, Hv.
Qed.

(** The entry that one turn of the last loop records, and the entries it
    leaves alone. *)
Lemma resolveType_recorded parsed markers t name t' :
  resolveType parsed markers t name = Ok t' ->
  (forall n, n ≠ name -> t'.(customTypes) !! n = t.(customTypes) !! n)
  /\ exists ct,
       t'.(customTypes) !! name = Some ct
       /\ ct.(ctRequired) = markedRequired (default [] (markers !! name)).
Proof.
  unfold resolveType. destruct (parsed !! name) as [typ|] eqn:Hp; [|done].
  destruct (Schema typ (Resolve t)) as [schema|] eqn:Hs; simpl; [|done].
  destruct (applyMarkers _ _ _ _) as [[s p]|] eqn:Hm; simpl; [|done].
  intros [= <-]. simpl. split.
  - intros n Hne. by rewrite lookup_insert_ne.
  - eexists. by rewrite lookup_insert_eq.
Qed.

Lemma resolveTypes_recorded parsed markers t order t' :
  resolveTypes parsed markers t order = Ok t' ->
  forall n,
    if decide (n ∈ order) then
      exists ct,
        t'.(customTypes) !! n = Some ct
        /\ ct.(ctRequired) = markedRequired (default [] (markers !! n))
    else t'.(customTypes) !! n = t.(customTypes) !! n.
Proof.
  revert t. induction order as [|a order IH]; intros t.
  - intros [= <-] n. case_decide as Hn; [by apply elem_of_nil in Hn | done].
  - cbn [resolveTypes].
    destruct (resolveType parsed markers t a) as [t1|] eqn:Ha; [simpl|done].
    intros Hrest n. specialize (IH _ Hrest n).
    destruct (resolveType_recorded _ _ _ _ _ Ha) as [Hkeep Hnew].
    destruct (decide (n ∈ order)) as [Hin|Hnin].
    + case_decide as Hn; [done|]. destruct Hn. by right.
    + destruct (decide (n = a)) as [->|Hne].
      * case_decide as Hn; [|destruct Hn; left].
        destruct Hnew as (ct & Hct & Hr). exists ct. by rewrite IH.
      * case_decide as Hn.
        -- by apply elem_of_cons in Hn as [?|?].
        -- rewrite IH. by apply Hkeep.
Qed.

(** X16. After [loadCustomTypes] the transformer holds an entry for every
    type of the specifications, and the entry is required exactly when one of
    the markers of the type has the key [required] and the value [true],
    letter for letter. The entry of every other name is left as it was. *)
Theorem loadCustomTypes_loaded (t : transformer)
    (specs : gmap string fieldSpec) (t' : transformer) :
  loadCustomTypes t specs = Ok t' ->
  forall n,
    match specs !! n with
    | Some spec =>
        exists typ markers ct,
          parseSpec spec = Ok (typ, markers)
          /\ t'.(customTypes) !! n = Some ct
          /\ (ct.(ctRequired) = true <->
              exists m, m ∈ markers
                        /\ m.(Key) = "required" /\ m.(Value) = "true")
    | None => t'.(customTypes) !! n = t.(customTypes) !! n
    end.
Proof.
  unfold loadCustomTypes.
  destruct (decide (size specs = 0)) as [Hsize|_].
  { intros [= <-] n. apply map_size_empty_iff in Hsize. subst specs.
    by rewrite lookup_empty. }
  destruct (parseCustomTypes specs) as [[parsed markers]|] eqn:Hparse;
    [simpl|done].
  destruct (typeOrder parsed) as [order|] eqn:Horder; [simpl|done].
  intros Hres n.
  pose proof (parseCustomTypes_Ok _ _ _ Hparse) as Hp.
  destruct (typeOrder_sound _ _ Horder) as (Hperm & _ & _).
  rewrite (parsedFrom_keys specs parsed markers Hp) in Hperm.
  pose proof (resolveTypes_recorded _ _ _ _ _ Hres n) as Hrec.
  specialize (Hp n).
  destruct (specs !! n) as [spec|] eqn:Hn.
  - destruct Hp as (typ & ms & Hs & Hpn & Hmn).
    rewrite decide_True in Hrec.
    2:{ rewrite Hperm. apply list_elem_of_fmap. exists (n, spec).
        split; [done | by apply elem_of_map_to_list]. }
    destruct Hrec as (ct & Hct & Hr). rewrite Hmn in Hr. simpl in Hr.
    exists typ, ms, ct. split; [done|]. split; [done|].
    rewrite Hr. apply markedRequired_true.
  - rewrite decide_False in Hrec; [done|].
    rewrite Hperm. intros ([k s] & -> & Hin)%list_elem_of_fmap.
    apply elem_of_map_to_list in Hin. simpl in Hn. congruence.
Qed.

End MoreCustomTypes.

Lemma loadCustomTypes_parse_error_witness :
  ({[ "Port" := FOther ]} : gmap string fieldSpec) !! "Port" = Some FOther
  /\ @parseSpec namedTypes FOther = Err (ErrTypes "unknown spec")
  /\ exists name' spec' e',
       ({[ "Port" := FOther ]} : gmap string fieldSpec) !! name' = Some spec'
       /\ @parseSpec namedTypes spec' = Err e'
       /\ namedLoad {[ "Port" := FOther ]} = Err (ErrParsingType name' e').
Proof.
  assert (({[ "Port" := FOther ]} : gmap string fieldSpec) !! "Port"
          = Some FOther) as Hname by reflexivity.
  assert (@parseSpec namedTypes FOther = Err (ErrTypes "unknown spec"))
    as Hspec by reflexivity.
  split; [exact Hname|]. split; [exact Hspec|].
  exact (@loadCustomTypes_parse_error sampleGoStd namedTypes (mkTransformer ∅)
           _ _ _ _ Hname Hspec).
Defined.

Lemma loadCustomTypes_loaded_witness :
  namedLoad portSpecs = Ok portTransformer
  /\ forall n,
       match portSpecs !! n with
       | Some spec =>
           exists typ markers ct,
             @parseSpec namedTypes spec = Ok (typ, markers)
             /\ portTransformer.(customTypes) !! n = Some ct
             /\ (ct.(ctRequired) = true <->
                 exists m, m ∈ markers
                           /\ m.(Key) = "required" /\ m.(Value) = "true")
       | None =>
           portTransformer.(customTypes) !! n
           = (mkTransformer ∅).(customTypes) !! n
       end.
Proof.
  assert (namedLoad portSpecs = Ok portTransformer) as Hload by reflexivity.
  split; [exact Hload|].
  exact (@loadCustomTypes_loaded sampleGoStd namedTypes _ _ _ Hload).
Defined.

Import Rbac.

(** ** The rules of the RBAC generator *)

Lemma existsb_eqb_elem (r : string) (rs : list string) :
  existsb (fun resource => String.eqb resource r) rs = true <-> r ∈ rs.
Proof.
  rewrite existsb_exists. split.
  - intros (x & Hin & Heq). apply String.eqb_eq in Heq as ->.
    by apply list_elem_of_In.
  - intros Hin. exists r. split; [by apply list_elem_of_In|].
    apply String.eqb_refl.
Qed.

Lemma addGVR_grouped seen rbg gvr :
  grouped seen rbg -> grouped (seen ++ [gvr]) (addGVR rbg gvr).
Proof.
  intros [Hres Hgrp]. unfold addGVR.
  assert (forall g r,
            (exists x, x ∈ seen ++ [gvr] /\ Group x = g /\ Resource x = r)
            <-> (exists x, x ∈ seen /\ Group x = g /\ Resource x = r)
                \/ (g = Group gvr /\ r = Resource gvr)) as Hseen.
  { intros g r. split.
    - intros (x & Hx & Hg & Hr). apply elem_of_app in Hx as [Hx|Hx].
      + left. by exists x.
      + apply list_elem_of_singleton in Hx as ->. by right.
    - intros [(x & Hx & Hg & Hr)|[-> ->]].
      + exists x. split; [apply elem_of_app; by left | done].
      + exists gvr. split; [apply elem_of_app; right; left | done]. }
  destruct (rbg !! Group gvr) as [resources|] eqn:Hg.
  - destruct (Hres _ _ Hg) as [Hnd Hin].
    destruct (existsb _ resources) eqn:Hfound; cbn [negb].
    + apply existsb_eqb_elem in Hfound. split.
      * intros g rs Hrs. destruct (Hres _ _ Hrs) as [Hnd' Hin'].
        split; [done|]. intros r. rewrite Hin', Hseen.
        split; [by left|]. intros [?|[-> ->]]; [done|].
        rewrite Hrs in Hg. injection Hg as ->. by apply Hin.
      * intros x Hx. apply elem_of_app in Hx as [Hx|Hx]; [by apply Hgrp|].
        apply list_elem_of_singleton in Hx as ->. by rewrite Hg.
    + assert (Resource gvr ∉ resources) as Hnew.
      { intros Hin'. apply existsb_eqb_elem in Hin'. congruence. }
      split.
      * intros g rs. destruct (decide (g = Group gvr)) as [->|Hne].
        -- rewrite lookup_insert_eq. intros [= <-]. split.
           ++ apply NoDup_app. split; [done|]. split; [|apply NoDup_singleton].
              intros r Hr ->%list_elem_of_singleton. done.
           ++ intros r. rewrite elem_of_app, list_elem_of_singleton, Hin, Hseen.
              split; [intros [?| ->]; auto | intros [?|[_ ->]]; auto].
        -- rewrite lookup_insert_ne by done. intros Hrs.
           destruct (Hres _ _ Hrs) as [Hnd' Hin']. split; [done|].
           intros r. rewrite Hin', Hseen. split; [by left|].
           by intros [?|[-> _]].
      * intros x Hx. destruct (decide (Group x = Group gvr)) as [->|Hne].
        -- rewrite lookup_insert_eq. by eexists.
        -- rewrite lookup_insert_ne by done.
           apply elem_of_app in Hx as [Hx|Hx]; [by apply Hgrp|].
           apply list_elem_of_singleton in Hx as ->. done.
  - split.
    + intros g rs. destruct (decide (g = Group gvr)) as [->|Hne].
      * rewrite lookup_insert_eq. intros [= <-]. split; [apply NoDup_singleton|].
        intros r. rewrite list_elem_of_singleton, Hseen. split; [by right|].
        intros [(x & Hx & Hgx & _)|[_ ->]]; [|done].
        destruct (Hgrp x Hx) as [? Hsome]. congruence.
      * rewrite lookup_insert_ne by done. intros Hrs.
        destruct (Hres _ _ Hrs) as [Hnd' Hin']. split; [done|].
        intros r. rewrite Hin', Hseen. split; [by left|].
        by intros [?|[-> _]].
    + intros x Hx. destruct (decide (Group x = Group gvr)) as [->|Hne].
      * rewrite lookup_insert_eq. by eexists.
      * rewrite lookup_insert_ne by done.
        apply elem_of_app in Hx as [Hx|Hx]; [by apply Hgrp|].
        apply list_elem_of_singleton in Hx as ->. done.
Qed.

Lemma foldl_addGVR_grouped gvrs : grouped gvrs (foldl addGVR ∅ gvrs).
Proof.
  assert (forall todo seen rbg,
            grouped seen rbg ->
            grouped (seen ++ todo) (foldl addGVR rbg todo)) as Hgen.
  { induction todo as [|gvr todo IH]; intros seen rbg Hg; simpl.
    - by rewrite app_nil_r.
    - rewrite (cons_middle gvr seen todo), app_assoc. apply IH.
      by apply addGVR_grouped. }
  apply (Hgen gvrs [] ∅). split.
  - intros g rs Hrs. by rewrite lookup_empty in Hrs.
  - intros gvr Hin. by apply elem_of_nil in Hin.
Qed.

Lemma elem_of_groups rbg g : g ∈ groups rbg <-> is_Some (rbg !! g).
Proof.
  unfold groups. rewrite merge_sort_Permutation.
  rewrite list_elem_of_fmap. split.
  - intros ([k v] & -> & Hin). apply elem_of_map_to_list in Hin. by exists v.
  - intros [v Hv]. exists (g, v). split; [done|].
    by apply elem_of_map_to_list.
Qed.

#[local] Instance stringLe_total : Total stringLe.
Proof. intros a b. apply String.leb_total. Qed.

(** X17. The rules cover the resources of the graph and nothing else: every
    resource is granted by the rule of its API group, with the six default
    verbs, and every resource that a rule grants comes from the graph. *)
Theorem policyRules_exact (gvrs : list GroupVersionResource) :
  (forall gvr, gvr ∈ gvrs ->
     exists rule, rule ∈ policyRules gvrs
                  /\ rule.(Verbs) = kroDefaultVerbs
                  /\ rule.(APIGroups) = [gvr.(Group)]
                  /\ gvr.(Resource) ∈ rule.(Resources))
  /\ (forall rule, rule ∈ policyRules gvrs ->
        exists g, rule.(APIGroups) = [g]
                  /\ forall r, r ∈ rule.(Resources) ->
                       exists gvr, gvr ∈ gvrs /\ gvr.(Group) = g
                                   /\ gvr.(Resource) = r).
Proof.
  destruct (foldl_addGVR_grouped gvrs) as [Hres Hgrp]. unfold policyRules.
  split.
  - intros gvr Hin. destruct (Hgrp gvr Hin) as [rs Hrs].
    exists (mkPolicyRule kroDefaultVerbs [Group gvr] rs).
    split; [|split; [done|split; [done|]]].
    + apply list_elem_of_fmap. exists (Group gvr). rewrite Hrs.
      split; [done|]. apply elem_of_groups. by exists rs.
    + simpl. apply (Hres _ _ Hrs). by exists gvr.
  - intros rule Hrule. apply list_elem_of_fmap in Hrule as (g & -> & Hg).
    exists g. split; [done|]. simpl. intros r Hr.
    apply elem_of_groups in Hg as [rs Hrs]. rewrite Hrs in Hr. simpl in Hr.
    by apply (Hres _ _ Hrs).
Qed.

(** X18. There is one rule per API group, the rules come in the sorted order
    of their groups, whatever order the map is walked in, and no rule names a
    resource twice. *)
Theorem policyRules_sorted (gvrs : list GroupVersionResource) :
  Sorted stringLe (groups (foldl addGVR ∅ gvrs))
  /\ NoDup (groups (foldl addGVR ∅ gvrs))
  /\ (APIGroups <$> policyRules gvrs)
     = (fun g => [g]) <$> groups (foldl addGVR ∅ gvrs)
  /\ Forall (fun rule => NoDup rule.(Resources)) (policyRules gvrs).
Proof.
  split; [apply Sorted_merge_sort, _|]. split; [|split].
  - unfold groups. rewrite merge_sort_Permutation.
    apply NoDup_fst_map_to_list.
  - unfold policyRules. rewrite <- list_fmap_compose. done.
  - destruct (foldl_addGVR_grouped gvrs) as [Hres _]. unfold policyRules.
    apply Forall_fmap, Forall_forall. intros g Hg. simpl.
    apply elem_of_groups in Hg as [rs Hrs]. rewrite Hrs. simpl.
    by apply (Hres _ _ Hrs).
Qed.

Example policyRules_sample :
  policyRules sampleGVRs
  = [ mkPolicyRule kroDefaultVerbs [""] ["configmaps"];
      mkPolicyRule kroDefaultVerbs ["apps"] ["deployments"; "statefulsets"] ].
Proof. by vm_compute. Qed.

Import MarkerParser.

(** ** The parser of marker strings *)

Lemma string_length_app (a b : string) :
  String.length (a +:+ b) = String.length a + String.length b.
Proof.
  induction a as [|x a IH]; [done|]. rewrite ?string_app_cons. simpl.
  by rewrite IH.
Qed.

Lemma list_ascii_app (a b : string) :
  list_ascii_of_string (a +:+ b)
  = list_ascii_of_string a ++ list_ascii_of_string b.
Proof.
  induction a as [|x a IH]; [done|]. rewrite ?string_app_cons. simpl.
  by rewrite IH.
Qed.

Lemma byte_byteOf c : byte (byteOf c) = c.
Proof.
  unfold byte, byteOf. rewrite N2Z.id. apply ascii_N_embedding.
Qed.

Lemma byteOf_range c : (0 <= byteOf c < 256)%Z.
Proof.
  unfold byteOf. pose proof (N_ascii_bounded c). lia.
Qed.

Lemma encodeRune_ascii c :
  (byteOf c < 128)%Z -> encodeRune (byteOf c) = String c "".
Proof.
  intros Hc. pose proof (byteOf_range c) as Hr. unfold encodeRune, between.
  replace (0 <=? byteOf c)%Z with true by (symmetry; apply Z.leb_le; lia).
  replace (byteOf c <=? 127)%Z with true by (symmetry; apply Z.leb_le; lia).
  simpl. by rewrite byte_byteOf.
Qed.

Lemma WriteRune_ascii buffer c :
  (byteOf c < 128)%Z -> WriteRune buffer (byteOf c) = buffer +:+ String c "".
Proof. intros Hc. unfold WriteRune. by rewrite encodeRune_ascii. Qed.

Lemma isASCII_cons c s :
  isASCII (String c s) <-> (byteOf c < 128)%Z /\ isASCII s.
Proof. unfold isASCII. simpl. by rewrite Forall_cons. Qed.

Lemma isASCII_app a b : isASCII (a +:+ b) <-> isASCII a /\ isASCII b.
Proof. unfold isASCII. rewrite list_ascii_app. by rewrite Forall_app. Qed.

Lemma runes_cons_ascii c s :
  (byteOf c < 128)%Z -> runes (String c s) = byteOf c :: runes s.
Proof.
  intros Hc. unfold runes. simpl.
  by replace (byteOf c <? 128)%Z with true by (symmetry; apply Z.ltb_lt; lia).
Qed.

Lemma bytes_cons c s : bytes (String c s) = byteOf c :: bytes s.
Proof. done. Qed.

Lemma runes_app_ascii a b :
  isASCII a ->
  runes (a +:+ b) = bytes a ++ runes b.
Proof.
  induction a as [|c a IH]; intros Ha; [done|].
  apply isASCII_cons in Ha as [Hc Ha]. rewrite string_app_cons.
  rewrite runes_cons_ascii by done. rewrite IH by done. done.
Qed.

Lemma runes_ascii a :
  isASCII a -> runes a = bytes a.
Proof.
  intros Ha. rewrite <- (string_app_nil_r a) at 1.
  rewrite runes_app_ascii by done. by rewrite app_nil_r.
Qed.

Lemma parseRunes_app st l1 l2 :
  parseRunes st (l1 ++ l2) = (st' ← parseRunes st l1; parseRunes st' l2).
Proof.
  revert st. induction l1 as [|x l1 IH]; intros st; [done|].
  simpl. destruct (parseRune st x); simpl; [apply IH | done].
Qed.

(** *** Unescaping *)

Lemma escape_ascii v : isASCII v -> isASCII (escape v).
Proof.
  induction v as [|c v IH]; intros Hv; [done|].
  apply isASCII_cons in Hv as [Hc Hv]. simpl.
  destruct ((byteOf c =? 34)%Z || (byteOf c =? 92)%Z);
    repeat (apply isASCII_cons; split); auto.
  by vm_compute.
Qed.

Lemma byteOf_byte_92 : byteOf (byte 92) = 92%Z.
Proof. done. Qed.

Lemma unescapeRune_backslash res : unescapeRune (res, false) 92 = (res, true).
Proof. done. Qed.

Lemma unescapeRune_escaped res c :
  (byteOf c < 128)%Z ->
  ((byteOf c =? 34)%Z || (byteOf c =? 92)%Z) = true ->
  unescapeRune (res, true) (byteOf c) = (res +:+ String c "", false).
Proof.
  intros Hc Hsp. unfold unescapeRune.
  replace (negb (byteOf c =? 34)%Z && negb (byteOf c =? 92)%Z) with false
    by (destruct (byteOf c =? 34)%Z, (byteOf c =? 92)%Z; done).
  by rewrite WriteRune_ascii.
Qed.

Lemma unescapeRune_plain res c :
  (byteOf c < 128)%Z -> (byteOf c =? 92)%Z = false ->
  unescapeRune (res, false) (byteOf c) = (res +:+ String c "", false).
Proof.
  intros Hc H92. unfold unescapeRune. rewrite H92.
  by rewrite WriteRune_ascii.
Qed.

Lemma unescape_escape v res :
  isASCII v ->
  foldl unescapeRune (res, false) (bytes (escape v))
  = (res +:+ v, false).
Proof.
  revert res. induction v as [|c v IH]; intros res Hv.
  { simpl. by rewrite string_app_nil_r. }
  apply isASCII_cons in Hv as [Hc Hv]. cbn [escape].
  destruct ((byteOf c =? 34)%Z || (byteOf c =? 92)%Z) eqn:Hsp.
  - rewrite !bytes_cons. cbn [foldl].
    rewrite byteOf_byte_92, unescapeRune_backslash.
    rewrite unescapeRune_escaped by done. rewrite IH by done.
    by rewrite string_app_assoc.
  - rewrite !bytes_cons. cbn [foldl].
    apply orb_false_iff in Hsp as [_ H92].
    rewrite unescapeRune_plain by done. rewrite IH by done.
    by rewrite string_app_assoc.
Qed.

Lemma unescape_bare v res :
  isASCII v -> (92%Z ∉ bytes v) ->
  foldl unescapeRune (res, false) (bytes v) = (res +:+ v, false).
Proof.
  revert res. induction v as [|c v IH]; intros res Hv Hbs.
  { simpl. by rewrite string_app_nil_r. }
  apply isASCII_cons in Hv as [Hc Hv]. rewrite bytes_cons in Hbs.
  apply not_elem_of_cons in Hbs as [H92 Hbs].
  rewrite bytes_cons. cbn [foldl].
  rewrite unescapeRune_plain; [|done|by apply Z.eqb_neq].
  rewrite IH by done. by rewrite string_app_assoc.
Qed.

Lemma unescape_escape_ascii v :
  isASCII v -> unescapeString (escape v) = v.
Proof.
  intros Hv. unfold unescapeString.
  rewrite runes_ascii by by apply escape_ascii.
  by rewrite unescape_escape.
Qed.

(** *** Slices of strings *)

Lemma from_app (a b : string) : from (String.length a) (a +:+ b) = b.
Proof. induction a as [|x a IH]; [by destruct b | done]. Qed.

Lemma upto_app (a b : string) : upto (String.length a) (a +:+ b) = a.
Proof.
  unfold upto. induction a as [|x a IH]; [by destruct b|].
  rewrite string_app_cons. simpl. by rewrite IH.
Qed.

Lemma upto_length (a : string) : upto (String.length a) a = a.
Proof.
  rewrite <- (string_app_nil_r a) at 2. apply upto_app.
Qed.

Lemma byteAt_app (a : string) c (b : string) :
  byteAt (a +:+ String c b) (String.length a) = byteOf c.
Proof.
  unfold byteAt.
  pose proof (append_correct2 a (String c b) 0) as Hget.
  simpl in Hget. by rewrite <- Hget.
Qed.

Lemma string_snoc (s : string) :
  s ≠ "" -> exists a c, s = a +:+ String c "" /\ c ∈ list_ascii_of_string s.
Proof.
  induction s as [|x s IH]; [done|]. intros _. destruct s as [|y s].
  - exists "", x. split; [done | simpl; left].
  - destruct IH as (a & c & Heq & Hin); [done|].
    exists (String x a), c. rewrite string_app_cons, <- Heq.
    split; [done | by right].
Qed.

(** *** Trimming *)

Lemma plainByte_spec c :
  plainByte c = true ->
  (byteOf c < 128)%Z /\ IsSpace (byteOf c) = false
  /\ (byteOf c =? 34)%Z = false
  /\ (byteOf c =? 123)%Z = false /\ (byteOf c =? 91)%Z = false
  /\ (byteOf c =? 125)%Z = false /\ (byteOf c =? 93)%Z = false.
Proof.
  unfold plainByte. cbv zeta. rewrite !andb_true_iff, !negb_true_iff.
  rewrite Z.ltb_lt. tauto.
Qed.

Lemma plainByte_asciiSpace c : plainByte c = true -> asciiSpace (byteOf c) = false.
Proof.
  intros Hc. apply plainByte_spec in Hc as (Hlt & Hsp & _).
  pose proof (byteOf_range c) as Hr. unfold IsSpace in Hsp.
  replace (between 0 (byteOf c) 255) with true in Hsp
    by (symmetry; unfold between; apply andb_true_iff;
        rewrite !Z.leb_le; lia).
  unfold asciiSpace. apply orb_false_iff in Hsp as [Hsp _].
  by apply orb_false_iff in Hsp as [Hsp _].
Qed.

Lemma plain_cons c s :
  plain (String c s) = true <-> plainByte c = true /\ plain s = true.
Proof. unfold plain. simpl. by rewrite andb_true_iff. Qed.

Lemma plain_elem s c :
  plain s = true -> c ∈ list_ascii_of_string s -> plainByte c = true.
Proof.
  unfold plain. rewrite forallb_forall. intros Hs Hc. apply Hs.
  by apply list_elem_of_In.
Qed.

Lemma plain_ascii s : plain s = true -> isASCII s.
Proof.
  intros Hs. apply Forall_forall. intros c Hc.
  by apply (plain_elem s c Hs), plainByte_spec in Hc as [? _].
Qed.

Lemma TrimSpace_plain s : plain s = true -> TrimSpace s = s.
Proof.
  intros Hs. destruct s as [|c s]; [done|].
  pose proof Hs as Hc. apply plain_cons in Hc as [Hc _].
  pose proof (plainByte_asciiSpace c Hc) as Hsp.
  apply plainByte_spec in Hc as [Hc _]. cbn [TrimSpace].
  replace (128 <=? byteOf c)%Z with false by (symmetry; apply Z.leb_gt; lia).
  rewrite Hsp.
  destruct (string_snoc (String c s)) as (a & z & Heq & Hz); [done|].
  rewrite Heq. rewrite string_length_app. simpl String.length.
  rewrite Nat.add_1_r. cbn [trimTrailingFrom].
  rewrite byteAt_app.
  pose proof (plain_elem _ z Hs Hz) as Hpz.
  pose proof (plainByte_asciiSpace z Hpz) as Hsz.
  apply plainByte_spec in Hpz as [Hpz _].
  replace (128 <=? byteOf z)%Z with false by (symmetry; apply Z.leb_gt; lia).
  rewrite Hsz. rewrite <- Nat.add_1_r.
  change 1 with (String.length (String z "")).
  rewrite <- string_length_app. apply upto_length.
Qed.

Lemma TrimSpace_markerTypeName t :
  TrimSpace (markerTypeName t) = markerTypeName t.
Proof. by destruct t. Qed.

(** *** Values *)

Lemma HasPrefix_plain v : plain v = true -> HasPrefix v dquote = false.
Proof.
  destruct v as [|c v]; [done|]. intros Hv.
  apply plain_cons in Hv as [Hc _]. apply plainByte_spec in Hc as (_ & _ & Hq & _).
  unfold HasPrefix, dquote, String.prefix.
  destruct (ascii_dec (ascii_of_nat 34) c) as [<-|Hne]; done.
Qed.

Lemma processValue_plain v : plain v = true -> processValue v = Ok v.
Proof.
  intros Hv. unfold processValue. rewrite HasPrefix_plain by done. simpl.
  by rewrite TrimSpace_plain.
Qed.

Lemma prefix_dquote s : String.prefix dquote (String (ascii_of_nat 34) s) = true.
Proof. apply prefix_correct. simpl. by destruct s. Qed.

Lemma quoted_cons v :
  quoted v = String (ascii_of_nat 34) (escape v +:+ dquote).
Proof. done. Qed.

Lemma processValue_quoted v : isASCII v -> processValue (quoted v) = Ok v.
Proof.
  intros Hv. unfold processValue.
  assert (HasPrefix (quoted v) dquote = true) as ->.
  { rewrite quoted_cons. apply prefix_dquote. }
  assert (String.length (quoted v) = S (S (String.length (escape v)))) as Hlen.
  { rewrite quoted_cons. simpl. rewrite string_length_app. simpl. lia. }
  assert (HasSuffix (quoted v) dquote = true) as ->.
  { unfold HasSuffix. rewrite Hlen. simpl String.length.
    replace (S (S (String.length (escape v))) - 1)
      with (String.length (dquote +:+ escape v)) by (rewrite string_length_app; simpl; lia).
    unfold quoted. rewrite <- string_app_assoc, from_app. done. }
  rewrite Hlen. simpl andb. cbv iota.
  replace (S (S (String.length (escape v))) - 1 <? 1) with false
    by (symmetry; apply Nat.ltb_ge; lia).
  replace (S (S (String.length (escape v))) - 1)
    with (String.length (dquote +:+ escape v)) by (rewrite string_length_app; simpl; lia).
  unfold quoted. rewrite <- string_app_assoc, upto_app.
  change (from 1 (dquote +:+ escape v)) with (escape v).
  by rewrite unescape_escape_ascii.
Qed.

Lemma processValue_renderValue v :
  isASCII v -> processValue (renderValue v) = Ok v.
Proof.
  intros Hv. unfold renderValue. destruct (plain v) eqn:Hp.
  - by apply processValue_plain.
  - by apply processValue_quoted.
Qed.

(** *** One rune of the loop *)

Lemma parseRune_bare acc cur bc buf c :
  plainByte c = true ->
  (byteOf c =? 61)%Z && bool_decide (cur = None) = false ->
  parseRune (mkParserState acc cur false bc buf false) (byteOf c)
  = Ok (mkParserState acc cur false bc (buf +:+ String c "") false).
Proof.
  intros Hc Heq.
  apply plainByte_spec in Hc as (Hlt & Hsp & H34 & H123 & H91 & H125 & H93).
  unfold parseRune. cbn [result_ currentMarker inQuotes bracketCount buffer
                          escaped negb].
  rewrite Heq, H34, H123, H91, H125, H93, Hsp. cbn [andb orb].
  rewrite ?andb_false_r. by rewrite WriteRune_ascii.
Qed.

Lemma parseRune_inside acc cur bc buf c :
  (byteOf c < 128)%Z ->
  (byteOf c =? 34)%Z = false -> (byteOf c =? 92)%Z = false ->
  parseRune (mkParserState acc cur true bc buf false) (byteOf c)
  = Ok (mkParserState acc cur true bc (buf +:+ String c "") false).
Proof.
  intros Hlt H34 H92. unfold parseRune.
  cbn [result_ currentMarker inQuotes bracketCount buffer escaped negb].
  rewrite H34, H92. rewrite ?andb_false_r. cbn [andb orb].
  rewrite ?andb_false_r. by rewrite WriteRune_ascii.
Qed.

Lemma parseRune_backslash acc cur bc buf :
  parseRune (mkParserState acc cur true bc buf false) 92
  = Ok (mkParserState acc cur true bc (buf +:+ String (byte 92) "") true).
Proof.
  unfold parseRune.
  cbn [result_ currentMarker inQuotes bracketCount buffer escaped negb].
  by rewrite ?andb_false_r.
Qed.

Lemma parseRune_escaped acc cur bc buf c :
  (byteOf c < 128)%Z ->
  parseRune (mkParserState acc cur true bc buf true) (byteOf c)
  = Ok (mkParserState acc cur true bc (buf +:+ String c "") false).
Proof.
  intros Hlt. unfold parseRune.
  cbn [result_ currentMarker inQuotes bracketCount buffer escaped negb].
  rewrite ?andb_false_r. cbn [andb orb]. rewrite ?andb_false_r.
  by rewrite WriteRune_ascii.
Qed.

Lemma parseRune_quote acc cur iq bc buf :
  parseRune (mkParserState acc cur iq bc buf false) 34
  = Ok (mkParserState acc cur (negb iq) bc (buf +:+ dquote) false).
Proof. done. Qed.

Lemma parseRune_space_close acc m buf :
  parseRune (mkParserState acc (Some m) false 0 buf false) 32
  = (value ← processValue buf;
     Ok (mkParserState (acc ++ [setValue m value]) None false 0 "" false)).
Proof.
  unfold parseRune, closeMarker.
  cbn [result_ currentMarker inQuotes bracketCount buffer escaped negb].
  cbn. by destruct (processValue buf).
Qed.

Lemma parseRune_space_skip acc buf esc :
  parseRune (mkParserState acc None false 0 buf esc) 32
  = Ok (mkParserState acc None false 0 buf esc).
Proof. by destruct esc. Qed.

(** *** Runs of runes *)

Lemma bytes_app a b : bytes (a +:+ b) = bytes a ++ bytes b.
Proof. unfold bytes. by rewrite list_ascii_app, fmap_app. Qed.

Lemma parseRunes_bare acc cur bc buf v :
  plain v = true ->
  (cur = None -> Forall (fun c => byteOf c ≠ 61%Z) (list_ascii_of_string v)) ->
  parseRunes (mkParserState acc cur false bc buf false) (bytes v)
  = Ok (mkParserState acc cur false bc (buf +:+ v) false).
Proof.
  revert buf. induction v as [|c v IH]; intros buf Hv Hkey.
  { simpl. by rewrite string_app_nil_r. }
  apply plain_cons in Hv as [Hc Hv]. rewrite bytes_cons. cbn [parseRunes].
  rewrite parseRune_bare; [|done|].
  - cbn [mbind result_bind]. rewrite IH; [|done|].
    + by rewrite string_app_assoc.
    + intros Hcur. specialize (Hkey Hcur). simpl in Hkey.
      by apply Forall_cons in Hkey as [_ ?].
  - destruct cur as [m|]; [by rewrite andb_false_r|].
    specialize (Hkey eq_refl). simpl in Hkey.
    apply Forall_cons in Hkey as [Hne _].
    apply andb_false_iff. left. by apply Z.eqb_neq.
Qed.

Lemma parseRunes_escape acc cur bc buf v :
  isASCII v ->
  parseRunes (mkParserState acc cur true bc buf false) (bytes (escape v))
  = Ok (mkParserState acc cur true bc (buf +:+ escape v) false).
Proof.
  revert buf. induction v as [|c v IH]; intros buf Hv.
  { simpl. by rewrite string_app_nil_r. }
  apply isASCII_cons in Hv as [Hc Hv]. cbn [escape].
  destruct ((byteOf c =? 34)%Z || (byteOf c =? 92)%Z) eqn:Hsp.
  - rewrite !bytes_cons. cbn [parseRunes].
    rewrite byteOf_byte_92, parseRune_backslash. cbn [mbind result_bind].
    rewrite parseRune_escaped by done. cbn [mbind result_bind].
    rewrite IH by done. by rewrite !string_app_assoc.
  - apply orb_false_iff in Hsp as [H34 H92].
    rewrite !bytes_cons. cbn [parseRunes].
    rewrite parseRune_inside by done. cbn [mbind result_bind].
    rewrite IH by done. by rewrite !string_app_assoc.
Qed.

Lemma parseRunes_quoted acc cur bc buf v :
  isASCII v ->
  parseRunes (mkParserState acc cur false bc buf false) (bytes (quoted v))
  = Ok (mkParserState acc cur false bc (buf +:+ quoted v) false).
Proof.
  intros Hv. unfold quoted. rewrite !bytes_app, !parseRunes_app.
  change (bytes dquote) with [34%Z]. cbn [parseRunes].
  rewrite parseRune_quote. cbn [mbind result_bind negb].
  rewrite ?parseRunes_app.
  rewrite parseRunes_escape by done. cbn [mbind result_bind parseRunes].
  rewrite parseRune_quote. cbn [mbind result_bind negb].
  by rewrite !string_app_assoc.
Qed.

Lemma parseRunes_renderValue acc m bc v :
  isASCII v ->
  parseRunes (mkParserState acc (Some m) false bc "" false)
             (bytes (renderValue v))
  = Ok (mkParserState acc (Some m) false bc (renderValue v) false).
Proof.
  intros Hv. unfold renderValue. destruct (plain v) eqn:Hp.
  - by rewrite parseRunes_bare.
  - by rewrite parseRunes_quoted.
Qed.

Lemma parseRunes_key acc t :
  parseRunes (mkParserState acc None false 0 "" false)
             (bytes (markerTypeName t +:+ "="))
  = Ok (mkParserState acc (Some (mkMarker t (markerTypeName t) ""))
          false 0 "" false).
Proof. by destruct t. Qed.

Lemma parseRunes_renderMarker acc m :
  printable m ->
  parseRunes (mkParserState acc None false 0 "" false) (bytes (renderMarker m))
  = Ok (mkParserState acc (Some (mkMarker m.(MarkerType_) m.(Key) ""))
          false 0 (renderValue m.(Value)) false).
Proof.
  intros [Hk Hv]. unfold renderMarker. rewrite <- string_app_assoc.
  rewrite bytes_app, parseRunes_app. rewrite Hk, parseRunes_key.
  cbn [mbind result_bind]. by apply parseRunes_renderValue.
Qed.

Lemma setValue_printed m : setValue (mkMarker m.(MarkerType_) m.(Key) "") m.(Value) = m.
Proof. by destruct m. Qed.

Lemma renderMarkers_cons m m' ms :
  renderMarkers (m :: m' :: ms)
  = renderMarker m +:+ " " +:+ renderMarkers (m' :: ms).
Proof. done. Qed.

Lemma parseRunes_renderMarkers_then ms acc rest :
  Forall printable ms ->
  parseRunes (mkParserState acc None false 0 "" false)
             (bytes (renderMarkers ms) ++ 32%Z :: rest)
  = parseRunes (mkParserState (acc ++ ms) None false 0 "" false) rest.
Proof.
  revert acc. induction ms as [|m ms IH]; intros acc Hms.
  { by rewrite app_nil_r. }
  apply Forall_cons in Hms as [Hm Hms].
  assert (forall acc tail,
    parseRunes (mkParserState acc None false 0 "" false)
               (bytes (renderMarker m) ++ 32%Z :: tail)
    = parseRunes (mkParserState (acc ++ [m]) None false 0 "" false) tail)
    as Hone.
  { intros acc' tail. rewrite parseRunes_app, parseRunes_renderMarker by done.
    cbn [mbind result_bind parseRunes]. rewrite parseRune_space_close.
    destruct Hm as [_ Hv]. rewrite processValue_renderValue by done.
    cbn [mbind result_bind]. by rewrite setValue_printed. }
  destruct ms as [|m' ms].
  - apply Hone.
  - rewrite renderMarkers_cons, bytes_app, <- app_assoc.
    change (bytes (" " +:+ renderMarkers (m' :: ms)))
      with (32%Z :: bytes (renderMarkers (m' :: ms))).
    rewrite <- app_comm_cons. rewrite Hone. rewrite IH by done.
    by rewrite <- app_assoc.
Qed.

Lemma parseRunes_renderMarkers ms acc :
  Forall printable ms ->
  (st ← parseRunes (mkParserState acc None false 0 "" false)
                   (bytes (renderMarkers ms));
   finishMarkers st) = Ok (acc ++ ms).
Proof.
  revert acc. induction ms as [|m ms IH]; intros acc Hms.
  { by rewrite app_nil_r. }
  pose proof Hms as Hall. apply Forall_cons in Hms as [Hm Hms].
  destruct ms as [|m' ms].
  - change (renderMarkers [m]) with (renderMarker m).
    rewrite parseRunes_renderMarker by done. cbn [mbind result_bind].
    unfold finishMarkers, closeMarker.
    cbn [currentMarker buffer result_ inQuotes bracketCount].
    destruct Hm as [_ Hv]. rewrite processValue_renderValue by done.
    cbn [mbind result_bind]. by rewrite setValue_printed.
  - rewrite renderMarkers_cons, bytes_app.
    change (bytes (" " +:+ renderMarkers (m' :: ms)))
      with (32%Z :: bytes (renderMarkers (m' :: ms))).
    change (renderMarker m) with (renderMarkers [m]).
    rewrite parseRunes_renderMarkers_then by (by apply Forall_singleton).
    rewrite IH by done. by rewrite <- app_assoc.
Qed.

Lemma markerTypeName_ascii t : isASCII (markerTypeName t).
Proof. destruct t; repeat (constructor; [reflexivity|]); constructor. Qed.

Lemma isASCII_singleton c : (byteOf c < 128)%Z -> isASCII (String c "").
Proof. intros Hc. by apply Forall_singleton. Qed.

Lemma renderValue_ascii v : isASCII v -> isASCII (renderValue v).
Proof.
  intros Hv. unfold renderValue. destruct (plain v); [done|].
  unfold quoted. rewrite !isASCII_app. repeat split.
  - by apply isASCII_singleton.
  - by apply escape_ascii.
  - by apply isASCII_singleton.
Qed.

Lemma renderMarker_ascii m : printable m -> isASCII (renderMarker m).
Proof.
  intros [Hk Hv]. unfold renderMarker. rewrite !isASCII_app. repeat split.
  - rewrite Hk. apply markerTypeName_ascii.
  - by apply isASCII_singleton.
  - by apply renderValue_ascii.
Qed.

Lemma renderMarkers_ascii ms : Forall printable ms -> isASCII (renderMarkers ms).
Proof.
  induction ms as [|m ms IH]; intros Hms; [by constructor|].
  apply Forall_cons in Hms as [Hm Hms]. destruct ms as [|m' ms].
  - by apply renderMarker_ascii.
  - rewrite renderMarkers_cons, !isASCII_app. repeat split.
    + by apply renderMarker_ascii.
    + by apply isASCII_singleton.
    + by apply IH.
Qed.

(** *** What the loop keeps *)

Ltac parseRune_inv H :=
  unfold parseRune, closeMarker in H;
  repeat
    match type of H with
    | (if ?b then _ else _) = _ => destruct b eqn:?
    | match ?x with _ => _ end = _ => destruct x eqn:?
    | context [processValue ?b] =>
        destruct (processValue b) eqn:?; cbn [mbind result_bind] in H
    | Err _ = Ok _ => discriminate H
    end;
  try (injection H as <-);
  cbn [result_ currentMarker inQuotes bracketCount buffer escaped] in *.

Lemma parseRune_keyed st c st' :
  parseRune st c = Ok st' ->
  Forall keyed st.(result_) ->
  (forall m, st.(currentMarker) = Some m -> keyed m) ->
  Forall keyed st'.(result_)
  /\ (forall m, st'.(currentMarker) = Some m -> keyed m).
Proof.
  intros Hstep Hres Hcur. parseRune_inv Hstep; split;
    first [ done | exact Hcur | by (intros ? ?; congruence)
          | apply Forall_app; split; [done|]; apply Forall_singleton;
            exact (Hcur _ eq_refl)
          | intros m' [= <-]; unfold keyed; simpl;
            by apply markerTypeFromString_Some ].
Qed.

Lemma parseRunes_keyed l st st' :
  parseRunes st l = Ok st' ->
  Forall keyed st.(result_) ->
  (forall m, st.(currentMarker) = Some m -> keyed m) ->
  Forall keyed st'.(result_)
  /\ (forall m, st'.(currentMarker) = Some m -> keyed m).
Proof.
  revert st. induction l as [|c l IH]; intros st Hrun Hres Hcur.
  { by injection Hrun as <-. }
  simpl in Hrun. destruct (parseRune st c) as [st1|] eqn:Hstep; [|done].
  destruct (parseRune_keyed _ _ _ Hstep Hres Hcur) as [Hres1 Hcur1].
  by apply (IH st1).
Qed.

(** Without a backslash no rune is escaped, and every double quote opens or
    closes a quotation. *)
Lemma parseRune_quotes st c st' :
  parseRune st c = Ok st' -> st.(escaped) = false -> c ≠ 92%Z ->
  st'.(escaped) = false
  /\ st'.(inQuotes) = xorb st.(inQuotes) (c =? 34)%Z.
Proof.
  intros Hstep Hesc Hc. apply Z.eqb_neq in Hc.
  parseRune_inv Hstep; rewrite ?Hesc in *;
    repeat match goal with
           | H : _ && _ = true |- _ => apply andb_true_iff in H as [? ?]
           | H : (_ =? _)%Z = true |- _ => apply Z.eqb_eq in H; subst
           end;
    try done; cbn [negb andb] in *; rewrite ?andb_true_r in *;
    split; try done;
    repeat match goal with
           | H : (c =? 34)%Z = false |- _ => rewrite H
           end;
    by rewrite ?xorb_false_r, ?xorb_true_r.
Qed.

Lemma parseRunes_quotes l st st' :
  parseRunes st l = Ok st' -> st.(escaped) = false -> (92%Z ∉ l) ->
  st'.(escaped) = false
  /\ st'.(inQuotes)
     = xorb st.(inQuotes) (Nat.odd (count_occ Z.eq_dec l 34%Z)).
Proof.
  revert st. induction l as [|c l IH]; intros st Hrun Hesc Hl.
  { injection Hrun as <-. by rewrite xorb_false_r. }
  simpl in Hrun. destruct (parseRune st c) as [st1|] eqn:Hstep; [|done].
  apply not_elem_of_cons in Hl as [Hc Hl].
  destruct (parseRune_quotes _ _ _ Hstep Hesc) as [Hesc1 Hq1]; [done|].
  destruct (IH st1 Hrun Hesc1 Hl) as [Hesc' Hq']. split; [done|].
  rewrite Hq', Hq1. cbn [count_occ]. destruct (Z.eq_dec c 34%Z) as [->|Hne].
  - rewrite Nat.odd_succ, <- Nat.negb_odd.
    by destruct (inQuotes st), (Nat.odd _).
  - apply Z.eqb_neq in Hne. rewrite Hne. by rewrite xorb_false_r.
Qed.

(** Outside quotations the count of open brackets and braces follows the
    runes. *)
Lemma parseRune_brackets st c st' :
  parseRune st c = Ok st' -> st.(inQuotes) = false -> c ≠ 34%Z ->
  (0 <= st.(bracketCount))%Z ->
  st'.(inQuotes) = false
  /\ (0 <= st'.(bracketCount))%Z
  /\ st'.(bracketCount) = (st.(bracketCount) + opens c - closes c)%Z.
Proof.
  intros Hstep Hq Hc Hbc. apply Z.eqb_neq in Hc. unfold opens, closes.
  parseRune_inv Hstep; rewrite ?Hq, ?Hc in *; cbn [negb andb] in *;
    rewrite ?andb_true_r, ?andb_false_r in *;
    repeat match goal with
           | H : _ && _ = true |- _ => apply andb_true_iff in H as [? ?]
           | H : (_ =? 0)%Z = true |- _ => apply Z.eqb_eq in H
           | H : (_ <? 0)%Z = false |- _ => apply Z.ltb_ge in H
           | H : (?c =? 61)%Z = true |- _ => apply Z.eqb_eq in H; subst c
           | H : ?b = _ |- context [?b] => rewrite H
           end;
    try done; cbn [orb] in *; repeat split; try done; try lia.
  all: repeat match goal with
              | H : _ || _ = true |- _ => apply orb_true_iff in H as [H|H]
              | H : (?c =? _)%Z = true |- _ => apply Z.eqb_eq in H; subst c
              end; cbn; lia.
Qed.

Lemma parseRunes_brackets l st st' :
  parseRunes st l = Ok st' -> st.(inQuotes) = false -> (34%Z ∉ l) ->
  (0 <= st.(bracketCount))%Z ->
  st'.(inQuotes) = false
  /\ st'.(bracketCount)
     = (st.(bracketCount) + foldr (fun c n => opens c + n) 0 l
        - foldr (fun c n => closes c + n) 0 l)%Z.
Proof.
  revert st. induction l as [|c l IH]; intros st Hrun Hq Hl Hbc.
  { injection Hrun as <-. simpl. split; [done | lia]. }
  simpl in Hrun. destruct (parseRune st c) as [st1|] eqn:Hstep; [|done].
  apply not_elem_of_cons in Hl as [Hc Hl].
  destruct (parseRune_brackets _ _ _ Hstep Hq) as (Hq1 & Hbc1 & Heq1);
    [done..|].
  destruct (IH st1 Hrun Hq1 Hl Hbc1) as [Hq' Heq']. split; [done|].
  rewrite Heq', Heq1. simpl. lia.
Qed.

Lemma count_opens l :
  foldr (fun c n => opens c + n)%Z 0%Z l
  = Z.of_nat (count_occ Z.eq_dec l 123%Z + count_occ Z.eq_dec l 91%Z).
Proof.
  induction l as [|c l IH]; [done|]. cbn [foldr count_occ]. rewrite IH.
  unfold opens.
  destruct (Z.eq_dec c 123%Z) as [->|H1]; [simpl; lia|].
  destruct (Z.eq_dec c 91%Z) as [->|H2]; [simpl; lia|].
  apply Z.eqb_neq in H1, H2. rewrite H1, H2. simpl. lia.
Qed.

Lemma count_closes l :
  foldr (fun c n => closes c + n)%Z 0%Z l
  = Z.of_nat (count_occ Z.eq_dec l 125%Z + count_occ Z.eq_dec l 93%Z).
Proof.
  induction l as [|c l IH]; [done|]. cbn [foldr count_occ]. rewrite IH.
  unfold closes.
  destruct (Z.eq_dec c 125%Z) as [->|H1]; [simpl; lia|].
  destruct (Z.eq_dec c 93%Z) as [->|H2]; [simpl; lia|].
  apply Z.eqb_neq in H1, H2. rewrite H1, H2. simpl. lia.
Qed.

Lemma parseRune_no_marker st c st' :
  parseRune st c = Ok st' -> c ≠ 61%Z -> st.(currentMarker) = None ->
  st'.(currentMarker) = None /\ st'.(result_) = st.(result_).
Proof.
  intros Hstep Hc Hcur. apply Z.eqb_neq in Hc.
  parseRune_inv Hstep; rewrite ?Hc in *; try done; congruence.
Qed.

Lemma parseRunes_no_marker l st st' :
  parseRunes st l = Ok st' -> (61%Z ∉ l) -> st.(currentMarker) = None ->
  st'.(currentMarker) = None /\ st'.(result_) = st.(result_).
Proof.
  revert st. induction l as [|c l IH]; intros st Hrun Hl Hcur.
  { by injection Hrun as <-. }
  simpl in Hrun. destruct (parseRune st c) as [st1|] eqn:Hstep; [|done].
  apply not_elem_of_cons in Hl as [Hc Hl].
  destruct (parseRune_no_marker _ _ _ Hstep) as [Hcur1 Hres1]; [done..|].
  destruct (IH st1 Hrun Hl Hcur1) as [Hcur' Hres']. split; congruence.
Qed.

Lemma finishMarkers_closed st :
  is_ok (finishMarkers st) = true -> st.(inQuotes) = false.
Proof.
  unfold finishMarkers.
  destruct (match currentMarker st with
            | Some m => closeMarker st m
            | None => Ok (result_ st)
            end); [|done].
  cbn [mbind result_bind]. by destruct (inQuotes st).
Qed.

(** *** The parser as a whole *)

(** X19. [unescapeString] undoes [escape]: a value of ASCII characters in
    which every double quote and every backslash is escaped comes back as it
    was. *)
Theorem unescapeString_escape (v : string) :
  isASCII v -> unescapeString (escape v) = v.
Proof. apply unescape_escape_ascii. Qed.

Lemma unescapeString_escape_witness :
  isASCII "a \ b" /\ unescapeString (escape "a \ b") = "a \ b".
Proof.
  assert (isASCII "a \ b") as Hv by (repeat (constructor; [reflexivity|]); constructor).
  split; [exact Hv | exact (unescapeString_escape "a \ b" Hv)].
Defined.

(** X20. [unescapeString] leaves a string of ASCII characters without
    backslash as it is, drops a backslash that ends the string, and keeps a
    backslash that stands before another character than a double quote or a
    backslash. *)
Theorem unescapeString_backslashes (s : string) (c : ascii) :
  isASCII s -> (92%Z ∉ bytes s) ->
  unescapeString s = s
  /\ unescapeString (s +:+ backslash) = s
  /\ ((byteOf c < 128)%Z -> byteOf c ≠ 34%Z -> byteOf c ≠ 92%Z ->
      unescapeString (s +:+ backslash +:+ String c "") = s +:+ backslash +:+ String c "").
Proof.
  intros Hs Hbs.
  assert (isASCII backslash) as Hb by (by apply isASCII_singleton).
  split; [|split].
  - unfold unescapeString. rewrite runes_ascii by done.
    by rewrite unescape_bare.
  - unfold unescapeString.
    rewrite runes_ascii by (by apply isASCII_app).
    rewrite bytes_app, foldl_app, unescape_bare by done. done.
  - intros Hc H34 H92. unfold unescapeString.
    assert (isASCII (String c "")) as Hcs by (by apply isASCII_singleton).
    rewrite runes_ascii by (rewrite !isASCII_app; by repeat split).
    rewrite !bytes_app, !foldl_app, unescape_bare by done.
    change (bytes backslash) with [92%Z]. change (bytes (String c "")) with [byteOf c].
    cbn [foldl]. rewrite unescapeRune_backslash. unfold unescapeRune.
    apply Z.eqb_neq in H34, H92. rewrite H34, H92. cbn [negb andb fst].
    rewrite WriteRune_ascii by done. unfold WriteRune.
    change (encodeRune 92) with backslash. by rewrite !string_app_assoc.
Qed.

Lemma unescapeString_backslashes_witness :
  isASCII "a b" /\ (92%Z ∉ bytes "a b")
  /\ unescapeString "a b" = "a b"
  /\ unescapeString ("a b" +:+ backslash) = "a b".
Proof.
  assert (isASCII "a b") as Hs
    by (repeat (constructor; [reflexivity|]); constructor).
  assert (92%Z ∉ bytes "a b") as Hbs.
  { apply (bool_decide_unpack _). reflexivity. }
  split; [exact Hs|]. split; [exact Hbs|].
  destruct (unescapeString_backslashes "a b" "n" Hs Hbs) as (H1 & H2 & _).
  split; [exact H1 | exact H2].
Defined.

(** X21. Printing and parsing are inverse: a list of markers whose keys are
    the names of their types and whose values are ASCII strings, printed with
    single spaces between the markers and with every value that is not plain
    in double quotes, is parsed to the same list. *)
Theorem parseMarkers_renderMarkers (ms : list Marker) :
  Forall printable ms -> parseMarkers (renderMarkers ms) = Ok ms.
Proof.
  intros Hms. unfold parseMarkers.
  rewrite runes_ascii by by apply renderMarkers_ascii.
  apply (parseRunes_renderMarkers ms [] Hms).
Qed.

Lemma parseMarkers_renderMarkers_witness :
  Forall printable [mkMarker MarkerTypeRequired "required" "true";
                    mkMarker MarkerTypeDescription "description" "a b"]
  /\ parseMarkers
       (renderMarkers [mkMarker MarkerTypeRequired "required" "true";
                       mkMarker MarkerTypeDescription "description" "a b"])
     = Ok [mkMarker MarkerTypeRequired "required" "true";
           mkMarker MarkerTypeDescription "description" "a b"].
Proof.
  assert (Forall printable
            [mkMarker MarkerTypeRequired "required" "true";
             mkMarker MarkerTypeDescription "description" "a b"]) as Hms.
  { repeat (constructor;
            [split; [reflexivity
                    | repeat (constructor; [reflexivity|]); constructor]|]).
    constructor. }
  split; [exact Hms | exact (parseMarkers_renderMarkers _ Hms)].
Defined.

(** X22. A marker whose value is a lone double quote at the end of the input
    makes [parseMarkers] panic: the last value is processed before the open
    quotation is reported, and [processValue] slices the one-byte value out of
    range. *)
Theorem parseMarkers_lone_quote_panics (ms : list Marker) (t : MarkerType) :
  Forall printable ms ->
  parseMarkers (renderMarkers ms +:+ " " +:+ markerTypeName t +:+ "="
                +:+ dquote)
  = Err SliceBoundsPanic.
Proof.
  intros Hms. unfold parseMarkers.
  assert (isASCII (" " +:+ markerTypeName t +:+ "=" +:+ dquote)) as Htail.
  { rewrite !isASCII_app. repeat split; try by apply isASCII_singleton.
    apply markerTypeName_ascii. }
  rewrite runes_app_ascii by by apply renderMarkers_ascii.
  rewrite (runes_ascii _ Htail).
  change (bytes (" " +:+ markerTypeName t +:+ "=" +:+ dquote))
    with (32%Z :: bytes (markerTypeName t +:+ "=" +:+ dquote)).
  unfold initialState. rewrite parseRunes_renderMarkers_then by done.
  rewrite <- string_app_assoc, bytes_app, parseRunes_app, parseRunes_key.
  reflexivity.
Qed.

Lemma parseMarkers_lone_quote_panics_witness :
  Forall printable [mkMarker MarkerTypeRequired "required" "true"]
  /\ parseMarkers (renderMarkers [mkMarker MarkerTypeRequired "required" "true"]
                   +:+ " " +:+ markerTypeName MarkerTypeDescription +:+ "="
                   +:+ dquote)
     = Err SliceBoundsPanic.
Proof.
  assert (Forall printable [mkMarker MarkerTypeRequired "required" "true"])
    as Hms.
  { repeat (constructor;
            [split; [reflexivity
                    | repeat (constructor; [reflexivity|]); constructor]|]).
    constructor. }
  split; [exact Hms
         | exact (parseMarkers_lone_quote_panics _ MarkerTypeDescription Hms)].
Defined.

(** X23. Every marker that [parseMarkers] returns has one of the fourteen
    marker names as its key, the name of its type. *)
Theorem parseMarkers_keyed (s : string) (ms : list Marker) :
  parseMarkers s = Ok ms -> Forall keyed ms.
Proof.
  unfold parseMarkers. intros Hparse.
  destruct (parseRunes initialState (runes s)) as [st|] eqn:Hrun; [|done].
  cbn [mbind result_bind] in Hparse.
  destruct (parseRunes_keyed _ _ _ Hrun) as [Hres Hcur]; [by constructor|done|].
  unfold finishMarkers, closeMarker in Hparse.
  destruct (currentMarker st) as [m|] eqn:Hm.
  - destruct (processValue (buffer st)) as [v|]; [|done].
    cbn [mbind result_bind] in Hparse.
    destruct (inQuotes st); [done|].
    destruct (0 <? bracketCount st)%Z; [done|]. injection Hparse as <-.
    apply Forall_app. split; [done|]. apply Forall_singleton.
    exact (Hcur m eq_refl).
  - cbn [mbind result_bind] in Hparse.
    destruct (inQuotes st); [done|].
    destruct (0 <? bracketCount st)%Z; [done|]. by injection Hparse as <-.
Qed.

Lemma parseMarkers_keyed_witness :
  parseMarkers "required=true default=10"
  = Ok [mkMarker MarkerTypeRequired "required" "true";
        mkMarker MarkerTypeDefault "default" "10"]
  /\ Forall keyed [mkMarker MarkerTypeRequired "required" "true";
                   mkMarker MarkerTypeDefault "default" "10"].
Proof.
  assert (parseMarkers "required=true default=10"
          = Ok [mkMarker MarkerTypeRequired "required" "true";
                mkMarker MarkerTypeDefault "default" "10"]) as Hparse
    by reflexivity.
  split; [exact Hparse | exact (parseMarkers_keyed _ _ Hparse)].
Defined.

(** X24. An input without backslash and with an odd number of double quotes is
    never parsed: a quotation stays open. *)
Theorem parseMarkers_open_quotation (s : string) :
  (92%Z ∉ runes s) ->
  Nat.odd (count_occ Z.eq_dec (runes s) 34%Z) = true ->
  is_ok (parseMarkers s) = false.
Proof.
  intros Hbs Hodd. unfold parseMarkers.
  destruct (parseRunes initialState (runes s)) as [st|] eqn:Hrun; [|done].
  cbn [mbind result_bind].
  destruct (parseRunes_quotes _ _ _ Hrun) as [_ Hq]; [done..|].
  rewrite Hodd in Hq. simpl in Hq.
  destruct (is_ok (finishMarkers st)) eqn:Hok; [|done].
  apply finishMarkers_closed in Hok. congruence.
Qed.

Lemma parseMarkers_open_quotation_witness :
  (92%Z ∉ runes ("description=" +:+ dquote +:+ "a b"))
  /\ Nat.odd (count_occ Z.eq_dec
                (runes ("description=" +:+ dquote +:+ "a b")) 34%Z) = true
  /\ is_ok (parseMarkers ("description=" +:+ dquote +:+ "a b")) = false.
Proof.
  assert (92%Z ∉ runes ("description=" +:+ dquote +:+ "a b")) as Hbs.
  { apply (bool_decide_unpack _). reflexivity. }
  assert (Nat.odd (count_occ Z.eq_dec
                     (runes ("description=" +:+ dquote +:+ "a b")) 34%Z)
          = true) as Hodd by reflexivity.
  split; [exact Hbs|].
  split; [exact Hodd | exact (parseMarkers_open_quotation _ Hbs Hodd)].
Defined.

(** X25. In an input without double quotes that is parsed, the opening
    brackets and braces are as many as the closing ones; a bracket and a brace
    close one another. *)
Theorem parseMarkers_brackets_balanced (s : string) (ms : list Marker) :
  (34%Z ∉ runes s) ->
  parseMarkers s = Ok ms ->
  count_occ Z.eq_dec (runes s) 123%Z + count_occ Z.eq_dec (runes s) 91%Z
  = count_occ Z.eq_dec (runes s) 125%Z + count_occ Z.eq_dec (runes s) 93%Z.
Proof.
  intros Hq. unfold parseMarkers. intros Hparse.
  destruct (parseRunes initialState (runes s)) as [st|] eqn:Hrun; [|done].
  cbn [mbind result_bind] in Hparse.
  destruct (parseRunes_brackets _ _ _ Hrun) as [Hq' Hbc]; [done..|].
  assert (0 <= bracketCount st)%Z as Hpos.
  { clear Hparse Hbc. revert Hrun Hq. generalize (runes s).
    assert (0 <= bracketCount initialState)%Z as H0 by done.
    assert (inQuotes initialState = false) as Hq0 by done.
    revert H0 Hq0. generalize initialState.
    intros st0 H0 Hq0 l. revert st0 H0 Hq0.
    induction l as [|c l IH]; intros st0 H0 Hq0 Hrun Hl.
    { by injection Hrun as <-. }
    simpl in Hrun. destruct (parseRune st0 c) as [st1|] eqn:Hstep; [|done].
    apply not_elem_of_cons in Hl as [Hc Hl].
    destruct (parseRune_brackets _ _ _ Hstep Hq0) as (Hq1 & Hbc1 & _);
      [done..|].
    by apply (IH st1). }
  rewrite count_opens, count_closes in Hbc. simpl in Hbc.
  unfold finishMarkers in Hparse.
  destruct (match currentMarker st with
            | Some m => closeMarker st m
            | None => Ok (result_ st)
            end); [|done].
  cbn [mbind result_bind] in Hparse. rewrite Hq' in Hparse.
  destruct (0 <? bracketCount st)%Z eqn:Hlt; [done|].
  apply Z.ltb_ge in Hlt. lia.
Qed.

Lemma parseMarkers_brackets_balanced_witness :
  (34%Z ∉ runes "default=[}")
  /\ parseMarkers "default=[}" = Ok [mkMarker MarkerTypeDefault "default" "[}"]
  /\ count_occ Z.eq_dec (runes "default=[}") 123%Z
     + count_occ Z.eq_dec (runes "default=[}") 91%Z
     = count_occ Z.eq_dec (runes "default=[}") 125%Z
       + count_occ Z.eq_dec (runes "default=[}") 93%Z.
Proof.
  assert (34%Z ∉ runes "default=[}") as Hq.
  { apply (bool_decide_unpack _). reflexivity. }
  assert (parseMarkers "default=[}"
          = Ok [mkMarker MarkerTypeDefault "default" "[}"]) as Hparse
    by reflexivity.
  split; [exact Hq|].
  split; [exact Hparse | exact (parseMarkers_brackets_balanced _ _ Hq Hparse)].
Defined.

(** X26. Text without an equals sign yields no marker and no panic: it is
    dropped, or an error is returned. *)
Theorem parseMarkers_no_equals (s : string) :
  (61%Z ∉ runes s) ->
  parseMarkers s = Ok [] \/ exists e, parseMarkers s = Err (Returned e).
Proof.
  intros Heq. unfold parseMarkers.
  destruct (parseRunes initialState (runes s)) as [st|] eqn:Hrun.
  - destruct (parseRunes_no_marker _ _ _ Hrun) as [Hcur Hres]; [done..|].
    cbn [mbind result_bind]. unfold finishMarkers. rewrite Hcur, Hres.
    cbn [mbind result_bind initialState result_].
    destruct (inQuotes st); [right; by eexists|].
    destruct (0 <? bracketCount st)%Z; [right; by eexists | by left].
  - right. cbn [mbind result_bind].
    assert (currentMarker initialState = None) as Hcur by done.
    revert Hrun Heq Hcur. generalize initialState. generalize (runes s).
    intros l. induction l as [|c l IH]; intros st0 Hrun Hl Hcur; [done|].
    simpl in Hrun. apply not_elem_of_cons in Hl as [Hc Hl].
    destruct (parseRune st0 c) as [st1|] eqn:Hstep.
    + destruct (parseRune_no_marker _ _ _ Hstep) as [Hcur1 _]; [done..|].
      by apply (IH st1).
    + cbn [mbind result_bind] in Hrun. injection Hrun as <-.
      apply not_eq_sym, Z.eqb_neq in Hc. clear IH.
      unfold parseRune in Hstep. rewrite Hc, Hcur in Hstep.
      cbn [andb] in Hstep.
      repeat match type of Hstep with
             | (if ?b then _ else _) = _ => destruct b
             | Ok _ = Err _ => discriminate Hstep
             end.
      injection Hstep as <-. by eexists.
Qed.

Lemma parseMarkers_no_equals_witness :
  (61%Z ∉ runes "required")
  /\ (parseMarkers "required" = Ok []
      \/ exists e, parseMarkers "required" = Err (Returned e)).
Proof.
  assert (61%Z ∉ runes "required") as Heq.
  { apply (bool_decide_unpack _). reflexivity. }
  split; [exact Heq | exact (parseMarkers_no_equals _ Heq)].
Defined.

(** X27. White space before the equals sign of a marker is dropped, also
    between the characters of the key. *)
Theorem parseMarkers_space_in_key (k rest : string) :
  plain k = true -> (61%Z ∉ bytes k) ->
  parseMarkers (k +:+ " " +:+ rest) = parseMarkers (k +:+ rest).
Proof.
  intros Hk Heq. unfold parseMarkers.
  rewrite (runes_app_ascii k (" " +:+ rest)) by by apply plain_ascii.
  rewrite (runes_app_ascii k rest) by by apply plain_ascii.
  change (" " +:+ rest) with (String " " rest).
  rewrite (runes_cons_ascii " " rest) by done.
  change (byteOf " ") with 32%Z.
  rewrite !parseRunes_app. unfold initialState.
  rewrite parseRunes_bare; [|done|].
  - cbn [mbind result_bind parseRunes]. by rewrite parseRune_space_skip.
  - intros _. apply Forall_forall. intros c Hc Hc61. apply Heq.
    rewrite <- Hc61. unfold bytes. by apply list_elem_of_fmap_2.
Qed.

Lemma parseMarkers_space_in_key_witness :
  plain "req" = true /\ (61%Z ∉ bytes "req")
  /\ parseMarkers ("req" +:+ " " +:+ "uired=true")
     = parseMarkers ("req" +:+ "uired=true").
Proof.
  assert (61%Z ∉ bytes "req") as Heq.
  { apply (bool_decide_unpack _). reflexivity. }
  split; [reflexivity|].
  split; [exact Heq
         | exact (parseMarkers_space_in_key "req" "uired=true" eq_refl Heq)].
Defined.
